(** * diskwipedetector: the wipe-pattern analyzer (analyzer.py)

    A shallow embedding of [analyzer.py], of the scanner and the scan loop
    around it ([scanner.py], [detector.py], [reporter.py]) and of the
    deterministic sample generators, with the properties of the detection
    pipeline.

    Modelling conventions.
    - [bytes] is [list Byte.byte]; Python [int] is [Z]; [len] is
      [Z.of_nat (length _)].
    - Python [float] is modelled by the real numbers [R]: a finite float
      is the real it denotes, and comparisons are exact. The mean and the
      variance of [detect_multi_pass] are written over an arbitrary float
      arithmetic ([FloatOps]), so what is proved of them holds of the
      binary64 evaluation too. Elsewhere every arithmetic operation is the
      exact one, [math.log2 x] is [ln x / ln 2], and [round(x, n)] rounds
      the exact value half-to-even on the n-th decimal; binary64 rounding
      error is outside the model there.
    - Operations that can raise ([/] by zero, [math.log2] of a non-positive
      number, [range] with step 0, indexing out of range, subscripting
      [None]) live in the error monad [result]; a function of the source is
      a [result]-valued function, and "does not raise" is "returns [Ok _]".
    - A [dict] built by the source with a fixed set of keys is a record; the
      [Counter] is an association list in insertion order.
    - A path of the file system is a record of what [os.path.getsize] and
      [open] give for it; a generator is the list of what it yields. *)

From Stdlib Require Import List String Ascii ZArith Reals Lra Lia Bool Arith.
From Stdlib Require Import DecimalString Zfloor Sorted.
From Stdlib.Strings Require Import Byte.
Import ListNotations.

Set Implicit Arguments.
Open Scope string_scope.
Open Scope list_scope.
Open Scope R_scope.

(** ** Python primitives *)

Module Py.

Inductive exn : Set :=
| ZeroDivisionError
| ValueError
| IndexError
| TypeError.

Inductive result (A : Type) : Type :=
| Ok (a : A)
| Raise (e : exn).

Arguments Ok {A} a.
Arguments Raise {A} e.

Definition bind {A B : Type} (m : result A) (k : A -> result B) : result B :=
  match m with
  | Ok a => k a
  | Raise e => Raise e
  end.

Fixpoint foldM {S A : Type} (f : S -> A -> result S) (l : list A) (s : S)
  : result S :=
  match l with
  | [] => Ok s
  | x :: tl => bind (f s x) (fun s' => foldM f tl s')
  end.

Fixpoint mapM {A B : Type} (f : A -> result B) (l : list A) : result (list B) :=
  match l with
  | [] => Ok []
  | x :: tl =>
      bind (f x) (fun y => bind (mapM f tl) (fun ys => Ok (y :: ys)))
  end.

Definition float := R.
Definition bytes := list Byte.byte.

Definition len {A : Type} (l : list A) : Z := Z.of_nat (List.length l).

(** Comparisons of floats, as booleans. *)
Definition ltb (x y : R) : bool := if Rlt_dec x y then true else false.
Definition leb (x y : R) : bool := if Rle_dec x y then true else false.
Definition gtb (x y : R) : bool := ltb y x.
Definition geb (x y : R) : bool := leb y x.

(** [x / y] on floats (and on ints, true division). *)
Definition div (x y : R) : result R :=
  if Req_dec_T y 0 then Raise ZeroDivisionError else Ok (x / y)%R.

(** [math.log2]. *)
Definition log2 (x : R) : result R :=
  if Rlt_dec 0 x then Ok (ln x / ln 2)%R else Raise ValueError.

(** [sum(xs)]: a left fold from 0. *)
Definition sum (xs : list R) : R := fold_left Rplus xs 0%R.

(** Rounding to the nearest integer, ties to even. *)
Definition round_half_even (x : R) : Z :=
  let f := Zfloor x in
  let d := (x - IZR f)%R in
  if Rlt_dec d (1 / 2) then f
  else if Rlt_dec (1 / 2) d then (f + 1)%Z
  else if Z.even f then f else (f + 1)%Z.

(** [round(x, ndigits)]. *)
Definition round (x : R) (ndigits : nat) : R :=
  (IZR (round_half_even (x * 10 ^ ndigits)) / 10 ^ ndigits)%R.

(** [range(start, stop, step)], as the list it enumerates. *)
Definition range_len (start stop step : Z) : Z :=
  if (0 <? step)%Z then
    if (start <? stop)%Z then ((stop - start - 1) / step + 1)%Z else 0%Z
  else
    if (stop <? start)%Z then ((start - stop - 1) / (- step) + 1)%Z else 0%Z.

Definition range3 (start stop step : Z) : result (list Z) :=
  if (step =? 0)%Z then Raise ValueError
  else Ok (map (fun k => (start + Z.of_nat k * step)%Z)
               (seq 0 (Z.to_nat (range_len start stop step)))).

(** [range(start, stop)]: step 1 never raises. *)
Definition range2 (start stop : Z) : list Z :=
  map (fun k => (start + Z.of_nat k)%Z) (seq 0 (Z.to_nat (stop - start))).

(** [a % b] on ints: the sign of the divisor, as [Z.modulo]. *)
Definition modulo (a b : Z) : result Z :=
  if (b =? 0)%Z then Raise ZeroDivisionError else Ok (a mod b)%Z.

(** [a // b] on ints: floor division, as [Z.div]. *)
Definition floordiv (a b : Z) : result Z :=
  if (b =? 0)%Z then Raise ZeroDivisionError else Ok (a / b)%Z.

(** [data[i]] for a non-negative or negative index. *)
Definition getitem {A : Type} (data : list A) (i : Z) : result A :=
  let j := if (i <? 0)%Z then (i + len data)%Z else i in
  if (j <? 0)%Z then Raise IndexError
  else match nth_error data (Z.to_nat j) with
       | Some x => Ok x
       | None => Raise IndexError
       end.

(** [data[i:j]]: indices are clamped, never raises. *)
Definition clamp {A : Type} (data : list A) (i : Z) : Z :=
  if (i <? 0)%Z then Z.max (i + len data) 0 else Z.min i (len data).

Definition slice {A : Type} (data : list A) (i j : Z) : list A :=
  let lo := clamp data i in
  let hi := clamp data j in
  firstn (Z.to_nat (hi - lo)) (skipn (Z.to_nat lo) data).

(** [data[:j]]. *)
Definition slice_to {A : Type} (data : list A) (j : Z) : list A :=
  slice data 0 j.

(** [data.count(b)]. *)
Definition count (data : bytes) (b : Byte.byte) : Z :=
  len (filter (Byte.eqb b) data).

(** [collections.Counter(data)]: the dict of occurrence counts, keys in the
    order of their first occurrence. *)
Fixpoint counter_add (m : list (Byte.byte * Z)) (b : Byte.byte)
  : list (Byte.byte * Z) :=
  match m with
  | [] => [(b, 1%Z)]
  | (k, c) :: tl =>
      if Byte.eqb k b then (k, (c + 1)%Z) :: tl else (k, c) :: counter_add tl b
  end.

Definition Counter (data : bytes) : list (Byte.byte * Z) :=
  fold_left counter_add data [].

Definition values {K V : Type} (m : list (K * V)) : list V := map snd m.

(** [freq.get(b, default)]. *)
Fixpoint get (m : list (Byte.byte * Z)) (b : Byte.byte) (default : Z) : Z :=
  match m with
  | [] => default
  | (k, c) :: tl => if Byte.eqb k b then c else get tl b default
  end.

(** The byte value an int of [range(256)] names. *)
Definition byte_of_int (i : Z) : Byte.byte :=
  match Byte.of_N (Z.to_N i) with
  | Some b => b
  | None => x00
  end.

(** [bytes.hex()]: two lowercase hexadecimal digits per byte. *)
Definition hex_digit (n : N) : ascii :=
  if (n <? 10)%N then ascii_of_N (48 + n) else ascii_of_N (87 + n).

Fixpoint hex (data : bytes) : string :=
  match data with
  | [] => EmptyString
  | b :: tl =>
      let n := Byte.to_N b in
      String (hex_digit (n / 16)) (String (hex_digit (n mod 16)) (hex tl))
  end.

(** [str(i)] for an int. *)
Definition str_int (i : Z) : string := NilZero.string_of_int (Z.to_int i).

(** [set(xs)] of strings: the distinct elements; [x in s]; [len(s)]. *)
Definition set (xs : list string) : list string := nodup string_dec xs.

Definition mem (x : string) (s : list string) : bool :=
  existsb (String.eqb x) s.

End Py.

Declare Scope py_scope.
Delimit Scope py_scope with py.
Notation "x <- m ;; k" := (Py.bind m (fun x => k))
  (at level 61, m at next level, right associativity) : py_scope.
Open Scope py_scope.

Import Py.

(** ** analyzer.py *)

Module Analyzer.

(** *** Entropy and randomness *)

Definition calculate_entropy (data : bytes) : result float :=
  match data with
  | [] => Ok 0%R
  | _ =>
      let freq := Counter data in
      let length := len data in
      terms <- mapM (fun c =>
                       p <- div (IZR c) (IZR length) ;;
                       q <- div (IZR c) (IZR length) ;;
                       l <- log2 q ;;
                       Ok (p * l)%R) (values freq) ;;
      Ok (round (- sum terms) 4)
  end.

Module Chi.
Record t : Type := mk
  { chi_square : float;
    is_random : bool;
    p_estimate : string }.
End Chi.

Definition chi_square_test (data : bytes) : result Chi.t :=
  if (len data <? 256)%Z then
    Ok (Chi.mk 0 false "n/a (too short)")
  else
    let freq := Counter data in
    expected <- div (IZR (len data)) 256 ;;
    terms <- mapM (fun b =>
                     div ((IZR (get freq (byte_of_int b) 0) - expected) ^ 2)
                         expected) (range2 0 256) ;;
    let chi2 := sum terms in
    let is_random := ltb chi2 310 in
    let p_est :=
      if ltb chi2 270 then ">0.20 (strongly uniform)"
      else if ltb chi2 293 then ">0.10 (likely uniform)"
      else if ltb chi2 310 then ">0.05 (possibly uniform)"
      else if ltb chi2 350 then "<0.05 (non-uniform)"
      else "<0.01 (strongly non-uniform)" in
    Ok (Chi.mk (round chi2 2) is_random p_est).

(** *** Simple pattern detectors *)

Definition detect_zero_pattern (data : bytes) : result float :=
  match data with
  | [] => Ok 0%R
  | _ =>
      let zeros := count data x00 in
      r <- div (IZR zeros) (IZR (len data)) ;;
      Ok (round (r * 100) 2)
  end.

Definition detect_one_pattern (data : bytes) : result float :=
  match data with
  | [] => Ok 0%R
  | _ =>
      let ones := count data xff in
      r <- div (IZR ones) (IZR (len data)) ;;
      Ok (round (r * 100) 2)
  end.

Module Repeating.
Record t : Type := mk
  { found : bool;
    pattern : option string;
    period : option Z;
    confidence : float }.
End Repeating.

(** [sum(1 for i in range(period, len(data)) if data[i] == data[i % period])] *)
Definition period_matches (data : bytes) (period : Z) : result Z :=
  hits <- mapM (fun i =>
                  a <- getitem data i ;;
                  j <- modulo i period ;;
                  b <- getitem data j ;;
                  Ok (if Byte.eqb a b then 1%Z else 0%Z))
               (range2 period (len data)) ;;
  Ok (fold_left Z.add hits 0%Z).

(** One turn of the loop over the candidate periods; the state is
    [(best_period, best_score)]. *)
Definition period_step (data : bytes) (st : option Z * float) (period : Z)
  : result (option Z * float) :=
  let '(best_period, best_score) := st in
  matches <- period_matches data period ;;
  score <- div (IZR matches) (IZR (len data)) ;;
  if gtb score best_score then Ok (Some period, score)
  else Ok (best_period, best_score).

Definition detect_repeating_pattern (data : bytes) : result Repeating.t :=
  if (len data <? 128)%Z then
    Ok (Repeating.mk false None None 0)
  else
    quarter <- floordiv (len data) 4 ;;
    st <- foldM (period_step data) (range2 1 (Z.min 65 quarter)) (None, 0%R) ;;
    let '(best_period, best_score) := st in
    match best_period with
    | Some p =>
        if geb best_score 0.95 then
          let sample := slice_to data p in
          Ok (Repeating.mk true (Some (hex sample)) (Some p)
                           (round (best_score * 100) 2))
        else
          Ok (Repeating.mk false None None (round (best_score * 100) 2))
    | None =>
        Ok (Repeating.mk false None None (round (best_score * 100) 2))
    end.

(** *** Multi-pass heuristics *)

Module Multi.
Record t : Type := mk
  { confidence : float;
    phases : list string;
    entropy_variance : float }.
End Multi.

(** The label of one sub-chunk, from its entropy. *)
Definition phase_label (e : float) : string :=
  if ltb e 0.1 then "zeros"
  else if gtb e 7.8 then "random"
  else if gtb 7.9 e && gtb e 0.08 then "ones_or_pattern"
  else "mixed".

(** [if not phases or phases[-1] != label: phases.append(label)] *)
Definition append_phase (phases : list string) (e : float) : list string :=
  let label := phase_label e in
  match phases with
  | [] => phases ++ [label]
  | _ => if String.eqb (last phases EmptyString) label then phases
         else phases ++ [label]
  end.

Definition variance_confidence (variance : float) : float :=
  if gtb variance 4 then 90
  else if gtb variance 2 then 75
  else if gtb variance 0.5 then 50
  else 10.

(** The arithmetic of [detect_multi_pass]. Python computes the mean and
    the variance on binary64 floats, and every sum, difference, power and
    quotient is rounded: the operations are kept in a record, and the
    function is written over any such arithmetic. A finite float is the
    real number it denotes; comparisons of floats are exact. *)
Module FloatOps.
Record t : Type := mk
  { sum : list float -> float;        (* [sum(xs)] *)
    sub : float -> float -> float;    (* [x - y] *)
    pow : float -> nat -> float;      (* [x ** n] *)
    quot : float -> float -> float;   (* [x / y], [y] not zero *)
    round : float -> nat -> float }.  (* [round(x, ndigits)] *)
End FloatOps.

(** The arithmetic of the real numbers, without rounding. *)
Definition exact : FloatOps.t :=
  FloatOps.mk sum Rminus pow (fun x y => (x / y)%R) round.

(** [x / y] in the arithmetic [A]. *)
Definition div_in (A : FloatOps.t) (x y : float) : result float :=
  if Req_dec_T y 0 then Raise ZeroDivisionError
  else Ok (FloatOps.quot A x y).

Definition detect_multi_pass_in (A : FloatOps.t) (data : bytes)
  (chunk_size : Z) : result Multi.t :=
  if (len data <? chunk_size * 4)%Z then
    Ok (Multi.mk 0 [] 0)
  else
    starts <- range3 0 (len data - chunk_size) chunk_size ;;
    let chunks := map (fun i => slice data i (i + chunk_size)) starts in
    entropies <- mapM calculate_entropy chunks ;;
    mean_e <- div_in A (FloatOps.sum A entropies) (IZR (len entropies)) ;;
    variance <- div_in A
                  (FloatOps.sum A
                     (map (fun e => FloatOps.pow A (FloatOps.sub A e mean_e) 2)
                          entropies))
                  (IZR (len entropies)) ;;
    let phases := fold_left append_phase entropies [] in
    let confidence := variance_confidence variance in
    Ok (Multi.mk (FloatOps.round A confidence 1) phases
                 (FloatOps.round A variance 4)).

(** [detect_multi_pass] in the arithmetic of the reals. *)
Definition detect_multi_pass (data : bytes) (chunk_size : Z) : result Multi.t :=
  detect_multi_pass_in exact data chunk_size.

(** The default sub-chunk size of [detect_multi_pass]. *)
Definition default_chunk_size : Z := 512.

(** *** Algorithm classifier *)

Module Algo.
Record t : Type := mk
  { algorithm : string;
    label : string;
    confidence : float }.
End Algo.

Definition classify_wiping_algorithm
  (entropy zero_conf one_conf : float)
  (chi : Chi.t) (multi : Multi.t) (repeating : Repeating.t) : result Algo.t :=
  let phase_set := set (Multi.phases multi) in
  let phase_count := len phase_set in
  if geb zero_conf 99 then
    Ok (Algo.mk "simple_zero" "Zero-fill (0x00)" zero_conf)
  else if geb one_conf 99 then
    Ok (Algo.mk "simple_one" "One-fill (0xFF)" one_conf)
  else if geb entropy 7.5 && Chi.is_random chi then
    r <- div entropy 8 ;;
    Ok (Algo.mk "random_only" "Random-fill (single pass)" (round (r * 100) 1))
  else if Repeating.found repeating then
    let period_str :=
      match Repeating.period repeating with
      | Some p => str_int p
      | None => "None"
      end in
    hex16 <- match Repeating.pattern repeating with
             | Some h => Ok (substring 0 16 h)
             | None => Raise TypeError
             end ;;
    Ok (Algo.mk "alternating_pattern"
                ("Repeating pattern (period=" ++ period_str ++ ", hex="
                   ++ hex16 ++ ")")%string
                (Repeating.confidence repeating))
  else if geb (Multi.confidence multi) 70 then
    if mem "zeros" phase_set && mem "random" phase_set
       && (2 <=? phase_count)%Z then
      if mem "ones" phase_set || gtb (Multi.entropy_variance multi) 3.5 then
        Ok (Algo.mk "dod_5220_7pass" "DoD 5220.22-M 7-pass / RCMP TSSIT"
                    (Multi.confidence multi))
      else
        Ok (Algo.mk "dod_5220_3pass" "DoD 5220.22-M 3-pass"
                    (Multi.confidence multi))
    else if (4 <=? phase_count)%Z then
      Ok (Algo.mk "gutmann_35pass" "Gutmann 35-pass (estimated)"
                  (Rmin (Multi.confidence multi) 70))
    else
      Ok (Algo.mk "unknown" "Unknown / unrecognized pattern" 0)
  else
    Ok (Algo.mk "unknown" "Unknown / unrecognized pattern" 0).

(** *** Full region analysis *)

Module Record_.
Record t : Type := mk
  { offset : Z;
    size : Z;
    pattern_type : string;
    confidence : float;
    algorithm : string;
    algorithm_label : string;
    entropy : float;
    chi_square : float;
    chi_is_random : bool;
    zero_confidence : float;
    one_confidence : float;
    repeating : Repeating.t;
    multi_pass : Multi.t }.
End Record_.

Definition analyze_region (data : bytes) (offset : Z) : result Record_.t :=
  entropy <- calculate_entropy data ;;
  chi <- chi_square_test data ;;
  zero_conf <- detect_zero_pattern data ;;
  one_conf <- detect_one_pattern data ;;
  repeating <- detect_repeating_pattern data ;;
  multi <- detect_multi_pass data default_chunk_size ;;
  algo <- classify_wiping_algorithm entropy zero_conf one_conf chi multi
                                    repeating ;;
  let pattern_type :=
    if geb zero_conf 99 then "zero_fill"
    else if geb one_conf 99 then "one_fill"
    else if geb entropy 7.5 && Chi.is_random chi then "random"
    else if Repeating.found repeating then "repeating"
    else if geb (Multi.confidence multi) 50 then "multi_pass"
    else "unknown" in
  Ok (Record_.mk offset (len data) pattern_type
                 (Algo.confidence algo) (Algo.algorithm algo) (Algo.label algo)
                 entropy (Chi.chi_square chi) (Chi.is_random chi)
                 zero_conf one_conf repeating multi).

End Analyzer.

Import Analyzer.

(** ** Notions used in the statements

    The values the detectors return, as functions of the input, and the
    sample regions the examples evaluate. *)

Definition Zsum (l : list Z) : Z := fold_right Z.add 0%Z l.

(** The invariant of the dict under construction: distinct keys, each
    bound to a positive count. *)
Definition counter_wf (m : list (Byte.byte * Z)) : Prop :=
  NoDup (map fst m) /\ Forall (fun kc => (1 <= snd kc)%Z) m.

(** Every byte value, in increasing order: what [range(256)] names. *)
Definition all_bytes : list Byte.byte := map byte_of_int (range2 0 256).

Definition log2R (x : R) : R := ln x / ln 2.

(** The terms and the value [calculate_entropy] rounds, as real numbers. *)
Definition entropy_term (length : Z) (c : Z) : R :=
  IZR c / IZR length * log2R (IZR c / IZR length).

Definition shannon (data : bytes) : R :=
  - sum (map (entropy_term (len data)) (values (Counter data))).

Definition entropy_value (data : bytes) : R :=
  match data with
  | [] => 0
  | _ => round (shannon data) 4
  end.

Definition chi2_term (data : bytes) (b : Z) : R :=
  (IZR (count data (byte_of_int b)) - IZR (len data) / 256) ^ 2
  / (IZR (len data) / 256).

Definition chi2_value (data : bytes) : R :=
  sum (map (chi2_term data) (range2 0 256)).

Definition p_bucket (chi2 : R) : string :=
  if ltb chi2 270 then ">0.20 (strongly uniform)"
  else if ltb chi2 293 then ">0.10 (likely uniform)"
  else if ltb chi2 310 then ">0.05 (possibly uniform)"
  else if ltb chi2 350 then "<0.05 (non-uniform)"
  else "<0.01 (strongly non-uniform)".

Definition chi_value (data : bytes) : Chi.t :=
  if (len data <? 256)%Z then Chi.mk 0 false "n/a (too short)"
  else Chi.mk (round (chi2_value data) 2) (ltb (chi2_value data) 310)
              (p_bucket (chi2_value data)).

Definition fill_value (data : bytes) (b : Byte.byte) : R :=
  match data with
  | [] => 0
  | _ => round (IZR (count data b) / IZR (len data) * 100) 2
  end.

Definition byte_at (data : bytes) (i : Z) : Byte.byte :=
  nth (Z.to_nat i) data x00.

(** Whether position [i] repeats the unit of period [p]. *)
Definition position_matches (data : bytes) (period i : Z) : Z :=
  if Byte.eqb (byte_at data i) (byte_at data (i mod period)) then 1%Z else 0%Z.

Definition matches_count (data : bytes) (period : Z) : Z :=
  fold_left Z.add
    (map (position_matches data period) (range2 period (len data))) 0%Z.

(** The match fraction of a period. *)
Definition score (data : bytes) (period : Z) : R :=
  IZR (matches_count data period) / IZR (len data).

Definition best_step (data : bytes) (st : option Z * R) (period : Z)
  : option Z * R :=
  if gtb (score data period) (snd st) then (Some period, score data period)
  else st.

(** The periods the loop tries, in the order it tries them. *)
Definition candidates (data : bytes) : list Z :=
  range2 1 (Z.min 65 (len data / 4)).

Definition best (data : bytes) : option Z * R :=
  fold_left (best_step data) (candidates data) (None, 0).

Definition repeating_value (data : bytes) : Repeating.t :=
  if (len data <? 128)%Z then Repeating.mk false None None 0
  else
    match best data with
    | (Some p, best_score) =>
        if geb best_score 0.95 then
          Repeating.mk true (Some (hex (slice_to data p))) (Some p)
                       (round (best_score * 100) 2)
        else Repeating.mk false None None (round (best_score * 100) 2)
    | (None, best_score) =>
        Repeating.mk false None None (round (best_score * 100) 2)
    end.

(** What the scan leaves in [(best_period, best_score)]. *)
Definition scan_spec (data : bytes) (ps : list Z) (st : option Z * R) : Prop :=
  (forall q, In q ps -> score data q <= snd st)
  /\ match fst st with
     | None => snd st = 0
     | Some p =>
         snd st = score data p /\ 0 < score data p
         /\ exists pre post,
             ps = pre ++ p :: post
             /\ forall q, In q pre -> score data q < score data p
     end.

(** The scan on the integer match counts: the fractions share the
    denominator [len(data)], so comparing them is comparing the counts. *)
Definition best_step_count (data : bytes) (st : option Z * Z) (period : Z)
  : option Z * Z :=
  if (snd st <? matches_count data period)%Z
  then (Some period, matches_count data period)
  else st.

Definition best_count (data : bytes) : option Z * Z :=
  fold_left (best_step_count data) (candidates data) (None, 0%Z).

(** The unit 0xAA 0x55, a hundred times. *)
Definition sample_aa55 : bytes := List.concat (repeat [xaa; x55] 100).

Definition chunk_count (data : bytes) (chunk_size : Z) : nat :=
  Z.to_nat (range_len 0 (len data - chunk_size) chunk_size).

Definition chunk_starts (data : bytes) (chunk_size : Z) : list Z :=
  map (fun k => (0 + Z.of_nat k * chunk_size)%Z)
      (seq 0 (chunk_count data chunk_size)).

Definition sub_chunks (data : bytes) (chunk_size : Z) : list bytes :=
  map (fun i => slice data i (i + chunk_size)) (chunk_starts data chunk_size).

Definition chunk_entropies (data : bytes) (chunk_size : Z) : list R :=
  map entropy_value (sub_chunks data chunk_size).

Definition mean_of (xs : list R) : R := sum xs / IZR (len xs).

Definition variance_of (xs : list R) : R :=
  sum (map (fun e => (e - mean_of xs) ^ 2) xs) / IZR (len xs).

(** The mean and the population variance as the arithmetic [A] computes
    them, and the result [detect_multi_pass] builds from the entropies. *)
Definition mean_in (A : FloatOps.t) (xs : list R) : R :=
  FloatOps.quot A (FloatOps.sum A xs) (IZR (len xs)).

Definition variance_in (A : FloatOps.t) (xs : list R) : R :=
  FloatOps.quot A
    (FloatOps.sum A
       (map (fun e => FloatOps.pow A (FloatOps.sub A e (mean_in A xs)) 2) xs))
    (IZR (len xs)).

Definition multi_in (A : FloatOps.t) (es : list R) : Multi.t :=
  Multi.mk (FloatOps.round A (variance_confidence (variance_in A es)) 1)
           (fold_left append_phase es [])
           (FloatOps.round A (variance_in A es) 4).

Definition multi_value (data : bytes) (chunk_size : Z) : Multi.t :=
  if (len data <? chunk_size * 4)%Z then Multi.mk 0 [] 0
  else
    let es := chunk_entropies data chunk_size in
    Multi.mk (variance_confidence (variance_of es))
             (fold_left append_phase es [])
             (round (variance_of es) 4).

Definition emitted_label (l : string) : Prop :=
  l = "zeros" \/ l = "random" \/ l = "ones_or_pattern".



(** Sample regions: one 512-byte sub-chunk of zero-fill, of one-fill, and of
    content in which each byte value occurs twice. *)
Definition zone_zero : bytes := repeat x00 512.
Definition zone_one : bytes := repeat xff 512.
Definition zone_random : bytes := all_bytes ++ all_bytes.

Definition sample_zero_zero_random : bytes :=
  zone_zero ++ zone_zero ++ zone_random ++ zone_zero.

Definition unknown_algo : Algo.t :=
  Algo.mk "unknown" "Unknown / unrecognized pattern" 0.

(** The cascade as the design states it: an ordered list of guards with
    their outcomes, tried top to bottom, the first guard that holds wins. *)
Fixpoint first_match {A : Type} (rules : list (bool * A)) (default : A) : A :=
  match rules with
  | [] => default
  | (guard, outcome) :: rest => if guard then outcome else first_match rest default
  end.

Definition rule_cascade_spec
  (entropy zero_conf one_conf : float)
  (chi : Chi.t) (multi : Multi.t) (repeating : Repeating.t)
  : list (bool * result Algo.t) :=
  let phase_set := set (Multi.phases multi) in
  let multi_conf := Multi.confidence multi in
  [ (* 1. zero *)
    (geb zero_conf 99,
     Ok (Algo.mk "simple_zero" "Zero-fill (0x00)" zero_conf));
    (* 2. one *)
    (geb one_conf 99,
     Ok (Algo.mk "simple_one" "One-fill (0xFF)" one_conf));
    (* 3. random *)
    (geb entropy 7.5 && Chi.is_random chi,
     r <- div entropy 8 ;;
     Ok (Algo.mk "random_only" "Random-fill (single pass)"
                 (round (r * 100) 1)));
    (* 4. repeating *)
    (Repeating.found repeating,
     hex16 <- match Repeating.pattern repeating with
              | Some h => Ok (substring 0 16 h)
              | None => Raise TypeError
              end ;;
     Ok (Algo.mk "alternating_pattern"
                 ("Repeating pattern (period="
                    ++ match Repeating.period repeating with
                       | Some p => str_int p
                       | None => "None"
                       end ++ ", hex=" ++ hex16 ++ ")")%string
                 (Repeating.confidence repeating)));
    (* 5a. multi-pass, zeros and random seen *)
    (geb multi_conf 70
     && (mem "zeros" phase_set && mem "random" phase_set
         && (2 <=? len phase_set)%Z),
     if mem "ones" phase_set || gtb (Multi.entropy_variance multi) 3.5
     then Ok (Algo.mk "dod_5220_7pass" "DoD 5220.22-M 7-pass / RCMP TSSIT"
                      multi_conf)
     else Ok (Algo.mk "dod_5220_3pass" "DoD 5220.22-M 3-pass" multi_conf));
    (* 5b. multi-pass, four distinct phases *)
    (geb multi_conf 70 && (4 <=? len phase_set)%Z,
     Ok (Algo.mk "gutmann_35pass" "Gutmann 35-pass (estimated)"
                 (Rmin multi_conf 70))) ].

Definition pattern_type_of (entropy zero_conf one_conf : float)
  (chi : Chi.t) (multi : Multi.t) (repeating : Repeating.t) : string :=
  if geb zero_conf 99 then "zero_fill"
  else if geb one_conf 99 then "one_fill"
  else if geb entropy 7.5 && Chi.is_random chi then "random"
  else if Repeating.found repeating then "repeating"
  else if geb (Multi.confidence multi) 50 then "multi_pass"
  else "unknown".

Definition empty_record (offset : Z) : Record_.t :=
  Record_.mk offset 0 "unknown" 0 "unknown" "Unknown / unrecognized pattern"
             0 0 false 0 0
             (Repeating.mk false None None 0) (Multi.mk 0 [] 0).

Definition is_byte (b x : Byte.byte) : Z := if Byte.eqb x b then 1%Z else 0%Z.

(** The collapse of consecutive repeats, on the labels themselves. *)
Definition append_label (phases : list string) (label : string) : list string :=
  match phases with
  | [] => phases ++ [label]
  | _ => if String.eqb (last phases EmptyString) label then phases
         else phases ++ [label]
  end.

(** A sub-chunk of four byte values, 128 times each: entropy 2. *)
Definition zone_four : bytes :=
  repeat x01 128 ++ repeat x02 128 ++ repeat x03 128 ++ repeat x04 128.

(** Two zero-fill sub-chunks, one of entropy 2, and a one-fill tail. *)
Definition sample_weak_multi : bytes :=
  zone_zero ++ zone_zero ++ zone_four ++ zone_one.

(** Ten contiguous 512-byte zones alternating among zero-fill, one-fill
    and random content. *)
Definition sample_ten_zones : bytes :=
  zone_zero ++ zone_one ++ zone_random
  ++ zone_zero ++ zone_one ++ zone_random
  ++ zone_zero ++ zone_one ++ zone_random
  ++ zone_zero.

(** No two neighbours of the list are equal. *)
Fixpoint no_adjacent_repeat (l : list string) : Prop :=
  match l with
  | a :: (b :: _) as tl => a <> b /\ no_adjacent_repeat tl
  | _ => True
  end.

(** The occurrence count of each of the 256 byte values, in the order of
    [range(256)]. *)
Definition byte_counts (data : bytes) : list Z :=
  map (fun b => count data (byte_of_int b)) (range2 0 256).

(** The region repeats its first [period] bytes: what the scan tests
    position by position. *)
Definition periodic (data : bytes) (period : Z) : Prop :=
  forall i, (period <= i < len data)%Z ->
            byte_at data i = byte_at data (i mod period).

(** ** scanner.py

    A path of the file system is modelled by what the code asks of it:
    [st_size] is the result of [os.path.getsize] ([None] when it raises
    [OSError]) and [content] the bytes that [open(path, "rb")] gives to
    read ([None] when opening or reading raises [OSError] or
    [PermissionError]). The two are independent: a file that exists but
    cannot be opened has a size, and a block device has content but size
    0. Messages printed on the console are left out. *)

Module File.
Record t : Type := mk
  { st_size : option Z;
    content : option bytes }.
End File.

(** A regular file that can be read: its size is the length of its
    content. *)
Definition regular_file (content : bytes) : File.t :=
  File.mk (Some (len content)) (Some content).

Module Scanner.

(** [fh.read(n)] on the buffered reader, with [rest] still to be read: the
    bytes returned and what is left. [n = -1] reads to the end of the
    file; a size below -1 raises [ValueError]. *)
Definition read (rest : bytes) (n : Z) : result (bytes * bytes) :=
  if (n <? -1)%Z then Raise ValueError
  else if (n <? 0)%Z then Ok (rest, [])
  else Ok (firstn (Z.to_nat n) rest, skipn (Z.to_nat n) rest).

(** The [while True] loop of [scan_file]; [fuel] bounds its turns. The
    result is the list of the pairs the generator yields; a [ValueError]
    can only come from the first read, before anything is yielded, and is
    not caught. *)
Fixpoint scan_loop (fuel : nat) (rest : bytes) (chunk_size offset : Z)
  : result (list (Z * bytes)) :=
  match fuel with
  | O => Ok []
  | S fuel' =>
      cr <- read rest chunk_size ;;
      let (chunk, rest') := cr in
      match chunk with
      | [] => Ok []
      | _ => yielded <- scan_loop fuel' rest' chunk_size (offset + len chunk) ;;
             Ok ((offset, chunk) :: yielded)
      end
  end.

(** The generator [scan_file]. The loop reads at least one byte per turn,
    so [len(content) + 1] turns are enough; a file that cannot be opened
    yields nothing. *)
Definition scan_file (file : File.t) (chunk_size : Z)
  : result (list (Z * bytes)) :=
  match File.content file with
  | None => Ok []
  | Some content => scan_loop (S (List.length content)) content chunk_size 0
  end.

(** [chunk.startswith(magic)] *)
Fixpoint startswith (chunk magic : bytes) : bool :=
  match magic, chunk with
  | [], _ => true
  | _ :: _, [] => false
  | m :: magic', c :: chunk' => Byte.eqb c m && startswith chunk' magic'
  end.

Definition _ALLOC_MAGIC : list bytes :=
  [ [x50; x4b];             (* PK *)
    [x89; x50; x4e; x47];   (* \x89PNG *)
    [xff; xd8];             (* JPEG *)
    [x4d; x5a];             (* MZ *)
    [x7f; x45; x4c; x46];   (* \x7fELF *)
    [x49; x44; x33];        (* ID3 *)
    [x1f; x8b];             (* gzip *)
    [x25; x50; x44; x46] ]. (* %PDF *)

Definition _looks_allocated (chunk : bytes) : bool :=
  existsb (startswith chunk) _ALLOC_MAGIC.

Definition scan_unallocated_image (file : File.t) (chunk_size : Z)
  : result (list (Z * bytes)) :=
  chunks <- scan_file file chunk_size ;;
  Ok (filter (fun oc => negb (_looks_allocated (snd oc))) chunks).

(** [fh.seek(pos); fh.read()] on a freshly opened file, [pos >= 0]. *)
Definition seek_read (content : bytes) (pos : Z) : bytes :=
  skipn (Z.to_nat pos) content.

(** [_file_slack_data]: the size is asked first, the file is opened last;
    [OSError] from either gives the empty result. *)
Definition _file_slack_data (file : File.t) (cluster_size : Z)
  : result bytes :=
  match File.st_size file with
  | None => Ok []
  | Some file_size =>
      if (file_size =? 0)%Z then Ok []
      else
        r <- modulo file_size cluster_size ;;
        let slack_bytes := (cluster_size - r)%Z in
        if (slack_bytes =? cluster_size)%Z then Ok []
        else
          match File.content file with
          | None => Ok []
          | Some content =>
              let data :=
                seek_read content (Z.max 0 (file_size - cluster_size)) in
              let tail := slice data (- slack_bytes) (len data) in
              Ok tail
          end
  end.

End Scanner.

(** ** detector.py *)

Module Detector.

(** The default of the global [MIN_CONFIDENCE] and of the chunk size. *)
Definition MIN_CONFIDENCE : float := 40.

(** The test that keeps a record in the results. *)
Definition reported (min_confidence : float) (r : Record_.t) : bool :=
  negb (String.eqb (Record_.pattern_type r) "unknown")
  && geb (Record_.confidence r) min_confidence.

(** [scan_image]; the size of the target is what [os.path.getsize] gives,
    0 when it raises. The progress bar and the verbose lines are output
    only. *)
Definition scan_image (file : File.t) (chunk_size : Z)
  (min_confidence : float) : result (list Record_.t) :=
  let total_size := match File.st_size file with
                    | Some size => size
                    | None => 0%Z
                    end in
  chunk_count <- (if (total_size =? 0)%Z then Ok 1%Z
                  else q <- floordiv total_size chunk_size ;; Ok (Z.max 1 q)) ;;
  chunks <- Scanner.scan_file file chunk_size ;;
  foldM (fun results oc =>
           let '(offset, chunk) := oc in
           r <- analyze_region chunk offset ;;
           if reported min_confidence r then Ok (results ++ [r])
           else Ok results)
        chunks [].

End Detector.

(** ** reporter.py *)

Module Reporter.

Module Report.
Record t : Type := mk
  { scan_timestamp : string;
    tool : string;
    target : string;
    regions_analyzed : Z;
    detections_found : Z;
    detections : list Record_.t }.
End Report.

(** The report [save_json_report] serialises; [now] is the formatted
    current time. *)
Definition json_report (results : list Record_.t) (target now : string)
  : Report.t :=
  Report.mk now "WipeDetector v1.0" target
            (len results)
            (len (filter (fun r => negb (String.eqb (Record_.pattern_type r)
                                                    "unknown")) results))
            results.

End Reporter.

(** ** generate_samples.py

    The deterministic generators of the test images. *)

Module Samples.







End Samples.


(** What [fh.read(n)] returns for [n >= -1], and the pairs the loop of
    [scan_file] yields then. *)
Definition read_value (rest : bytes) (n : Z) : bytes * bytes :=
  if (n <? 0)%Z then (rest, [])
  else (firstn (Z.to_nat n) rest, skipn (Z.to_nat n) rest).

Fixpoint scan_chunks (fuel : nat) (rest : bytes) (chunk_size offset : Z)
  : list (Z * bytes) :=
  match fuel with
  | O => []
  | S fuel' =>
      let (chunk, rest') := read_value rest chunk_size in
      match chunk with
      | [] => []
      | _ => (offset, chunk)
             :: scan_chunks fuel' rest' chunk_size (offset + len chunk)
      end
  end.

Definition file_chunks (content : bytes) (chunk_size : Z)
  : list (Z * bytes) :=
  scan_chunks (S (List.length content)) content chunk_size 0.

(** ** Facts about the Python primitives *)

Section Comparisons.

Variables x y : R.

Lemma ltb_true : ltb x y = true <-> x < y.
Proof. unfold ltb. destruct (Rlt_dec x y); split; intros; auto; discriminate. Qed.

Lemma ltb_false : ltb x y = false <-> y <= x.
Proof.
  unfold ltb. destruct (Rlt_dec x y); split; intros; auto; try discriminate; lra.
Qed.

Lemma leb_true : leb x y = true <-> x <= y.
Proof. unfold leb. destruct (Rle_dec x y); split; intros; auto; discriminate. Qed.

Lemma leb_false : leb x y = false <-> y < x.
Proof.
  unfold leb. destruct (Rle_dec x y); split; intros; auto; try discriminate; lra.
Qed.

End Comparisons.

Lemma gtb_true x y : gtb x y = true <-> y < x.
Proof. apply ltb_true. Qed.

Lemma gtb_false x y : gtb x y = false <-> x <= y.
Proof. apply ltb_false. Qed.

Lemma geb_true x y : geb x y = true <-> y <= x.
Proof. apply leb_true. Qed.

Lemma geb_false x y : geb x y = false <-> x < y.
Proof. apply leb_false. Qed.

(** Case analysis on every float comparison in sight. *)
Ltac float_case c :=
  let H := fresh "Hcmp" in
  destruct c eqn:H;
  [ first [ apply ltb_true in H | apply leb_true in H
          | apply gtb_true in H | apply geb_true in H ]
  | first [ apply ltb_false in H | apply leb_false in H
          | apply gtb_false in H | apply geb_false in H ] ].

Ltac float_cases :=
  repeat match goal with
    | |- context [ltb ?a ?b] => float_case (ltb a b)
    | |- context [leb ?a ?b] => float_case (leb a b)
    | |- context [gtb ?a ?b] => float_case (gtb a b)
    | |- context [geb ?a ?b] => float_case (geb a b)
    end.

Lemma div_ok x y : y <> 0 -> div x y = Ok (x / y).
Proof. intros H. unfold div. destruct (Req_dec_T y 0); [contradiction | reflexivity]. Qed.

Lemma log2_ok x : 0 < x -> log2 x = Ok (ln x / ln 2).
Proof. intros H. unfold log2. destruct (Rlt_dec 0 x); [reflexivity | contradiction]. Qed.

Lemma mapM_ok {A B : Type} (f : A -> result B) (g : A -> B) (l : list A) :
  (forall x, In x l -> f x = Ok (g x)) -> mapM f l = Ok (map g l).
Proof.
  induction l as [| a l IH]; intros H; simpl.
  - reflexivity.
  - rewrite (H a (or_introl eq_refl)). simpl.
    rewrite IH by (intros; apply H; now right). reflexivity.
Qed.

Lemma mapM_length {A B : Type} (f : A -> result B) (l : list A) (ys : list B) :
  mapM f l = Ok ys -> List.length ys = List.length l.
Proof.
  revert ys. induction l as [| a l IH]; intros ys; simpl.
  - intros [= <-]. reflexivity.
  - destruct (f a); simpl; [| discriminate].
    destruct (mapM f l); simpl; [| discriminate].
    intros [= <-]. simpl. f_equal. now apply IH.
Qed.

Lemma mapM_Forall2 {A B : Type} (f : A -> result B) (l : list A) (ys : list B) :
  mapM f l = Ok ys -> Forall2 (fun x y => f x = Ok y) l ys.
Proof.
  revert ys. induction l as [| a l IH]; intros ys; simpl.
  - intros [= <-]. constructor.
  - destruct (f a) eqn:Ha; simpl; [| discriminate].
    destruct (mapM f l); simpl; [| discriminate].
    intros [= <-]. constructor; auto.
Qed.

(** [sum] as a right fold. *)
Lemma fold_left_Rplus_acc (xs : list R) (a : R) :
  fold_left Rplus xs a = a + fold_left Rplus xs 0.
Proof.
  revert a. induction xs as [| x xs IH]; intros a; simpl.
  - lra.
  - rewrite (IH (a + x)), (IH (0 + x)). lra.
Qed.

Lemma sum_nil : sum [] = 0.
Proof. reflexivity. Qed.

Lemma sum_cons x xs : sum (x :: xs) = x + sum xs.
Proof. unfold sum. simpl. rewrite fold_left_Rplus_acc. lra. Qed.

Lemma sum_app xs ys : sum (xs ++ ys) = sum xs + sum ys.
Proof.
  induction xs as [| x xs IH]; simpl.
  - rewrite sum_nil. lra.
  - rewrite !sum_cons, IH. lra.
Qed.

Lemma sum_nonneg xs : Forall (fun x => 0 <= x) xs -> 0 <= sum xs.
Proof.
  induction 1 as [| x xs Hx _ IH].
  - rewrite sum_nil. lra.
  - rewrite sum_cons. lra.
Qed.

Lemma sum_ge_term xs x :
  Forall (fun y => 0 <= y) xs -> In x xs -> x <= sum xs.
Proof.
  induction 1 as [| y ys Hy Hys IH]; intros Hin.
  - destruct Hin.
  - rewrite sum_cons. pose proof (sum_nonneg Hys).
    destruct Hin as [-> | Hin]; [lra | specialize (IH Hin); lra].
Qed.

Lemma sum_map_const {A : Type} (l : list A) (c : R) :
  sum (map (fun _ => c) l) = INR (List.length l) * c.
Proof.
  induction l as [| a l IH].
  - simpl. rewrite sum_nil. lra.
  - cbn [map List.length]. rewrite sum_cons, IH, S_INR. lra.
Qed.

(** *** Rounding *)

Lemma round_half_even_IZR (z : Z) : round_half_even (IZR z) = z.
Proof.
  unfold round_half_even. rewrite ZfloorZ.
  destruct (Rlt_dec (IZR z - IZR z) (1 / 2)); [reflexivity | exfalso; lra].
Qed.

Lemma round_half_even_near (x : R) :
  IZR (round_half_even x) - 1 / 2 <= x <= IZR (round_half_even x) + 1 / 2.
Proof.
  unfold round_half_even. pose proof (Zfloor_bound x) as Hb.
  destruct (Rlt_dec _ _); [lra |].
  destruct (Rlt_dec _ _); [rewrite plus_IZR; lra |].
  destruct (Z.even _); [lra | rewrite plus_IZR; lra].
Qed.

Lemma round_half_even_le (x y : R) :
  x <= y -> (round_half_even x <= round_half_even y)%Z.
Proof.
  intros Hxy. pose proof (Zfloor_le _ _ Hxy) as Hf.
  pose proof (Zfloor_bound x) as Hx. pose proof (Zfloor_bound y) as Hy.
  assert (Hcases : (Zfloor x < Zfloor y)%Z \/ Zfloor x = Zfloor y) by lia.
  assert (Hlo : forall t, (Zfloor t <= round_half_even t <= Zfloor t + 1)%Z).
  { intros t. unfold round_half_even.
    repeat destruct (Rlt_dec _ _); try destruct (Z.even _); lia. }
  destruct Hcases as [Hlt | Heq].
  - pose proof (Hlo x). pose proof (Hlo y). lia.
  - unfold round_half_even. rewrite <- Heq in *.
    repeat match goal with
      | |- context [Rlt_dec ?a ?b] => destruct (Rlt_dec a b)
      end; try lia; try (exfalso; lra); destruct (Z.even _); lia.
Qed.

Lemma pow10_pos (n : nat) : 0 < 10 ^ n.
Proof. apply pow_lt. lra. Qed.

Lemma round_exact (z : Z) (n : nat) (x : R) :
  x * 10 ^ n = IZR z -> round x n = x.
Proof.
  intros H. unfold round. rewrite H, round_half_even_IZR, <- H.
  pose proof (pow10_pos n). field. lra.
Qed.

Lemma round_le (x y : R) (n : nat) : x <= y -> round x n <= round y n.
Proof.
  intros H. unfold round. pose proof (pow10_pos n) as Hp.
  apply Rmult_le_compat_r; [left; now apply Rinv_0_lt_compat |].
  apply IZR_le, round_half_even_le.
  apply Rmult_le_compat_r; lra.
Qed.

Lemma round_IZR (z : Z) (n : nat) : round (IZR z) n = IZR z.
Proof.
  apply round_exact with (z := (z * 10 ^ Z.of_nat n)%Z).
  rewrite mult_IZR. f_equal. rewrite <- pow_IZR. reflexivity.
Qed.

(** *** The Counter *)

Lemma count_nil b : count [] b = 0%Z.
Proof. reflexivity. Qed.

Lemma count_cons a data b :
  count (a :: data) b = ((if Byte.eqb b a then 1 else 0) + count data b)%Z.
Proof.
  unfold count, len. simpl. destruct (Byte.eqb b a); simpl List.length; lia.
Qed.

Lemma count_nonneg data b : (0 <= count data b)%Z.
Proof. unfold count, len. lia. Qed.

Lemma count_le_len data b : (count data b <= len data)%Z.
Proof.
  unfold count, len. pose proof (filter_length_le (Byte.eqb b) data). lia.
Qed.

Lemma count_pos_In data b : In b data -> (0 < count data b)%Z.
Proof.
  induction data as [| a data IH]; intros Hin; [destruct Hin |].
  rewrite count_cons. pose proof (count_nonneg data b).
  destruct Hin as [-> | Hin].
  - rewrite (Byte.byte_dec_lb eq_refl). lia.
  - specialize (IH Hin). destruct (Byte.eqb b a); lia.
Qed.

Lemma byte_eqb_refl b : Byte.eqb b b = true.
Proof. now apply Byte.byte_dec_lb. Qed.

Lemma byte_eqb_sym a b : Byte.eqb a b = Byte.eqb b a.
Proof.
  destruct (Byte.eqb a b) eqn:E.
  - apply Byte.byte_dec_bl in E. subst. symmetry. apply byte_eqb_refl.
  - destruct (Byte.eqb b a) eqn:E'; [| reflexivity].
    apply Byte.byte_dec_bl in E'. subst. now rewrite byte_eqb_refl in E.
Qed.

Lemma get_counter_add m b k :
  get (counter_add m b) k 0 = (get m k 0 + (if Byte.eqb k b then 1 else 0))%Z.
Proof.
  induction m as [| [k' c] m IH]; simpl.
  - rewrite (byte_eqb_sym b k). destruct (Byte.eqb k b); lia.
  - destruct (Byte.eqb k' b) eqn:E; simpl.
    + apply Byte.byte_dec_bl in E. subst k'.
      rewrite (byte_eqb_sym b k). destruct (Byte.eqb k b); lia.
    + destruct (Byte.eqb k' k) eqn:E'; [| exact IH].
      apply Byte.byte_dec_bl in E'. subst k'. rewrite E. lia.
Qed.

Lemma get_fold_counter_add data m k :
  get (fold_left counter_add data m) k 0 = (get m k 0 + count data k)%Z.
Proof.
  revert m. induction data as [| a data IH]; intros m; simpl.
  - rewrite count_nil. lia.
  - rewrite IH, get_counter_add, count_cons. lia.
Qed.

Lemma get_Counter data k : get (Counter data) k 0 = count data k.
Proof. unfold Counter. rewrite get_fold_counter_add. reflexivity. Qed.

Lemma counter_add_keys m b k :
  In k (map fst (counter_add m b)) <-> k = b \/ In k (map fst m).
Proof.
  induction m as [| [k' c] m IH]; simpl.
  - intuition.
  - destruct (Byte.eqb k' b) eqn:E; simpl.
    + apply Byte.byte_dec_bl in E. subst. intuition.
    + rewrite IH. intuition.
Qed.

Lemma counter_add_wf m b : counter_wf m -> counter_wf (counter_add m b).
Proof.
  unfold counter_wf. induction m as [| [k c] m IH]; simpl; intros [Hnd Hpos].
  - split; repeat constructor; simpl; auto; lia.
  - inversion Hnd as [| ? ? Hnotin Hnd']; subst.
    inversion Hpos as [| ? ? Hc Hpos']; subst. simpl in Hc.
    destruct (Byte.eqb k b) eqn:E; simpl.
    + split; constructor; auto. simpl. lia.
    + destruct (IH (conj Hnd' Hpos')) as [IH1 IH2].
      split; constructor; auto.
      rewrite counter_add_keys. intros [-> | Hin]; [| contradiction].
      now rewrite byte_eqb_refl in E.
Qed.

Lemma Counter_wf data : counter_wf (Counter data).
Proof.
  unfold Counter.
  assert (H : forall m, counter_wf m -> counter_wf (fold_left counter_add data m)).
  { induction data as [| a data IH]; intros m Hm; simpl; auto.
    apply IH, counter_add_wf, Hm. }
  apply H. split; constructor.
Qed.

Lemma values_counter_add_sum m b :
  Zsum (values (counter_add m b)) = (Zsum (values m) + 1)%Z.
Proof.
  unfold values. induction m as [| [k c] m IH]; simpl.
  - reflexivity.
  - destruct (Byte.eqb k b); simpl; lia.
Qed.

Lemma values_Counter_sum data : Zsum (values (Counter data)) = len data.
Proof.
  unfold Counter.
  assert (H : forall m, Zsum (values (fold_left counter_add data m))
                        = (Zsum (values m) + len data)%Z).
  { induction data as [| a data IH]; intros m; simpl.
    - unfold len. simpl. lia.
    - rewrite IH, values_counter_add_sum. unfold len. simpl List.length. lia. }
  rewrite H. reflexivity.
Qed.

Lemma In_get m k c : NoDup (map fst m) -> In (k, c) m -> get m k 0 = c.
Proof.
  induction m as [| [k' c'] m IH]; simpl; intros Hnd Hin; [destruct Hin |].
  inversion Hnd as [| ? ? Hnotin Hnd']; subst.
  destruct Hin as [[= -> ->] | Hin].
  - now rewrite byte_eqb_refl.
  - destruct (Byte.eqb k' k) eqn:E; [| now apply IH].
    apply Byte.byte_dec_bl in E. subst. exfalso. apply Hnotin.
    change k with (fst (k, c)). now apply in_map.
Qed.

Lemma Counter_entry data k c : In (k, c) (Counter data) -> c = count data k.
Proof.
  intros Hin. rewrite <- get_Counter. symmetry.
  apply In_get; [apply Counter_wf | exact Hin].
Qed.

Lemma Counter_values_pos data c : In c (values (Counter data)) -> (1 <= c)%Z.
Proof.
  unfold values. rewrite in_map_iff. intros [[k c'] [<- Hin]].
  destruct (Counter_wf data) as [_ Hpos].
  rewrite Forall_forall in Hpos. exact (Hpos _ Hin).
Qed.

Lemma In_all_bytes b : In b all_bytes.
Proof.
  unfold all_bytes. apply in_map_iff. exists (Z.of_N (Byte.to_N b)). split.
  - unfold byte_of_int. rewrite N2Z.id, Byte.of_to_N. reflexivity.
  - pose proof (Byte.to_N_bounded b) as Hb. unfold range2.
    apply in_map_iff. exists (N.to_nat (Byte.to_N b)). split.
    + lia.
    + apply in_seq. simpl. lia.
Qed.

Lemma NoDup_bytes_length (l : list Byte.byte) :
  NoDup l -> (List.length l <= 256)%nat.
Proof.
  intros Hnd.
  change 256%nat with (List.length all_bytes).
  apply NoDup_incl_length; [exact Hnd |].
  intros b _. apply In_all_bytes.
Qed.

Lemma Counter_size data : (List.length (values (Counter data)) <= 256)%nat.
Proof.
  unfold values. rewrite length_map, <- (length_map fst).
  apply NoDup_bytes_length, Counter_wf.
Qed.

(** ** Shannon entropy *)

Lemma ln2_pos : 0 < ln 2.
Proof. pose proof ln_lt_2. lra. Qed.

Lemma ln_le_sub1 x : 0 < x -> ln x <= x - 1.
Proof.
  intros Hx. pose proof (exp_ineq1_le (ln x)) as H.
  rewrite exp_ln in H by assumption. lra.
Qed.

Lemma ln_mono x y : 0 < x -> x <= y -> ln x <= ln y.
Proof.
  intros Hx [Hlt | ->]; [| lra]. left. now apply ln_increasing.
Qed.

Lemma len_pos_cons {A : Type} (a : A) (l : list A) : (0 < len (a :: l))%Z.
Proof. unfold len. simpl List.length. lia. Qed.

Lemma len_nonneg {A : Type} (l : list A) : (0 <= len l)%Z.
Proof. unfold len. lia. Qed.

Lemma calculate_entropy_eq (data : bytes) :
  data <> [] -> calculate_entropy data = Ok (round (shannon data) 4).
Proof.
  intros Hne. destruct data as [| a data]; [contradiction |].
  unfold calculate_entropy, shannon.
  set (d := a :: data). set (L := len d).
  assert (HL : (0 < L)%Z) by apply len_pos_cons.
  assert (HLR : IZR L <> 0) by (apply not_0_IZR; lia).
  rewrite (mapM_ok _ (entropy_term L)); [reflexivity |].
  intros c Hc. apply Counter_values_pos in Hc.
  rewrite !div_ok by assumption. cbn [bind].
  rewrite log2_ok; [reflexivity |].
  apply Rdiv_lt_0_compat; apply IZR_lt; lia.
Qed.

Lemma calculate_entropy_total (data : bytes) :
  exists e, calculate_entropy data = Ok e.
Proof.
  destruct data as [| a data].
  - exists 0. reflexivity.
  - eexists. now apply calculate_entropy_eq.
Qed.

(** *** The bounds 0 <= H <= log2 k <= 8 *)

Lemma sum_map_le {A : Type} (f g : A -> R) (l : list A) :
  (forall x, In x l -> f x <= g x) -> sum (map f l) <= sum (map g l).
Proof.
  induction l as [| a l IH]; intros H; simpl.
  - lra.
  - rewrite !sum_cons.
    assert (f a <= g a) by (apply H; now left).
    assert (sum (map f l) <= sum (map g l)) by (apply IH; intros; apply H; now right).
    lra.
Qed.

Lemma sum_map_affine (a b : R) (cs : list Z) :
  sum (map (fun c => a * IZR c + b) cs)
  = a * IZR (Zsum cs) + b * INR (List.length cs).
Proof.
  induction cs as [| c cs IH].
  - simpl. rewrite sum_nil. lra.
  - cbn [map Zsum fold_right List.length].
    rewrite sum_cons, IH, plus_IZR, S_INR. fold (Zsum cs). lra.
Qed.

Lemma Zsum_ge_each (cs : list Z) c :
  Forall (fun x => (1 <= x)%Z) cs -> In c cs -> (c <= Zsum cs)%Z.
Proof.
  induction 1 as [| x xs Hx Hxs IH]; intros Hin; [destruct Hin |].
  simpl.
  assert (0 <= Zsum xs)%Z.
  { clear -Hxs. induction Hxs; simpl; lia. }
  destruct Hin as [-> | Hin]; [lia | specialize (IH Hin); lia].
Qed.

(** One term of the entropy against the tangent of [ln]: the heart of the
    bound [H <= log2 k]. *)
Lemma entropy_term_bound (p k : R) :
  0 < p -> 0 < k -> - (p * ln p) <= p * ln k + / k - p.
Proof.
  intros Hp Hk.
  assert (Hkp : 0 < / (k * p)) by (apply Rinv_0_lt_compat, Rmult_lt_0_compat; lra).
  pose proof (ln_le_sub1 Hkp) as H.
  rewrite ln_Rinv in H by (apply Rmult_lt_0_compat; lra).
  rewrite ln_mult in H by lra.
  assert (Hmul : p * (- (ln k + ln p)) <= p * (/ (k * p) - 1))
    by (apply Rmult_le_compat_l; lra).
  replace (p * (/ (k * p) - 1)) with (/ k - p) in Hmul by (field; lra).
  lra.
Qed.

Section EntropyBounds.

Variable L : Z.
Variable cs : list Z.
Hypothesis cs_pos : Forall (fun c => (1 <= c)%Z) cs.
Hypothesis cs_sum : Zsum cs = L.
Hypothesis cs_nonempty : cs <> [].

Let k : R := INR (List.length cs).

Lemma counts_L_pos : (0 < L)%Z.
Proof.
  destruct cs as [| c cs']; [contradiction |].
  pose proof (@Zsum_ge_each _ c cs_pos (or_introl eq_refl)) as H.
  inversion cs_pos; subst. lia.
Qed.

Lemma counts_k_pos : 0 < k.
Proof.
  unfold k. destruct cs; [contradiction |].
  apply lt_0_INR. simpl. lia.
Qed.

Lemma entropy_sum_nonneg : 0 <= - sum (map (entropy_term L) cs).
Proof.
  pose proof counts_L_pos as HL.
  assert (H : sum (map (entropy_term L) cs) <= sum (map (fun _ => 0) cs)).
  { apply sum_map_le. intros c Hc.
    assert (H1 : (1 <= c)%Z) by (rewrite Forall_forall in cs_pos; auto).
    assert (H2 : (c <= L)%Z) by (rewrite <- cs_sum; now apply Zsum_ge_each).
    unfold entropy_term, log2R.
    assert (Hp : 0 < IZR c / IZR L)
      by (apply Rdiv_lt_0_compat; apply IZR_lt; lia).
    assert (Hp1 : IZR c / IZR L <= 1).
    { apply Rmult_le_reg_r with (IZR L); [apply IZR_lt; lia |].
      unfold Rdiv. rewrite Rmult_assoc, Rinv_l by (apply not_0_IZR; lia).
      rewrite Rmult_1_r, Rmult_1_l. apply IZR_le. lia. }
    pose proof (ln_le_sub1 Hp) as Hln. pose proof ln2_pos as H2p.
    assert (Hq : ln (IZR c / IZR L) / ln 2 <= 0).
    { apply Rmult_le_reg_r with (ln 2); [assumption |].
      unfold Rdiv. rewrite Rmult_assoc, Rinv_l by lra. lra. }
    replace 0 with (IZR c / IZR L * 0) by ring.
    apply Rmult_le_compat_l; lra. }
  rewrite sum_map_const in H. lra.
Qed.

Lemma entropy_sum_le_log2 : - sum (map (entropy_term L) cs) <= log2R k.
Proof.
  pose proof counts_L_pos as HL. pose proof counts_k_pos as Hk.
  pose proof ln2_pos as H2.
  assert (HLR : 0 < IZR L) by (apply IZR_lt; lia).
  (* work with natural logarithms, termwise *)
  assert (Hterm : forall c, In c cs ->
            - (ln k / IZR L - / IZR L) * IZR c + - / k
            <= IZR c / IZR L * ln (IZR c / IZR L)).
  { intros c Hc.
    assert (H1 : (1 <= c)%Z) by (rewrite Forall_forall in cs_pos; auto).
    assert (Hp : 0 < IZR c / IZR L)
      by (apply Rdiv_lt_0_compat; [apply IZR_lt; lia | assumption]).
    pose proof (entropy_term_bound Hp Hk) as Hb.
    replace (- (ln k / IZR L - / IZR L) * IZR c + - / k)
      with (- (IZR c / IZR L * ln k + / k - IZR c / IZR L))
      by (field; lra).
    lra. }
  pose proof (sum_map_le _ _ _ Hterm) as Hsum.
  rewrite sum_map_affine, cs_sum in Hsum. fold k in Hsum.
  replace (- (ln k / IZR L - / IZR L) * IZR L + - / k * k)
    with (- ln k) in Hsum by (field; lra).
  (* back to base 2 *)
  assert (Heq : sum (map (entropy_term L) cs)
                = sum (map (fun c => IZR c / IZR L * ln (IZR c / IZR L)) cs)
                  / ln 2).
  { clear. induction cs as [| c l IH]; simpl.
    - rewrite sum_nil. unfold Rdiv. ring.
    - rewrite !sum_cons, IH. unfold entropy_term, log2R, Rdiv. ring. }
  rewrite Heq. unfold log2R.
  apply Rmult_le_reg_r with (ln 2); [assumption |].
  unfold Rdiv. rewrite Ropp_mult_distr_l, !Rmult_assoc, Rinv_l by lra.
  lra.
Qed.

End EntropyBounds.

Lemma log2R_256 : log2R 256 = 8.
Proof.
  unfold log2R. replace 256 with (2 ^ 8) by lra.
  rewrite ln_pow by lra. pose proof ln2_pos. simpl INR. field. lra.
Qed.

Lemma shannon_bounds (data : bytes) : data <> [] -> 0 <= shannon data <= 8.
Proof.
  intros Hne. unfold shannon.
  assert (Hpos : Forall (fun c => (1 <= c)%Z) (values (Counter data))).
  { apply Forall_forall. intros c. apply Counter_values_pos. }
  assert (Hsum : Zsum (values (Counter data)) = len data)
    by apply values_Counter_sum.
  assert (Hcs : values (Counter data) <> []).
  { intros E. rewrite E in Hsum. simpl in Hsum.
    destruct data; [contradiction |]. pose proof (len_pos_cons b data). lia. }
  split.
  - now apply entropy_sum_nonneg.
  - eapply Rle_trans; [now apply entropy_sum_le_log2 |].
    rewrite <- log2R_256. unfold log2R.
    apply Rmult_le_compat_r; [left; apply Rinv_0_lt_compat, ln2_pos |].
    apply ln_mono.
    + eapply counts_k_pos; eassumption.
    + pose proof (Counter_size data) as Hk. apply le_INR in Hk.
      rewrite (INR_IZR_INZ 256) in Hk. simpl in Hk. exact Hk.
Qed.

Lemma calculate_entropy_range (data : bytes) :
  exists e, calculate_entropy data = Ok e /\ 0 <= e <= 8.
Proof.
  destruct data as [| a data].
  - exists 0. split; [reflexivity | lra].
  - exists (round (shannon (a :: data)) 4). split.
    + now apply calculate_entropy_eq.
    + assert (Hne : a :: data <> []) by discriminate.
      destruct (shannon_bounds Hne) as [Hlo Hhi].
      pose proof (round_le 4 Hlo) as Hlo'. pose proof (round_le 4 Hhi) as Hhi'.
      rewrite (round_IZR 0) in Hlo'. rewrite (round_IZR 8) in Hhi'.
      split; assumption.
Qed.

(** *** One repeated value *)

Lemma fold_counter_add_same (data : bytes) (b : Byte.byte) (c : Z) :
  Forall (eq b) data ->
  fold_left counter_add data [(b, c)] = [(b, (c + len data)%Z)].
Proof.
  intros H. revert c. induction H as [| a data <- _ IH]; intros c; simpl.
  - unfold len. simpl. now rewrite Z.add_0_r.
  - rewrite byte_eqb_refl, IH. unfold len. simpl List.length.
    do 2 f_equal. lia.
Qed.

Lemma shannon_constant (b : Byte.byte) (data : bytes) :
  data <> [] -> Forall (eq b) data -> shannon data = 0.
Proof.
  intros Hne Hall. destruct data as [| a data]; [contradiction |].
  inversion Hall as [| ? ? Heq Hall' [E1 E2]]. subst a. clear Hall.
  unfold shannon, Counter. cbn [fold_left counter_add].
  rewrite fold_counter_add_same by assumption.
  cbn [values map snd]. rewrite sum_cons, sum_nil.
  replace (1 + len data)%Z with (len (b :: data))
    by (unfold len; simpl List.length; lia).
  unfold entropy_term, log2R.
  assert (HL : IZR (len (b :: data)) <> 0).
  { apply not_0_IZR. pose proof (len_pos_cons b data). lia. }
  replace (IZR (len (b :: data)) / IZR (len (b :: data))) with 1
    by (field; assumption).
  rewrite ln_1. unfold Rdiv. ring.
Qed.

(** *** Every byte value exactly once *)

Lemma counter_add_fresh (m : list (Byte.byte * Z)) (b : Byte.byte) :
  ~ In b (map fst m) -> counter_add m b = m ++ [(b, 1%Z)].
Proof.
  induction m as [| [k c] m IH]; simpl; intros Hnotin.
  - reflexivity.
  - destruct (Byte.eqb k b) eqn:E.
    + apply Byte.byte_dec_bl in E. subst. exfalso. apply Hnotin. now left.
    + rewrite IH; [reflexivity |]. intros Hin. apply Hnotin. now right.
Qed.

Lemma fold_counter_add_distinct (data : bytes) (m : list (Byte.byte * Z)) :
  NoDup data ->
  (forall b, In b data -> ~ In b (map fst m)) ->
  fold_left counter_add data m = m ++ map (fun b => (b, 1%Z)) data.
Proof.
  intros Hnd. revert m. induction Hnd as [| a data Hnotin Hnd IH]; intros m Hm.
  - simpl. now rewrite app_nil_r.
  - simpl. rewrite counter_add_fresh by (apply Hm; now left).
    rewrite IH.
    + rewrite <- app_assoc. reflexivity.
    + intros b Hb. rewrite map_app, in_app_iff. simpl.
      intros [Hin | [<- | []]].
      * apply (Hm b); [now right | exact Hin].
      * contradiction.
Qed.

Lemma count_le_1_NoDup (data : bytes) :
  (forall b, (count data b <= 1)%Z) -> NoDup data.
Proof.
  induction data as [| a data IH]; intros H; constructor.
  - intros Hin. apply count_pos_In in Hin.
    specialize (H a). rewrite count_cons, byte_eqb_refl in H. lia.
  - apply IH. intros b. specialize (H b). rewrite count_cons in H.
    destruct (Byte.eqb b a); lia.
Qed.

Lemma log2R_inv_256 : log2R (1 / 256) = -8.
Proof.
  unfold log2R. replace (1 / 256) with (/ 2 ^ 8) by lra.
  rewrite ln_Rinv by lra. rewrite ln_pow by lra.
  pose proof ln2_pos. simpl INR. field. lra.
Qed.

Lemma shannon_all_distinct (data : bytes) :
  len data = 256%Z -> (forall b, count data b = 1%Z) -> shannon data = 8.
Proof.
  intros Hlen Hcount.
  assert (Hnd : NoDup data).
  { apply count_le_1_NoDup. intros b. rewrite Hcount. lia. }
  unfold shannon, Counter.
  rewrite fold_counter_add_distinct by (auto; intros ? ? []).
  cbn [app]. unfold values. rewrite !map_map. cbn [snd].
  rewrite sum_map_const, Hlen.
  unfold entropy_term. rewrite log2R_inv_256.
  rewrite INR_IZR_INZ. fold (len data). rewrite Hlen. lra.
Qed.

(** ** Entropy: range and extreme values *)

(** C8. [calculate_entropy] returns a value in [0, 8] on every byte
    sequence; it returns 0.0 on the empty input and on every non-empty input
    made of one repeated byte value, and 8.0 on a 256-byte input that holds
    each byte value exactly once. *)
Theorem calculate_entropy_range_and_extremes :
  (forall data : bytes,
      exists e, calculate_entropy data = Ok e /\ 0 <= e <= 8)
  /\ calculate_entropy [] = Ok 0
  /\ (forall (b : Byte.byte) (data : bytes),
         data <> [] -> Forall (eq b) data -> calculate_entropy data = Ok 0)
  /\ (forall data : bytes,
         len data = 256%Z -> (forall b, count data b = 1%Z) ->
         calculate_entropy data = Ok 8).
Proof.
  split; [exact calculate_entropy_range |].
  split; [reflexivity |].
  split.
  - intros b data Hne Hall.
    rewrite calculate_entropy_eq by assumption.
    rewrite (shannon_constant Hne Hall). f_equal. apply (round_IZR 0).
  - intros data Hlen Hcount.
    assert (Hne : data <> []) by (intros ->; discriminate).
    rewrite calculate_entropy_eq by assumption.
    rewrite (shannon_all_distinct data Hlen Hcount). f_equal. apply (round_IZR 8).
Qed.

Lemma count_all_bytes (b : Byte.byte) : count all_bytes b = 1%Z.
Proof. destruct b; vm_compute; reflexivity. Qed.

Lemma calculate_entropy_range_and_extremes_witness :
  (exists e, calculate_entropy [x68; x61; x68; x61; x2d] = Ok e /\ 0 <= e <= 8)
  /\ calculate_entropy (repeat xff 4) = Ok 0
  /\ calculate_entropy all_bytes = Ok 8.
Proof.
  destruct calculate_entropy_range_and_extremes as [Hrange [_ [Hconst Hall]]].
  split; [apply Hrange |]. split.
  - apply (Hconst xff); [discriminate | repeat constructor].
  - apply Hall; [reflexivity | exact count_all_bytes].
Defined.

(** ** The detectors as total functions

    Each detector guards its partial operations; on every input it returns
    [Ok] of the value given here. *)

Lemma calculate_entropy_value (data : bytes) :
  calculate_entropy data = Ok (entropy_value data).
Proof.
  destruct data as [| a data]; [reflexivity |].
  now apply calculate_entropy_eq.
Qed.

Lemma entropy_value_range (data : bytes) : 0 <= entropy_value data <= 8.
Proof.
  destruct (calculate_entropy_range data) as [e [He Hr]].
  rewrite calculate_entropy_value in He. now injection He as ->.
Qed.

(** *** Chi-square *)

Lemma chi_square_test_value (data : bytes) :
  chi_square_test data = Ok (chi_value data).
Proof.
  unfold chi_square_test, chi_value.
  destruct (len data <? 256)%Z eqn:E; [reflexivity |].
  apply Z.ltb_ge in E.
  rewrite div_ok by lra. cbn [bind].
  rewrite (mapM_ok _ (chi2_term data)).
  - reflexivity.
  - intros b _. rewrite get_Counter. apply div_ok.
    assert (256 <= IZR (len data)) by (apply IZR_le in E; exact E). lra.
Qed.

(** *** Zero-fill and one-fill *)

Lemma detect_zero_pattern_value (data : bytes) :
  detect_zero_pattern data = Ok (fill_value data x00).
Proof.
  destruct data as [| a data]; [reflexivity |].
  unfold detect_zero_pattern, fill_value.
  rewrite div_ok; [reflexivity |].
  apply not_0_IZR. pose proof (len_pos_cons a data). lia.
Qed.

Lemma detect_one_pattern_value (data : bytes) :
  detect_one_pattern data = Ok (fill_value data xff).
Proof.
  destruct data as [| a data]; [reflexivity |].
  unfold detect_one_pattern, fill_value.
  rewrite div_ok; [reflexivity |].
  apply not_0_IZR. pose proof (len_pos_cons a data). lia.
Qed.

Lemma fill_value_range (data : bytes) (b : Byte.byte) :
  0 <= fill_value data b <= 100.
Proof.
  destruct data as [| a data]; [simpl; lra |].
  unfold fill_value. set (d := a :: data).
  assert (HL : 0 < IZR (len d)) by (apply IZR_lt, len_pos_cons).
  assert (H0 : 0 <= IZR (count d b)) by (apply IZR_le, count_nonneg).
  assert (H1 : IZR (count d b) <= IZR (len d)) by (apply IZR_le, count_le_len).
  assert (Hq : 0 <= IZR (count d b) / IZR (len d) <= 1).
  { split.
    - apply Rmult_le_pos; [assumption | left; now apply Rinv_0_lt_compat].
    - apply Rmult_le_reg_r with (IZR (len d)); [assumption |].
      unfold Rdiv. rewrite Rmult_assoc, Rinv_l by lra. lra. }
  assert (Hlo : 0 <= IZR (count d b) / IZR (len d) * 100) by lra.
  assert (Hhi : IZR (count d b) / IZR (len d) * 100 <= 100) by lra.
  apply (round_le 2) in Hlo. apply (round_le 2) in Hhi.
  rewrite (round_IZR 0) in Hlo. rewrite (round_IZR 100) in Hhi.
  split; assumption.
Qed.

(** *** Repeating pattern *)

Lemma In_range2 (a b i : Z) : In i (range2 a b) <-> (a <= i < b)%Z.
Proof.
  unfold range2. rewrite in_map_iff. split.
  - intros [k [<- Hk]]. apply in_seq in Hk. lia.
  - intros H. exists (Z.to_nat (i - a)). split; [lia |].
    apply in_seq. lia.
Qed.

Lemma getitem_ok (data : bytes) (i : Z) :
  (0 <= i < len data)%Z -> getitem data i = Ok (byte_at data i).
Proof.
  intros Hi. unfold getitem, byte_at.
  destruct (i <? 0)%Z eqn:E; [apply Z.ltb_lt in E; lia |]. rewrite E.
  destruct (nth_error data (Z.to_nat i)) eqn:En.
  - now rewrite (nth_error_nth _ _ _ En).
  - apply nth_error_None in En. unfold len in Hi. lia.
Qed.

Lemma period_matches_value (data : bytes) (p : Z) :
  (1 <= p)%Z -> period_matches data p = Ok (matches_count data p).
Proof.
  intros Hp. unfold period_matches, matches_count.
  rewrite (mapM_ok _ (position_matches data p)); [reflexivity |].
  intros i Hi. apply In_range2 in Hi.
  pose proof (Z.mod_pos_bound i p ltac:(lia)) as Hm.
  rewrite getitem_ok by lia. cbn [bind].
  unfold modulo. destruct (p =? 0)%Z eqn:E; [apply Z.eqb_eq in E; lia |].
  cbn [bind]. rewrite getitem_ok by lia. reflexivity.
Qed.

Lemma period_step_value (data : bytes) (st : option Z * R) (p : Z) :
  (1 <= p)%Z -> data <> [] ->
  period_step data st p = Ok (best_step data st p).
Proof.
  intros Hp Hne. destruct st as [bp bs]. unfold period_step, best_step.
  rewrite period_matches_value by assumption. cbn [bind].
  rewrite div_ok.
  - fold (score data p). cbn [bind snd]. destruct (gtb _ _); reflexivity.
  - apply not_0_IZR. destruct data; [contradiction |].
    pose proof (len_pos_cons b data). lia.
Qed.

Lemma foldM_ok {S A : Type} (f : S -> A -> result S) (g : S -> A -> S)
  (l : list A) (s : S) :
  (forall s' x, In x l -> f s' x = Ok (g s' x)) ->
  foldM f l s = Ok (fold_left g l s).
Proof.
  revert s. induction l as [| a l IH]; intros s H; simpl.
  - reflexivity.
  - rewrite H by now left. cbn [bind]. apply IH.
    intros; apply H; now right.
Qed.

Lemma detect_repeating_pattern_value (data : bytes) :
  detect_repeating_pattern data = Ok (repeating_value data).
Proof.
  unfold detect_repeating_pattern, repeating_value.
  destruct (len data <? 128)%Z eqn:E; [reflexivity |].
  apply Z.ltb_ge in E.
  assert (Hne : data <> []) by (intros ->; unfold len in E; simpl in E; lia).
  unfold floordiv. cbn [Z.eqb bind].
  rewrite (foldM_ok _ (best_step data)).
  - cbn [bind]. fold (candidates data). fold (best data).
    destruct (best data) as [[p |] bs]; [destruct (geb bs 0.95) |]; reflexivity.
  - intros st p Hp. apply In_range2 in Hp.
    apply period_step_value; [lia | assumption].
Qed.

Lemma scan_invariant (data : bytes) (ps : list Z) :
  scan_spec data ps (fold_left (best_step data) ps (None, 0)).
Proof.
  induction ps as [| p ps IH] using rev_ind.
  - split; [intros q [] | reflexivity].
  - rewrite fold_left_app. cbn [fold_left].
    destruct (fold_left (best_step data) ps (None, 0)) as [bp bs].
    destruct IH as [Hmax Hbest]. cbn [fst snd] in *.
    unfold best_step. cbn [snd].
    float_case (gtb (score data p) bs); split; cbn [fst snd].
    + intros q Hq. apply in_app_iff in Hq.
      destruct Hq as [Hq | [<- | []]]; [specialize (Hmax q Hq) |]; lra.
    + split; [reflexivity |]. split.
      * destruct bp as [p' |]; [destruct Hbest as [-> [Hpos _]] |]; lra.
      * exists ps, []. split; [reflexivity |].
        intros q Hq. specialize (Hmax q Hq). lra.
    + intros q Hq. apply in_app_iff in Hq.
      destruct Hq as [Hq | [<- | []]]; [now apply Hmax | lra].
    + destruct bp as [p' |]; [| assumption].
      destruct Hbest as [-> [Hpos [pre [post [-> Hpre]]]]].
      split; [reflexivity |]. split; [assumption |].
      exists pre, (post ++ [p]). split; [| assumption].
      now rewrite <- app_assoc.
Qed.

Lemma range_from_sorted (a : Z) (s n : nat) :
  StronglySorted Z.lt (map (fun k => (a + Z.of_nat k)%Z) (seq s n)).
Proof.
  revert s. induction n as [| n IH]; intros s; simpl; constructor.
  - apply IH.
  - apply Forall_forall. intros x Hx. apply in_map_iff in Hx.
    destruct Hx as [k [<- Hk]]. apply in_seq in Hk. lia.
Qed.

Lemma range2_sorted (a b : Z) : StronglySorted Z.lt (range2 a b).
Proof. apply range_from_sorted. Qed.

Lemma sorted_before (l pre post : list Z) (p q : Z) :
  StronglySorted Z.lt l -> l = pre ++ p :: post ->
  In q l -> (q < p)%Z -> In q pre.
Proof.
  intros Hs -> Hin Hlt. revert Hs Hin.
  induction pre as [| x pre IH]; simpl; intros Hs Hin.
  - inversion Hs as [| ? ? _ Hall]; subst. rewrite Forall_forall in Hall.
    destruct Hin as [-> | Hin]; [lia | specialize (Hall _ Hin); lia].
  - inversion Hs as [| ? ? Hs' _]; subst.
    destruct Hin as [-> | Hin]; [now left | right; now apply IH].
Qed.

Lemma slice_to_firstn {A : Type} (data : list A) (p : Z) :
  (0 <= p)%Z -> slice_to data p = firstn (Z.to_nat p) data.
Proof.
  intros Hp. unfold slice_to, slice, clamp.
  destruct (p <? 0)%Z eqn:E; [apply Z.ltb_lt in E; lia |].
  cbn [Z.ltb Z.compare]. pose proof (len_nonneg data) as Hl.
  rewrite (Z.min_l 0) by assumption. cbn [Z.to_nat skipn]. rewrite Z.sub_0_r.
  destruct (Z.le_ge_cases p (len data)) as [Hle | Hge].
  - now rewrite Z.min_l.
  - rewrite Z.min_r by lia. unfold len in *. rewrite Nat2Z.id.
    rewrite firstn_all. symmetry. apply firstn_all2. lia.
Qed.

(** ** The repeating-pattern detector *)

(** C6. [detect_repeating_pattern] reports [found = true] only for a region
    of at least 128 bytes whose best match fraction is at least 0.95. The
    candidate periods are [1 <= p < min(65, len // 4)], all within 1..64 and
    tried in increasing order; the period kept has the highest fraction and
    is the smallest such (every smaller candidate scores strictly less), and
    the sample is the first [period] bytes of the data. *)
Theorem detect_repeating_pattern_spec (data : bytes) :
  exists r,
    detect_repeating_pattern data = Ok r
    /\ (forall q, In q (candidates data)
                  <-> (1 <= q < Z.min 65 (len data / 4))%Z)
    /\ StronglySorted Z.lt (candidates data)
    /\ (Repeating.found r = true ->
        (128 <= len data)%Z
        /\ exists p,
            Repeating.period r = Some p
            /\ In p (candidates data) /\ (1 <= p <= 64)%Z
            /\ 0.95 <= score data p
            /\ (forall q, In q (candidates data) ->
                          score data q <= score data p)
            /\ (forall q, In q (candidates data) -> (q < p)%Z ->
                          score data q < score data p)
            /\ Repeating.pattern r = Some (hex (firstn (Z.to_nat p) data))
            /\ List.length (firstn (Z.to_nat p) data) = Z.to_nat p
            /\ Repeating.confidence r = round (score data p * 100) 2)
    /\ (Repeating.found r = false ->
        Repeating.period r = None /\ Repeating.pattern r = None
        /\ ((len data < 128)%Z
            \/ forall q, In q (candidates data) -> score data q < 0.95)).
Proof.
  exists (repeating_value data).
  split; [apply detect_repeating_pattern_value |].
  split; [intros q; apply In_range2 |].
  split; [apply range2_sorted |].
  unfold repeating_value.
  destruct (len data <? 128)%Z eqn:E.
  { apply Z.ltb_lt in E. split; [discriminate |]. intros _. cbn. auto. }
  apply Z.ltb_ge in E.
  pose proof (scan_invariant data (candidates data)) as [Hmax Hbest].
  fold (best data) in Hmax, Hbest.
  destruct (best data) as [[p |] bs]; cbn [fst snd] in *.
  - destruct Hbest as [-> [Hpos [pre [post [Hsplit Hpre]]]]].
    float_case (geb (score data p) 0.95); cbn.
    + split; [| discriminate]. intros _. split; [assumption |].
      assert (Hin : In p (candidates data))
        by (rewrite Hsplit; apply in_elt).
      pose proof Hin as Hrange. apply In_range2 in Hrange.
      exists p. repeat split; try assumption; try lia.
      * intros q Hq Hlt. apply Hpre.
        eapply sorted_before; eauto using range2_sorted.
      * now rewrite slice_to_firstn by lia.
      * apply firstn_length_le. unfold len in *.
        assert (Z.of_nat (List.length data) / 4 <= Z.of_nat (List.length data))%Z
          by (apply Z.div_le_upper_bound; lia).
        lia.
    + split; [discriminate |]. intros _. repeat split. right.
      intros q Hq. specialize (Hmax q Hq). lra.
  - subst bs. cbn. split; [discriminate |]. intros _. repeat split. right.
    intros q Hq. specialize (Hmax q Hq). lra.
Qed.

Lemma fold_best_step_count (data : bytes) (ps : list Z) (bp : option Z) (m : Z) :
  data <> [] ->
  fold_left (best_step data) ps (bp, IZR m / IZR (len data))
  = (fst (fold_left (best_step_count data) ps (bp, m)),
     IZR (snd (fold_left (best_step_count data) ps (bp, m)))
     / IZR (len data)).
Proof.
  intros Hne.
  assert (HL : 0 < IZR (len data)).
  { apply IZR_lt. destruct data; [contradiction | apply len_pos_cons]. }
  revert bp m. induction ps as [| p ps IH]; intros bp m; simpl.
  - reflexivity.
  - unfold best_step at 2, best_step_count at 2 4. cbn [snd]. unfold score.
    destruct (m <? matches_count data p)%Z eqn:E.
    + apply Z.ltb_lt in E.
      float_case (gtb (IZR (matches_count data p) / IZR (len data))
                      (IZR m / IZR (len data))); [apply IH |].
      exfalso. apply IZR_lt in E.
      apply (Rmult_le_compat_r (IZR (len data))) in Hcmp; [| lra].
      unfold Rdiv in Hcmp. rewrite !Rmult_assoc, Rinv_l in Hcmp by lra. lra.
    + apply Z.ltb_ge in E.
      float_case (gtb (IZR (matches_count data p) / IZR (len data))
                      (IZR m / IZR (len data))); [| apply IH].
      exfalso. apply IZR_le in E.
      apply (Rmult_lt_compat_r (IZR (len data))) in Hcmp; [| lra].
      unfold Rdiv in Hcmp. rewrite !Rmult_assoc, Rinv_l in Hcmp by lra. lra.
Qed.

Lemma best_of_best_count (data : bytes) :
  data <> [] ->
  best data
  = (fst (best_count data), IZR (snd (best_count data)) / IZR (len data)).
Proof.
  intros Hne. unfold best, best_count.
  rewrite <- (fold_best_step_count _ _ _ Hne). do 2 f_equal.
  unfold Rdiv. ring.
Qed.

Lemma detect_repeating_pattern_spec_witness :
  exists r,
    detect_repeating_pattern sample_aa55 = Ok r
    /\ Repeating.found r = true
    /\ Repeating.period r = Some 2%Z
    /\ Repeating.pattern r = Some "aa55"
    /\ 0.95 <= score sample_aa55 2
    /\ score sample_aa55 1 < score sample_aa55 2.
Proof.
  destruct (detect_repeating_pattern_spec sample_aa55)
    as [r [Hr [Hcand [_ [Hfound _]]]]].
  exists r. split; [exact Hr |].
  rewrite detect_repeating_pattern_value in Hr. injection Hr as Hr.
  assert (Hbest : best sample_aa55 = (Some 2%Z, IZR 198 / IZR 200)).
  { rewrite best_of_best_count
      by (intros H; vm_compute in H; discriminate H).
    replace (best_count sample_aa55) with (Some 2%Z, 198%Z)
      by (vm_compute; reflexivity).
    replace (len sample_aa55) with 200%Z by (vm_compute; reflexivity).
    reflexivity. }
  assert (Hval : r = Repeating.mk true (Some "aa55") (Some 2%Z)
                                  (round (IZR 198 / IZR 200 * 100) 2)).
  { rewrite <- Hr. unfold repeating_value.
    replace (len sample_aa55 <? 128)%Z with false by (vm_compute; reflexivity).
    rewrite Hbest.
    float_case (geb (IZR 198 / IZR 200) 0.95); [| lra].
    f_equal. }
  destruct Hfound as [_ [p [Hp [Hin [_ [H95 [_ [Hties _]]]]]]]].
  { rewrite Hval. reflexivity. }
  rewrite Hval in Hp |- *.
  cbn [Repeating.found Repeating.period Repeating.pattern] in Hp |- *.
  injection Hp as <-.
  repeat split; try assumption.
  apply Hties; [| lia]. apply Hcand. vm_compute.
  split; [discriminate | reflexivity].
Defined.

(** *** Multi-pass *)

Lemma variance_confidence_cases (v : R) :
  variance_confidence v = 90 \/ variance_confidence v = 75
  \/ variance_confidence v = 50 \/ variance_confidence v = 10.
Proof. unfold variance_confidence. repeat destruct (gtb _ _); auto. Qed.

Lemma round_variance_confidence (v : R) :
  round (variance_confidence v) 1 = variance_confidence v.
Proof.
  destruct (variance_confidence_cases v) as [-> | [-> | [-> | ->]]].
  - apply (round_IZR 90).
  - apply (round_IZR 75).
  - apply (round_IZR 50).
  - apply (round_IZR 10).
Qed.

Lemma range_len_chunks (n cs : Z) :
  (0 < cs)%Z -> (cs * 4 <= n)%Z ->
  range_len 0 (n - cs) cs = ((n - cs - 1) / cs + 1)%Z
  /\ (3 <= range_len 0 (n - cs) cs)%Z
  /\ (range_len 0 (n - cs) cs * cs < n)%Z
  /\ (n - range_len 0 (n - cs) cs * cs <= cs)%Z.
Proof.
  intros Hcs Hn. unfold range_len.
  destruct (0 <? cs)%Z eqn:E1; [| apply Z.ltb_ge in E1; lia].
  destruct (0 <? n - cs)%Z eqn:E2; [| apply Z.ltb_ge in E2; lia].
  rewrite Z.sub_0_r.
  pose proof (Z.div_mod (n - cs - 1) cs ltac:(lia)) as Hdm.
  pose proof (Z.mod_pos_bound (n - cs - 1) cs Hcs) as Hmod.
  assert (H2 : (2 <= (n - cs - 1) / cs)%Z)
    by (apply Z.div_le_lower_bound; lia).
  repeat split; nia.
Qed.

Lemma chunk_count_ge_3 (data : bytes) (cs : Z) :
  (0 < cs)%Z -> (cs * 4 <= len data)%Z -> (3 <= chunk_count data cs)%nat.
Proof.
  intros Hcs Hn. unfold chunk_count.
  destruct (range_len_chunks Hcs Hn) as [_ [H3 _]]. lia.
Qed.

Lemma div_in_ok (A : FloatOps.t) (x y : R) :
  y <> 0 -> div_in A x y = Ok (FloatOps.quot A x y).
Proof. intros H. unfold div_in. destruct (Req_dec_T y 0); [contradiction | reflexivity]. Qed.

Lemma detect_multi_pass_in_value (A : FloatOps.t) (data : bytes) (cs : Z) :
  (0 < cs)%Z ->
  detect_multi_pass_in A data cs
  = Ok (if (len data <? cs * 4)%Z then Multi.mk 0 [] 0
        else multi_in A (chunk_entropies data cs)).
Proof.
  intros Hcs. unfold detect_multi_pass_in.
  destruct (len data <? cs * 4)%Z eqn:E; [reflexivity |].
  apply Z.ltb_ge in E.
  unfold range3. destruct (cs =? 0)%Z eqn:E0; [apply Z.eqb_eq in E0; lia |].
  cbn [bind]. fold (chunk_count data cs). fold (chunk_starts data cs).
  fold (sub_chunks data cs).
  rewrite (mapM_ok _ entropy_value)
    by (intros; apply calculate_entropy_value).
  cbn [bind]. fold (chunk_entropies data cs).
  assert (Hlen : IZR (len (chunk_entropies data cs)) <> 0).
  { apply not_0_IZR. unfold len, chunk_entropies, sub_chunks, chunk_starts.
    rewrite !length_map, length_seq.
    pose proof (chunk_count_ge_3 data Hcs E). lia. }
  rewrite div_in_ok by assumption. cbn [bind].
  rewrite div_in_ok by assumption. cbn [bind]. reflexivity.
Qed.

Lemma variance_in_exact (xs : list R) : variance_in exact xs = variance_of xs.
Proof. reflexivity. Qed.

Lemma detect_multi_pass_value (data : bytes) (cs : Z) :
  (0 < cs)%Z -> detect_multi_pass data cs = Ok (multi_value data cs).
Proof.
  intros Hcs. unfold detect_multi_pass.
  rewrite detect_multi_pass_in_value by exact Hcs. unfold multi_value.
  destruct (len data <? cs * 4)%Z; [reflexivity |].
  unfold multi_in. rewrite !variance_in_exact.
  cbn [FloatOps.round exact].
  now rewrite round_variance_confidence.
Qed.

(** *** The phase labels *)

Lemma phase_label_cases (e : R) :
  phase_label e = "zeros" \/ phase_label e = "random"
  \/ phase_label e = "ones_or_pattern".
Proof.
  unfold phase_label.
  float_case (ltb e 0.1); [now left |].
  float_case (gtb e 7.8); [now right; left |].
  float_case (gtb 7.9 e); [| exfalso; lra].
  float_case (gtb e 0.08); [| exfalso; lra].
  now right; right.
Qed.

Lemma append_phase_labels (phases : list string) (e : R) :
  Forall emitted_label phases -> Forall emitted_label (append_phase phases e).
Proof.
  intros H. unfold append_phase.
  assert (Happ : Forall emitted_label (phases ++ [phase_label e])).
  { apply Forall_app. split; [assumption |].
    constructor; [apply phase_label_cases | constructor]. }
  destruct phases; [assumption |].
  destruct (String.eqb _ _); assumption.
Qed.

Lemma fold_append_phase_labels (es : list R) (phases : list string) :
  Forall emitted_label phases ->
  Forall emitted_label (fold_left append_phase es phases).
Proof.
  revert phases. induction es as [| e es IH]; intros phases H; simpl.
  - assumption.
  - apply IH, append_phase_labels, H.
Qed.

Lemma multi_value_labels (data : bytes) (cs : Z) :
  Forall emitted_label (Multi.phases (multi_value data cs)).
Proof.
  unfold multi_value. destruct (len data <? cs * 4)%Z; cbn.
  - constructor.
  - apply fold_append_phase_labels. constructor.
Qed.

Lemma mem_true_iff (x : string) (s : list string) : mem x s = true <-> In x s.
Proof.
  unfold mem. rewrite existsb_exists. split.
  - intros [y [Hy E]]. apply String.eqb_eq in E. now subst.
  - intros H. exists x. split; [assumption | apply String.eqb_refl].
Qed.

Lemma In_set (x : string) (xs : list string) : In x (set xs) <-> In x xs.
Proof. unfold set. apply nodup_In. Qed.

Lemma set_size_emitted (phases : list string) :
  Forall emitted_label phases -> (len (set phases) <= 3)%Z.
Proof.
  intros H. unfold len.
  assert (Hl : (List.length (set phases)
                <= List.length ["zeros"; "random"; "ones_or_pattern"])%nat).
  { apply NoDup_incl_length; [apply NoDup_nodup |].
    intros l Hl. apply (proj1 (In_set _ _)) in Hl. rewrite Forall_forall in H.
    destruct (H l Hl) as [-> | [-> | ->]]; simpl; auto. }
  simpl in Hl. lia.
Qed.

(** *** Evaluating the entropy on regular chunks *)

Lemma Zsum_repeat (c : Z) (n : nat) : Zsum (repeat c n) = (c * Z.of_nat n)%Z.
Proof. induction n as [| n IH]; simpl repeat; simpl Zsum; [lia | fold (Zsum (repeat c n)); lia]. Qed.

Lemma log2R_inv_pow2 (j : nat) : log2R (/ 2 ^ j) = - INR j.
Proof.
  unfold log2R. assert (0 < 2 ^ j) by (apply pow_lt; lra).
  rewrite ln_Rinv by assumption. rewrite ln_pow by lra.
  pose proof ln2_pos. field. lra.
Qed.

(** A region whose distinct byte values, [2 ^ j] of them, all occur equally
    often has entropy [j]. *)
Lemma shannon_uniform (data : bytes) (c : Z) (j : nat) :
  (0 < c)%Z -> values (Counter data) = repeat c (2 ^ j) ->
  shannon data = INR j.
Proof.
  intros Hc Hv. unfold shannon.
  pose proof (values_Counter_sum data) as HL.
  rewrite Hv, Zsum_repeat in HL. rewrite Hv, <- HL.
  rewrite (map_ext_in _ (fun _ => entropy_term (c * Z.of_nat (2 ^ j)) c))
    by (intros x Hx; apply repeat_spec in Hx; now subst).
  rewrite sum_map_const, repeat_length.
  unfold entropy_term. rewrite mult_IZR, <- INR_IZR_INZ, pow_INR.
  change (INR 2) with 2.
  assert (Hp : 0 < 2 ^ j) by (apply pow_lt; lra).
  assert (HcR : 0 < IZR c) by now apply IZR_lt.
  replace (IZR c / (IZR c * 2 ^ j)) with (/ 2 ^ j) by (field; lra).
  rewrite log2R_inv_pow2. field. lra.
Qed.

Lemma entropy_value_uniform (data : bytes) (c : Z) (j : nat) :
  (0 < c)%Z -> values (Counter data) = repeat c (2 ^ j) ->
  entropy_value data = INR j.
Proof.
  intros Hc Hv. destruct data as [| a data].
  { apply (f_equal (@List.length Z)) in Hv. rewrite repeat_length in Hv.
    simpl in Hv. pose proof (Nat.pow_nonzero 2 j). lia. }
  unfold entropy_value. rewrite (shannon_uniform _ _ Hc Hv).
  rewrite INR_IZR_INZ. apply round_IZR.
Qed.

Lemma entropy_value_constant (b : Byte.byte) (n : nat) :
  entropy_value (repeat b n) = 0.
Proof.
  destruct n as [| n]; [reflexivity |].
  assert (Hne : repeat b (S n) <> []) by discriminate.
  assert (Hall : Forall (eq b) (repeat b (S n))).
  { apply Forall_forall. intros x Hx. apply repeat_spec in Hx. now subst. }
  change (entropy_value (repeat b (S n)))
    with (round (shannon (repeat b (S n))) 4).
  rewrite (shannon_constant Hne Hall). apply (round_IZR 0).
Qed.

(** *** Variance *)



(** ** The multi-pass heuristic: sentinel and confidence *)


Lemma entropy_zone_zero : entropy_value zone_zero = 0.
Proof. apply entropy_value_constant. Qed.

Lemma entropy_zone_one : entropy_value zone_one = 0.
Proof. apply entropy_value_constant. Qed.

Lemma entropy_zone_random : entropy_value zone_random = 8.
Proof.
  rewrite (@entropy_value_uniform zone_random 2 8);
    [simpl; lra | lia | vm_compute; reflexivity].
Qed.


(** ** The multi-pass heuristic: which bytes are sampled *)

Lemma slice_inner {A : Type} (data : list A) (i j : Z) :
  (0 <= i <= j)%Z -> (j <= len data)%Z ->
  slice data i j = firstn (Z.to_nat (j - i)) (skipn (Z.to_nat i) data).
Proof.
  intros Hij Hj. unfold slice, clamp.
  destruct (i <? 0)%Z eqn:Ei; [apply Z.ltb_lt in Ei; lia |].
  destruct (j <? 0)%Z eqn:Ej; [apply Z.ltb_lt in Ej; lia |].
  now rewrite !Z.min_l by lia.
Qed.

Lemma firstn_plus {A : Type} (a b : nat) (l : list A) :
  firstn (a + b) l = firstn a l ++ firstn b (skipn a l).
Proof.
  revert l. induction a as [| a IH]; intros l; simpl.
  - reflexivity.
  - destruct l as [| x l]; simpl.
    + now rewrite firstn_nil.
    + now rewrite IH.
Qed.

Lemma In_chunk_starts (data : bytes) (cs i : Z) :
  (0 < cs)%Z -> (cs * 4 <= len data)%Z ->
  In i (chunk_starts data cs)
  <-> exists k, (0 <= k)%Z /\ i = (k * cs)%Z /\ (i < len data - cs)%Z.
Proof.
  intros Hcs Hlen. unfold chunk_starts, chunk_count.
  destruct (range_len_chunks Hcs Hlen) as [Hn _]. rewrite Hn.
  pose proof (Z.div_mod (len data - cs - 1) cs ltac:(lia)) as Hdm.
  pose proof (Z.mod_pos_bound (len data - cs - 1) cs Hcs) as Hmod.
  rewrite in_map_iff. split.
  - intros [k [<- Hk]]. apply in_seq in Hk.
    exists (Z.of_nat k). split; [lia |]. split; [lia | nia].
  - intros [k [Hk [-> Hlt]]]. exists (Z.to_nat k). split; [lia |].
    apply in_seq. split; [lia |].
    assert (k <= (len data - cs - 1) / cs)%Z
      by (apply Z.div_le_lower_bound; lia).
    lia.
Qed.

Lemma chunk_slice (data : bytes) (cs : Z) (k : nat) :
  (0 < cs)%Z -> (Z.of_nat (S k) * cs <= len data)%Z ->
  slice data (0 + Z.of_nat k * cs) (0 + Z.of_nat k * cs + cs)
  = firstn (Z.to_nat cs) (skipn (k * Z.to_nat cs) data).
Proof.
  intros Hcs Hk. rewrite slice_inner by lia.
  f_equal; [f_equal; lia | f_equal; nia].
Qed.

Lemma concat_chunks (data : bytes) (cs : Z) (n : nat) :
  (0 < cs)%Z -> (Z.of_nat n * cs <= len data)%Z ->
  List.concat (map (fun i => slice data i (i + cs))
              (map (fun k => (0 + Z.of_nat k * cs)%Z) (seq 0 n)))
  = firstn (n * Z.to_nat cs) data.
Proof.
  intros Hcs. induction n as [| n IH]; intros Hn.
  - reflexivity.
  - rewrite seq_S, !map_app, concat_app, IH by lia.
    cbn [map List.concat plus]. rewrite app_nil_r, chunk_slice by lia.
    replace (S n * Z.to_nat cs)%nat with (n * Z.to_nat cs + Z.to_nat cs)%nat
      by lia.
    now rewrite firstn_plus.
Qed.

Lemma sub_chunks_prefix (data data' : bytes) (cs : Z) :
  (0 < cs)%Z -> (cs * 4 <= len data)%Z -> len data' = len data ->
  firstn (chunk_count data cs * Z.to_nat cs) data'
  = firstn (chunk_count data cs * Z.to_nat cs) data ->
  sub_chunks data' cs = sub_chunks data cs.
Proof.
  intros Hcs Hlen Hl Hpre. unfold sub_chunks, chunk_starts.
  assert (Hc : chunk_count data' cs = chunk_count data cs)
    by (unfold chunk_count; now rewrite Hl).
  rewrite Hc. rewrite !map_map. apply map_ext_in.
  intros k Hk. apply in_seq in Hk.
  destruct (range_len_chunks Hcs Hlen) as [_ [_ [Hlt _]]].
  fold (chunk_count data cs) in Hlt.
  assert (Hb : (Z.of_nat (S k) * cs <= len data)%Z).
  { unfold chunk_count in Hk |- *. nia. }
  rewrite !chunk_slice by (try rewrite Hl; assumption).
  rewrite !firstn_skipn_comm.
  set (N := (chunk_count data cs * Z.to_nat cs)%nat) in *.
  assert (HN : (k * Z.to_nat cs + Z.to_nat cs <= N)%nat) by (unfold N; nia).
  rewrite <- (Nat.min_l _ _ HN), <- !firstn_firstn, Hpre. reflexivity.
Qed.

(** C5. On a region of at least four sub-chunks, [detect_multi_pass]
    samples the sub-chunks that start at [0, chunk, 2*chunk, ...] strictly
    below [len(data) - chunk_size], and no others: its result is built, in
    every float arithmetic, from the entropies of exactly these sub-chunks
    (the phase sequence folds over them, the variance is theirs). Together
    they are a strict prefix of the region, the tail of 1 to [chunk_size]
    bytes is in none of them, and changing the tail changes nothing of the
    result. *)
Theorem multi_pass_tail_excluded (A : FloatOps.t) (data : bytes)
  (chunk_size : Z) :
  (0 < chunk_size)%Z -> (chunk_size * 4 <= len data)%Z ->
  let sampled := (chunk_count data chunk_size * Z.to_nat chunk_size)%nat in
  let entropies := chunk_entropies data chunk_size in
  range3 0 (len data - chunk_size) chunk_size
  = Ok (chunk_starts data chunk_size)
  /\ (forall i, In i (chunk_starts data chunk_size)
                <-> exists k, (0 <= k)%Z /\ i = (k * chunk_size)%Z
                              /\ (i < len data - chunk_size)%Z)
  /\ mapM calculate_entropy
          (map (fun i => slice data i (i + chunk_size))
               (chunk_starts data chunk_size))
     = Ok entropies
  /\ (exists m,
         detect_multi_pass_in A data chunk_size = Ok m
         /\ Multi.phases m = fold_left append_phase entropies []
         /\ Multi.entropy_variance m
            = FloatOps.round A (variance_in A entropies) 4
         /\ Multi.confidence m
            = FloatOps.round A
                (variance_confidence (variance_in A entropies)) 1)
  /\ List.length entropies = chunk_count data chunk_size
  /\ List.concat (sub_chunks data chunk_size) = firstn sampled data
  /\ (Z.of_nat sampled < len data)%Z
  /\ (len data - Z.of_nat sampled <= chunk_size)%Z
  /\ (forall data' : bytes,
         len data' = len data ->
         firstn sampled data' = firstn sampled data ->
         detect_multi_pass_in A data' chunk_size
         = detect_multi_pass_in A data chunk_size).
Proof.
  intros Hcs Hlen sampled entropies.
  destruct (range_len_chunks Hcs Hlen) as [Hn [H3 [Hlt Htail]]].
  assert (Hsampled : Z.of_nat sampled
                     = (range_len 0 (len data - chunk_size) chunk_size
                        * chunk_size)%Z).
  { unfold sampled, chunk_count. nia. }
  assert (Hvalue : forall d, len d = len data ->
            detect_multi_pass_in A d chunk_size
            = Ok (multi_in A (chunk_entropies d chunk_size))).
  { intros d Hd. rewrite detect_multi_pass_in_value by exact Hcs.
    destruct (len d <? chunk_size * 4)%Z eqn:E;
      [apply Z.ltb_lt in E; lia | reflexivity]. }
  split.
  { unfold range3. destruct (chunk_size =? 0)%Z eqn:E;
      [apply Z.eqb_eq in E; lia | reflexivity]. }
  split; [intros i; now apply In_chunk_starts |].
  split.
  { apply mapM_ok. intros; apply calculate_entropy_value. }
  split.
  { exists (multi_in A entropies).
    split; [now apply Hvalue |]. repeat split. }
  split.
  { unfold entropies, chunk_entropies, sub_chunks, chunk_starts.
    now rewrite !length_map, length_seq. }
  split.
  { unfold sub_chunks, chunk_starts. apply concat_chunks; [assumption |].
    unfold chunk_count. lia. }
  split; [lia |]. split; [lia |].
  intros data' Hl Hpre.
  rewrite (Hvalue data' Hl), (Hvalue data eq_refl).
  unfold chunk_entropies.
  now rewrite (sub_chunks_prefix data data' Hcs Hlen Hl Hpre).
Qed.

Lemma multi_pass_tail_excluded_witness :
  (0 < 512)%Z /\ (512 * 4 <= len sample_zero_zero_random)%Z
  /\ (exists m,
         detect_multi_pass_in exact sample_zero_zero_random 512 = Ok m
         /\ Multi.phases m
            = fold_left append_phase
                (map entropy_value [zone_zero; zone_zero; zone_random]) [])
  /\ detect_multi_pass_in exact
       (zone_zero ++ zone_zero ++ zone_random ++ zone_one) 512
     = detect_multi_pass_in exact sample_zero_zero_random 512.
Proof.
  assert (H1 : (0 < 512)%Z) by lia.
  assert (H2 : (512 * 4 <= len sample_zero_zero_random)%Z)
    by (vm_compute; discriminate).
  split; [exact H1 |]. split; [exact H2 |].
  destruct (multi_pass_tail_excluded exact sample_zero_zero_random H1 H2)
    as [_ [_ [_ [[m [Hm [Hph _]]] [_ [_ [_ [_ Htail]]]]]]]].
  split.
  - exists m. split; [exact Hm |]. rewrite Hph.
    unfold chunk_entropies.
    replace (sub_chunks sample_zero_zero_random 512)
      with [zone_zero; zone_zero; zone_random] by (vm_compute; reflexivity).
    reflexivity.
  - apply Htail; vm_compute; reflexivity.
Defined.

(** ** Chi-square on short input *)

(** C4. On fewer than 256 bytes [chi_square_test] does not raise: whatever
    the bytes are, it returns the sentinel with [is_random = false] and the
    "too short" p-value bucket. *)
Theorem chi_square_test_too_short (data : bytes) :
  (len data < 256)%Z ->
  chi_square_test data = Ok (Chi.mk 0 false "n/a (too short)").
Proof.
  intros Hshort. unfold chi_square_test.
  apply Z.ltb_lt in Hshort. now rewrite Hshort.
Qed.

Lemma chi_square_test_too_short_witness :
  (len (repeat x41 255) < 256)%Z
  /\ chi_square_test (repeat x41 255) = Ok (Chi.mk 0 false "n/a (too short)").
Proof.
  assert (H : (len (repeat x41 255) < 256)%Z) by (vm_compute; reflexivity).
  split; [exact H | exact (chi_square_test_too_short _ H)].
Defined.

(** ** The phase labels of the multi-pass heuristic *)

Lemma phase_label_not_mixed (e : R) : phase_label e <> "mixed".
Proof. destruct (phase_label_cases e) as [-> | [-> | ->]]; discriminate. Qed.

(** C3. Every phase label [detect_multi_pass] emits is "zeros", "random" or
    "ones_or_pattern": an entropy that is neither below 0.1 nor above 7.8
    lies strictly between 0.08 and 7.9, so "mixed" is never chosen, and
    "ones" is never produced. Hence the classifier's test for "ones" in the
    phase set is false on such a result, and [dod_5220_7pass] is returned
    only when [entropy_variance > 3.5]. *)
Theorem multi_pass_labels (data : bytes) (chunk_size : Z) :
  (0 < chunk_size)%Z ->
  (forall e : R, ~ e < 0.1 -> ~ e > 7.8 -> 7.9 > e /\ e > 0.08)
  /\ (forall e : R, phase_label e <> "mixed")
  /\ exists m,
      detect_multi_pass data chunk_size = Ok m
      /\ Forall (fun l => l = "zeros" \/ l = "random" \/ l = "ones_or_pattern")
                (Multi.phases m)
      /\ ~ In "mixed" (Multi.phases m)
      /\ ~ In "ones" (Multi.phases m)
      /\ mem "ones" (set (Multi.phases m)) = false
      /\ forall entropy zero_conf one_conf chi repeating algo,
          classify_wiping_algorithm entropy zero_conf one_conf chi m repeating
          = Ok algo ->
          Algo.algorithm algo = "dod_5220_7pass" ->
          Multi.entropy_variance m > 3.5.
Proof.
  intros Hcs.
  split; [intros e H1 H2; lra |].
  split; [exact phase_label_not_mixed |].
  exists (multi_value data chunk_size).
  split; [now apply detect_multi_pass_value |].
  pose proof (multi_value_labels data chunk_size) as Hlab.
  set (m := multi_value data chunk_size) in *.
  assert (Hno : forall l, l <> "zeros" -> l <> "random" ->
                          l <> "ones_or_pattern" -> ~ In l (Multi.phases m)).
  { intros l H1 H2 H3 Hin. rewrite Forall_forall in Hlab.
    destruct (Hlab l Hin) as [-> | [-> | ->]]; contradiction. }
  assert (Hones : mem "ones" (set (Multi.phases m)) = false).
  { destruct (mem "ones" (set (Multi.phases m))) eqn:E; [| reflexivity].
    apply (proj1 (mem_true_iff _ _)), (proj1 (In_set _ _)) in E.
    exfalso. revert E. apply Hno; discriminate. }
  split; [exact Hlab |].
  split; [apply Hno; discriminate |].
  split; [apply Hno; discriminate |].
  split; [exact Hones |].
  intros entropy zero_conf one_conf chi repeating algo Hc Halgo.
  unfold classify_wiping_algorithm in Hc. rewrite Hones in Hc.
  cbn [orb] in Hc.
  repeat match type of Hc with
    | (if ?c then _ else _) = _ => destruct c eqn:?
    | bind ?c _ = _ => destruct c; cbn [bind] in Hc
    end;
    try discriminate; injection Hc as <-; try discriminate Halgo.
  match goal with
  | H : gtb (Multi.entropy_variance m) 3.5 = true |- _ =>
      now apply gtb_true in H
  end.
Qed.

Lemma multi_pass_labels_witness :
  (0 < 512)%Z
  /\ exists m,
      detect_multi_pass sample_zero_zero_random 512 = Ok m
      /\ ~ In "mixed" (Multi.phases m) /\ ~ In "ones" (Multi.phases m).
Proof.
  assert (H : (0 < 512)%Z) by lia.
  split; [exact H |].
  destruct (multi_pass_labels sample_zero_zero_random H)
    as [_ [_ [m [Hm [_ [Hmixed [Hones _]]]]]]].
  exists m. auto.
Defined.

(** ** The classifier and the region analysis *)

Lemma classify_cascade entropy zero_conf one_conf chi multi repeating :
  classify_wiping_algorithm entropy zero_conf one_conf chi multi repeating
  = first_match
      (rule_cascade_spec entropy zero_conf one_conf chi multi repeating)
      (Ok unknown_algo).
Proof.
  unfold classify_wiping_algorithm, rule_cascade_spec, first_match.
  destruct (geb zero_conf 99); [reflexivity |].
  destruct (geb one_conf 99); [reflexivity |].
  destruct (geb entropy 7.5 && Chi.is_random chi); [reflexivity |].
  destruct (Repeating.found repeating); [reflexivity |].
  destruct (geb (Multi.confidence multi) 70); cbn [andb]; [| reflexivity].
  destruct (mem "zeros" _ && mem "random" _ && _); [reflexivity |].
  destruct (4 <=? _)%Z; reflexivity.
Qed.

Lemma classify_total entropy zero_conf one_conf chi multi repeating :
  (Repeating.found repeating = true -> Repeating.pattern repeating <> None) ->
  exists algo,
    classify_wiping_algorithm entropy zero_conf one_conf chi multi repeating
    = Ok algo.
Proof.
  intros Hpat. unfold classify_wiping_algorithm.
  destruct (geb zero_conf 99); [eauto |].
  destruct (geb one_conf 99); [eauto |].
  destruct (geb entropy 7.5 && Chi.is_random chi).
  { rewrite div_ok by lra. cbn [bind]. eauto. }
  destruct (Repeating.found repeating).
  { destruct (Repeating.pattern repeating) as [h |];
      [cbn [bind]; eauto | now destruct Hpat]. }
  repeat match goal with
    | |- context [if ?c then _ else _] => destruct c
    end; eauto.
Qed.

Lemma repeating_value_pattern (data : bytes) :
  Repeating.found (repeating_value data) = true ->
  Repeating.pattern (repeating_value data) <> None.
Proof.
  unfold repeating_value.
  destruct (len data <? 128)%Z; [discriminate |].
  destruct (best data) as [[p |] bs]; [destruct (geb bs 0.95) |];
    cbn; discriminate.
Qed.

Lemma analyze_region_unfold (data : bytes) (offset : Z) :
  analyze_region data offset
  = (let entropy := entropy_value data in
     let chi := chi_value data in
     let zero_conf := fill_value data x00 in
     let one_conf := fill_value data xff in
     let repeating := repeating_value data in
     let multi := multi_value data default_chunk_size in
     algo <- classify_wiping_algorithm entropy zero_conf one_conf chi multi
                                       repeating ;;
     Ok (Record_.mk offset (len data)
           (pattern_type_of entropy zero_conf one_conf chi multi repeating)
           (Algo.confidence algo) (Algo.algorithm algo) (Algo.label algo)
           entropy (Chi.chi_square chi) (Chi.is_random chi)
           zero_conf one_conf repeating multi)).
Proof.
  unfold analyze_region.
  rewrite calculate_entropy_value, chi_square_test_value,
    detect_zero_pattern_value, detect_one_pattern_value,
    detect_repeating_pattern_value.
  rewrite detect_multi_pass_value by (unfold default_chunk_size; lia).
  reflexivity.
Qed.

Lemma analyze_region_returns (data : bytes) (offset : Z) :
  exists r, analyze_region data offset = Ok r.
Proof.
  rewrite analyze_region_unfold. cbv zeta.
  destruct (@classify_total (entropy_value data) (fill_value data x00)
              (fill_value data xff) (chi_value data)
              (multi_value data default_chunk_size) (repeating_value data)
              (repeating_value_pattern data)) as [algo ->].
  cbn [bind]. eauto.
Qed.

(** What [analyze_region] puts in the record. *)
Lemma analyze_region_fields (data : bytes) (offset : Z) (r : Record_.t) :
  analyze_region data offset = Ok r ->
  Record_.entropy r = entropy_value data
  /\ Record_.zero_confidence r = fill_value data x00
  /\ Record_.one_confidence r = fill_value data xff
  /\ Record_.chi_square r = Chi.chi_square (chi_value data)
  /\ Record_.chi_is_random r = Chi.is_random (chi_value data)
  /\ Record_.repeating r = repeating_value data
  /\ Record_.multi_pass r = multi_value data default_chunk_size
  /\ Record_.pattern_type r
     = pattern_type_of (entropy_value data) (fill_value data x00)
         (fill_value data xff) (chi_value data)
         (multi_value data default_chunk_size) (repeating_value data)
  /\ classify_wiping_algorithm (entropy_value data) (fill_value data x00)
       (fill_value data xff) (chi_value data)
       (multi_value data default_chunk_size) (repeating_value data)
     = Ok (Algo.mk (Record_.algorithm r) (Record_.algorithm_label r)
                   (Record_.confidence r)).
Proof.
  rewrite analyze_region_unfold. cbv zeta.
  destruct (classify_wiping_algorithm _ _ _ _ _ _) as [[a l c] | e];
    cbn [bind]; [| discriminate].
  intros [= <-]. cbn. repeat split; reflexivity.
Qed.

(** ** Rule order of the classifier *)

(** C2. The classifier is the ordered cascade zero > one > random >
    repeating > multi-pass > unknown, the first rule that matches giving the
    result; in particular [zero_conf >= 99.0] gives [simple_zero] with
    confidence [zero_conf] whatever the other signals are, and so does
    [analyze_region] on every byte sequence whose zero confidence is at
    least 99.0. *)
Theorem classify_rule_order :
  (forall entropy zero_conf one_conf chi multi repeating,
      classify_wiping_algorithm entropy zero_conf one_conf chi multi repeating
      = first_match
          (rule_cascade_spec entropy zero_conf one_conf chi multi repeating)
          (Ok unknown_algo))
  /\ (forall entropy zero_conf one_conf chi multi repeating,
         zero_conf >= 99 ->
         classify_wiping_algorithm entropy zero_conf one_conf chi multi
                                   repeating
         = Ok (Algo.mk "simple_zero" "Zero-fill (0x00)" zero_conf))
  /\ (forall (data : bytes) (offset : Z) (zero_conf : float),
         detect_zero_pattern data = Ok zero_conf ->
         zero_conf >= 99 ->
         exists r,
           analyze_region data offset = Ok r
           /\ Record_.algorithm r = "simple_zero"
           /\ Record_.confidence r = zero_conf
           /\ Record_.pattern_type r = "zero_fill").
Proof.
  split; [exact classify_cascade |].
  assert (Hzero : forall entropy zero_conf one_conf chi multi repeating,
             zero_conf >= 99 ->
             classify_wiping_algorithm entropy zero_conf one_conf chi multi
                                       repeating
             = Ok (Algo.mk "simple_zero" "Zero-fill (0x00)" zero_conf)).
  { intros entropy zero_conf one_conf chi multi repeating Hz.
    unfold classify_wiping_algorithm.
    float_case (geb zero_conf 99); [reflexivity | lra]. }
  split; [exact Hzero |].
  intros data offset zero_conf Hdz Hz.
  rewrite detect_zero_pattern_value in Hdz. injection Hdz as Hdz.
  rewrite analyze_region_unfold. cbv zeta.
  rewrite Hzero by (rewrite Hdz; exact Hz). cbn [bind].
  eexists. split; [reflexivity |]. cbn.
  split; [reflexivity |]. split; [exact Hdz |].
  unfold pattern_type_of. rewrite Hdz.
  float_case (geb zero_conf 99); [reflexivity | lra].
Qed.

Lemma fill_value_all (b : Byte.byte) (n : nat) :
  (0 < n)%nat -> fill_value (repeat b n) b = 100.
Proof.
  intros Hn. destruct n as [| n]; [lia |].
  change (fill_value (repeat b (S n)) b)
    with (round (IZR (count (repeat b (S n)) b)
                 / IZR (len (repeat b (S n))) * 100) 2).
  assert (Hc : count (repeat b (S n)) b = len (repeat b (S n))).
  { unfold count. f_equal. generalize (S n). intros k.
    induction k as [| k IH]; simpl; [reflexivity |].
    rewrite byte_eqb_refl. now f_equal. }
  rewrite Hc.
  assert (HL : IZR (len (repeat b (S n))) <> 0).
  { apply not_0_IZR. unfold len. simpl List.length. lia. }
  replace (IZR (len (repeat b (S n))) / IZR (len (repeat b (S n))) * 100)
    with 100 by (field; assumption).
  apply (round_IZR 100).
Qed.

Lemma classify_rule_order_witness :
  classify_wiping_algorithm 0 100 0 (Chi.mk 0 false "n/a (too short)")
    (Multi.mk 90 ["zeros"; "random"] 14) (Repeating.mk false None None 0)
  = Ok (Algo.mk "simple_zero" "Zero-fill (0x00)" 100)
  /\ exists r,
      analyze_region zone_zero 0 = Ok r
      /\ Record_.algorithm r = "simple_zero"
      /\ Record_.confidence r = 100
      /\ Record_.pattern_type r = "zero_fill".
Proof.
  destruct classify_rule_order as [_ [Hzero Hregion]].
  split.
  - apply Hzero. lra.
  - apply Hregion; [| lra].
    rewrite detect_zero_pattern_value. f_equal.
    apply fill_value_all. lia.
Defined.

(** ** Totality of the region analysis *)

Lemma classify_unknown entropy zero_conf one_conf chi multi repeating :
  zero_conf < 99 -> one_conf < 99 ->
  (geb entropy 7.5 && Chi.is_random chi = false) ->
  Repeating.found repeating = false ->
  Multi.confidence multi < 70 ->
  classify_wiping_algorithm entropy zero_conf one_conf chi multi repeating
  = Ok unknown_algo.
Proof.
  intros Hz Ho Hr Hf Hm. unfold classify_wiping_algorithm.
  float_case (geb zero_conf 99); [lra |].
  float_case (geb one_conf 99); [lra |].
  rewrite Hr, Hf.
  float_case (geb (Multi.confidence multi) 70); [lra | reflexivity].
Qed.

(** C9. [analyze_region] is total: on every byte input and offset it
    returns a record and raises nothing, as does each detector it calls.
    The empty buffer gives the all-sentinel record; a region too short for
    the windowed statistics (under 128 bytes) gets the chi-square, repeating
    and multi-pass sentinels and, unless it is a zero-fill or one-fill,
    the classification "unknown" with confidence 0.0. *)
Theorem analyze_region_total :
  (forall (data : bytes) (offset : Z),
      exists r, analyze_region data offset = Ok r)
  /\ (forall data : bytes,
         (exists e, calculate_entropy data = Ok e)
         /\ (exists c, chi_square_test data = Ok c)
         /\ (exists z, detect_zero_pattern data = Ok z)
         /\ (exists o, detect_one_pattern data = Ok o)
         /\ (exists p, detect_repeating_pattern data = Ok p)
         /\ (exists m, detect_multi_pass data default_chunk_size = Ok m))
  /\ (forall offset : Z, analyze_region [] offset = Ok (empty_record offset))
  /\ (forall (data : bytes) (offset : Z),
         (len data < 128)%Z ->
         exists r,
           analyze_region data offset = Ok r
           /\ Record_.chi_square r = 0 /\ Record_.chi_is_random r = false
           /\ Record_.repeating r = Repeating.mk false None None 0
           /\ Record_.multi_pass r = Multi.mk 0 [] 0
           /\ (Record_.zero_confidence r < 99 ->
               Record_.one_confidence r < 99 ->
               Record_.pattern_type r = "unknown"
               /\ Record_.algorithm r = "unknown"
               /\ Record_.confidence r = 0)).
Proof.
  split; [exact analyze_region_returns |].
  split.
  { intros data.
    rewrite calculate_entropy_value, chi_square_test_value,
      detect_zero_pattern_value, detect_one_pattern_value,
      detect_repeating_pattern_value.
    rewrite detect_multi_pass_value by (unfold default_chunk_size; lia).
    repeat split; eauto. }
  assert (Hshort : forall data : bytes, (len data < 128)%Z ->
            chi_value data = Chi.mk 0 false "n/a (too short)"
            /\ repeating_value data = Repeating.mk false None None 0
            /\ multi_value data default_chunk_size = Multi.mk 0 [] 0).
  { intros data Hlen. unfold chi_value, repeating_value, multi_value,
      default_chunk_size.
    destruct (len data <? 256)%Z eqn:E1; [| apply Z.ltb_ge in E1; lia].
    destruct (len data <? 128)%Z eqn:E2; [| apply Z.ltb_ge in E2; lia].
    destruct (len data <? 512 * 4)%Z eqn:E3; [| apply Z.ltb_ge in E3; lia].
    auto. }
  split.
  { intros offset. rewrite analyze_region_unfold. cbv zeta.
    destruct (Hshort [] ltac:(unfold len; simpl; lia)) as [-> [-> ->]].
    rewrite classify_unknown; cbn; try reflexivity; try lra.
    unfold empty_record, pattern_type_of. cbn.
    float_cases; try lra; reflexivity. }
  intros data offset Hlen.
  destruct (analyze_region_returns data offset) as [r Hr].
  exists r. split; [exact Hr |].
  destruct (analyze_region_fields _ _ Hr)
    as [He [Hz [Ho [Hc [Hcr [Hrep [Hmp [Hpt Hcl]]]]]]]].
  destruct (Hshort data Hlen) as [Hchi [Hrv Hmv]].
  rewrite Hchi in *. rewrite Hrv in *. rewrite Hmv in *.
  cbn in Hc, Hcr.
  repeat (split; [assumption |]).
  intros Hz99 Ho99. rewrite Hz in Hz99. rewrite Ho in Ho99.
  rewrite classify_unknown in Hcl; cbn; try assumption; try lra;
    try apply andb_false_r; try reflexivity.
  injection Hcl as <- _ <-.
  rewrite Hpt. unfold pattern_type_of. cbn.
  float_cases; try lra; try rewrite andb_false_r; auto.
Qed.

Lemma fill_value_le (data : bytes) (b : Byte.byte) (k : Z) :
  data <> [] -> (count data b * 100 <= k * len data)%Z ->
  fill_value data b <= IZR k.
Proof.
  intros Hne Hk. destruct data as [| a data]; [contradiction |].
  unfold fill_value. set (d := a :: data) in *.
  assert (HL : 0 < IZR (len d)) by (apply IZR_lt, len_pos_cons).
  rewrite <- (round_IZR k 2). apply round_le.
  apply IZR_le in Hk. rewrite !mult_IZR in Hk.
  apply Rmult_le_reg_r with (IZR (len d)); [assumption |].
  replace (IZR (count d b) / IZR (len d) * 100 * IZR (len d))
    with (IZR (count d b) * 100) by (field; lra).
  exact Hk.
Qed.

Lemma analyze_region_total_witness :
  exists r,
    analyze_region (repeat x41 100) 7 = Ok r
    /\ Record_.pattern_type r = "unknown"
    /\ Record_.algorithm r = "unknown"
    /\ Record_.confidence r = 0.
Proof.
  destruct analyze_region_total as [_ [_ [_ Hshort]]].
  destruct (Hshort (repeat x41 100) 7%Z) as [r [Hr [_ [_ [_ [_ Hunk]]]]]].
  { vm_compute. reflexivity. }
  exists r. split; [exact Hr |].
  destruct (analyze_region_fields _ _ Hr) as [_ [Hz [Ho _]]].
  apply Hunk.
  - rewrite Hz.
    apply Rle_lt_trans with (IZR 0); [| lra].
    apply fill_value_le; [discriminate | vm_compute; discriminate].
  - rewrite Ho.
    apply Rle_lt_trans with (IZR 0); [| lra].
    apply fill_value_le; [discriminate | vm_compute; discriminate].
Defined.

(** ** A detection with confidence 0.0 *)

(** C10. When none of the first four classifier rules matches and the
    multi-pass confidence is at least 50.0 but below 70.0, [analyze_region]
    returns [pattern_type = "multi_pass"] together with
    [algorithm = "unknown"] and confidence 0.0. *)
Theorem multi_pass_pattern_unknown_algorithm
  (data : bytes) (offset : Z) (r : Record_.t) :
  analyze_region data offset = Ok r ->
  Record_.zero_confidence r < 99 ->
  Record_.one_confidence r < 99 ->
  ~ (Record_.entropy r >= 7.5 /\ Record_.chi_is_random r = true) ->
  Repeating.found (Record_.repeating r) = false ->
  50 <= Multi.confidence (Record_.multi_pass r) < 70 ->
  Record_.pattern_type r = "multi_pass"
  /\ Record_.algorithm r = "unknown"
  /\ Record_.confidence r = 0.
Proof.
  intros Hr Hz Ho Hrand Hfound Hmulti.
  destruct (analyze_region_fields _ _ Hr)
    as [He [Hzc [Hoc [_ [Hcr [Hrep [Hmp [Hpt Hcl]]]]]]]].
  rewrite Hzc in Hz. rewrite Hoc in Ho. rewrite He, Hcr in Hrand.
  rewrite Hrep in Hfound. rewrite Hmp in Hmulti.
  assert (Hr3 : geb (entropy_value data) 7.5
                && Chi.is_random (chi_value data) = false).
  { float_case (geb (entropy_value data) 7.5); [| reflexivity].
    destruct (Chi.is_random (chi_value data)); [| reflexivity].
    exfalso. apply Hrand. split; [lra | reflexivity]. }
  rewrite classify_unknown in Hcl by (assumption || lra).
  injection Hcl as <- _ <-.
  split; [| split; reflexivity].
  rewrite Hpt. unfold pattern_type_of. rewrite Hr3, Hfound.
  float_case (geb (fill_value data x00) 99); [lra |].
  float_case (geb (fill_value data xff) 99); [lra |].
  float_case (geb (Multi.confidence (multi_value data default_chunk_size)) 50);
    [reflexivity | lra].
Qed.

(** ** The Gutmann rule *)

Lemma classify_not_gutmann entropy zero_conf one_conf chi multi repeating algo :
  (len (set (Multi.phases multi)) <= 3)%Z ->
  classify_wiping_algorithm entropy zero_conf one_conf chi multi repeating
  = Ok algo ->
  Algo.algorithm algo <> "gutmann_35pass".
Proof.
  intros Hcount Hc. unfold classify_wiping_algorithm in Hc.
  destruct (4 <=? len (set (Multi.phases multi)))%Z eqn:E4;
    [apply Z.leb_le in E4; lia |].
  repeat match type of Hc with
    | (if ?c then _ else _) = _ => destruct c
    | bind ?c _ = _ => destruct c; cbn [bind] in Hc
    end;
    try discriminate; injection Hc as <-; discriminate.
Qed.

Lemma analyze_region_not_gutmann (data : bytes) (offset : Z) :
  exists r,
    analyze_region data offset = Ok r
    /\ (len (set (Multi.phases (Record_.multi_pass r))) <= 3)%Z
    /\ Record_.algorithm r <> "gutmann_35pass".
Proof.
  destruct (analyze_region_returns data offset) as [r Hr].
  exists r. split; [exact Hr |].
  destruct (analyze_region_fields _ _ Hr) as [_ [_ [_ [_ [_ [_ [Hmp [_ Hcl]]]]]]]].
  assert (H3 : (len (set (Multi.phases (Record_.multi_pass r))) <= 3)%Z).
  { rewrite Hmp. apply set_size_emitted, multi_value_labels. }
  split; [exact H3 |].
  rewrite <- Hmp in Hcl.
  exact (classify_not_gutmann _ _ _ _ _ _ H3 Hcl).
Qed.

(** ** Evaluating the detectors on sample regions *)

Lemma fold_left_Zadd (l : list Z) (a : Z) :
  fold_left Z.add l a = (a + Zsum l)%Z.
Proof.
  revert a. induction l as [| x l IH]; intros a; simpl.
  - lia.
  - rewrite IH. fold (Zsum l). lia.
Qed.

Lemma Zsum_app (l1 l2 : list Z) : Zsum (l1 ++ l2) = (Zsum l1 + Zsum l2)%Z.
Proof.
  induction l1 as [| x l1 IH]; simpl; [reflexivity |].
  fold (Zsum (l1 ++ l2)). fold (Zsum l1). lia.
Qed.

Lemma Zsum_map_le {A : Type} (f g : A -> Z) (l : list A) :
  (forall x, In x l -> (f x <= g x)%Z) ->
  (Zsum (map f l) <= Zsum (map g l))%Z.
Proof.
  induction l as [| a l IH]; intros H; simpl; [lia |].
  fold (Zsum (map f l)). fold (Zsum (map g l)).
  assert (f a <= g a)%Z by (apply H; now left).
  assert (Zsum (map f l) <= Zsum (map g l))%Z
    by (apply IH; intros; apply H; now right).
  lia.
Qed.

Lemma Zsum_map_nonneg {A : Type} (f : A -> Z) (l : list A) :
  (forall x, (0 <= f x)%Z) -> (0 <= Zsum (map f l))%Z.
Proof.
  intros H. induction l as [| a l IH]; simpl; [lia |].
  fold (Zsum (map f l)). specialize (H a). lia.
Qed.

Lemma map_seq_offset {A : Type} (f : nat -> A) (s n : nat) :
  map f (seq s n) = map (fun k => f (s + k)%nat) (seq 0 n).
Proof.
  revert s f. induction n as [| n IH]; intros s f; simpl.
  - reflexivity.
  - rewrite Nat.add_0_r. f_equal.
    rewrite (IH (S s)), (IH 1%nat). apply map_ext.
    intros k. f_equal. lia.
Qed.

Lemma range2_split (a b c : Z) :
  (a <= b <= c)%Z -> range2 a c = range2 a b ++ range2 b c.
Proof.
  intros H. unfold range2.
  replace (Z.to_nat (c - a)) with (Z.to_nat (b - a) + Z.to_nat (c - b))%nat
    by lia.
  rewrite seq_app, map_app. f_equal.
  rewrite map_seq_offset. apply map_ext. intros k. lia.
Qed.

Lemma map_nth_all {A : Type} (l : list A) (d : A) :
  map (fun k => nth k l d) (seq 0 (List.length l)) = l.
Proof.
  induction l as [| x l IH]; simpl; [reflexivity |].
  f_equal. rewrite map_seq_offset. exact IH.
Qed.

Lemma map_byte_at_range (data : bytes) :
  map (byte_at data) (range2 0 (len data)) = data.
Proof.
  unfold range2, byte_at, len. rewrite map_map, Z.sub_0_r, Nat2Z.id.
  transitivity (map (fun k => nth k data x00) (seq 0 (List.length data)));
    [| apply map_nth_all].
  apply map_ext. intros k. f_equal. lia.
Qed.

Lemma Zsum_is_byte (data : bytes) (b : Byte.byte) :
  Zsum (map (is_byte b) data) = count data b.
Proof.
  induction data as [| a data IH]; [reflexivity |].
  rewrite count_cons, <- IH. unfold is_byte at 1. simpl.
  rewrite (byte_eqb_sym a b). reflexivity.
Qed.

(** If the repeating unit is one byte value throughout, a position can
    only match where the data holds that value. *)
Lemma matches_count_le_count (data : bytes) (p : Z) (b : Byte.byte) :
  (1 <= p <= len data)%Z ->
  (forall i, (0 <= i < p)%Z -> byte_at data i = b) ->
  (matches_count data p <= count data b)%Z.
Proof.
  intros Hp Hunit. unfold matches_count. rewrite fold_left_Zadd, Z.add_0_l.
  apply Z.le_trans
    with (Zsum (map (fun i => is_byte b (byte_at data i))
                    (range2 p (len data)))).
  - apply Zsum_map_le. intros i Hi. apply In_range2 in Hi.
    unfold position_matches, is_byte.
    rewrite (Hunit (i mod p)%Z) by (apply Z.mod_pos_bound; lia).
    destruct (Byte.eqb _ _); lia.
  - assert (Hc : count data b
                 = Zsum (map (fun i => is_byte b (byte_at data i))
                             (range2 0 (len data)))).
    { rewrite <- (map_map (byte_at data) (is_byte b)), map_byte_at_range.
      symmetry. apply Zsum_is_byte. }
    rewrite Hc, (@range2_split 0 p (len data)) by lia.
    rewrite map_app, Zsum_app.
    pose proof (Zsum_map_nonneg (fun i => is_byte b (byte_at data i))
                  (range2 0 p)) as H0.
    assert (0 <= Zsum (map (fun i => is_byte b (byte_at data i))
                           (range2 0 p)))%Z.
    { apply H0. intros i. unfold is_byte. destruct (Byte.eqb _ _); lia. }
    lia.
Qed.

Lemma not_found_of_scores (data : bytes) :
  (forall q, In q (candidates data) -> score data q < 0.95) ->
  Repeating.found (repeating_value data) = false.
Proof.
  intros Hs. unfold repeating_value.
  destruct (len data <? 128)%Z; [reflexivity |].
  pose proof (scan_invariant data (candidates data)) as [_ Hbest].
  fold (best data) in Hbest.
  destruct (best data) as [[p |] bs]; cbn [fst snd] in *; [| reflexivity].
  destruct Hbest as [-> [_ [pre [post [Hsplit _]]]]].
  assert (Hin : In p (candidates data)) by (rewrite Hsplit; apply in_elt).
  specialize (Hs p Hin).
  float_case (geb (score data p) 0.95); [lra | reflexivity].
Qed.

(** A region that starts with 64 equal bytes and holds that byte value in
    fewer than 95% of its positions has no repeating pattern. *)
Lemma constant_prefix_not_found (data : bytes) (b : Byte.byte) :
  (128 <= len data)%Z ->
  firstn 64 data = repeat b 64 ->
  (count data b * 100 < 95 * len data)%Z ->
  Repeating.found (repeating_value data) = false.
Proof.
  intros Hlen Hpre Hcount. apply not_found_of_scores.
  intros q Hq. apply In_range2 in Hq.
  assert (Hdiv : (len data / 4 <= len data)%Z)
    by (apply Z.div_le_upper_bound; lia).
  assert (Hm : (matches_count data q <= count data b)%Z).
  { apply matches_count_le_count; [lia |].
    intros i Hi. unfold byte_at.
    assert (Hnat : (Z.to_nat i < 64)%nat) by lia.
    rewrite <- (firstn_skipn 64 data), app_nth1
      by (rewrite length_firstn; unfold len in *; lia).
    rewrite Hpre, (nth_indep _ x00 b) by (rewrite repeat_length; lia).
    apply nth_repeat. }
  unfold score.
  assert (HL : 0 < IZR (len data)) by (apply IZR_lt; lia).
  apply Rmult_lt_reg_r with (IZR (len data)); [assumption |].
  unfold Rdiv. rewrite Rmult_assoc, Rinv_l, Rmult_1_r by lra.
  apply IZR_le in Hm. apply IZR_lt in Hcount.
  rewrite !mult_IZR in Hcount. lra.
Qed.

(** A byte value far from its expected frequency makes the chi-square
    statistic reject uniformity. *)
Lemma chi_not_random (data : bytes) (b : Z) :
  (256 <= len data)%Z -> (0 <= b < 256)%Z ->
  (310 * (256 * len data)
   <= (256 * count data (byte_of_int b) - len data) ^ 2)%Z ->
  Chi.is_random (chi_value data) = false.
Proof.
  intros Hlen Hb Hterm. unfold chi_value.
  destruct (len data <? 256)%Z eqn:E; [reflexivity |]. cbn.
  apply ltb_false.
  assert (HL : 0 < IZR (len data)) by (apply IZR_lt; lia).
  assert (Hge : chi2_term data b <= chi2_value data).
  { unfold chi2_value. apply sum_ge_term.
    - apply Forall_forall. intros t Ht. apply in_map_iff in Ht.
      destruct Ht as [b' [<- _]]. unfold chi2_term.
      apply Rmult_le_pos; [apply pow2_ge_0 |].
      left. apply Rinv_0_lt_compat. lra.
    - apply in_map, In_range2. lia. }
  apply Rle_trans with (chi2_term data b); [| assumption].
  unfold chi2_term.
  apply IZR_le in Hterm.
  change 2%Z with (Z.of_nat 2) in Hterm.
  rewrite !mult_IZR, <- pow_IZR, minus_IZR, mult_IZR in Hterm.
  set (c := IZR (count data (byte_of_int b))) in *.
  set (L := IZR (len data)) in *.
  replace ((c - L / 256) ^ 2 / (L / 256))
    with ((256 * c - L) ^ 2 / (256 * L)) by (field; lra).
  apply Rmult_le_reg_r with (256 * L); [lra |].
  unfold Rdiv. rewrite Rmult_assoc, Rinv_l, Rmult_1_r by lra.
  simpl in Hterm. lra.
Qed.

Lemma fold_append_phase_map (es : list R) (phases : list string) :
  fold_left append_phase es phases
  = fold_left append_label (map phase_label es) phases.
Proof.
  revert phases. induction es as [| e es IH]; intros phases; simpl.
  - reflexivity.
  - apply IH.
Qed.

Lemma phase_label_zeros (e : R) : e < 0.1 -> phase_label e = "zeros".
Proof. intros H. unfold phase_label. float_case (ltb e 0.1); [reflexivity | lra]. Qed.

Lemma phase_label_random (e : R) : 7.8 < e -> phase_label e = "random".
Proof.
  intros H. unfold phase_label.
  float_case (ltb e 0.1); [lra |].
  float_case (gtb e 7.8); [reflexivity | lra].
Qed.

Lemma phase_label_middle (e : R) :
  0.1 <= e <= 7.8 -> phase_label e = "ones_or_pattern".
Proof.
  intros H. unfold phase_label.
  float_case (ltb e 0.1); [lra |].
  float_case (gtb e 7.8); [lra |].
  float_case (gtb 7.9 e); [| lra].
  float_case (gtb e 0.08); [reflexivity | lra].
Qed.

Lemma entropy_zone_four : entropy_value zone_four = 2.
Proof.
  rewrite (@entropy_value_uniform zone_four 128 2);
    [simpl; lra | lia | vm_compute; reflexivity].
Qed.

Lemma sample_weak_multi_entropies :
  chunk_entropies sample_weak_multi default_chunk_size = [0; 0; 2].
Proof.
  assert (Hs : sub_chunks sample_weak_multi default_chunk_size
               = [zone_zero; zone_zero; zone_four])
    by (vm_compute; reflexivity).
  unfold chunk_entropies. rewrite Hs. cbn [map].
  now rewrite entropy_zone_zero, entropy_zone_four.
Qed.

Lemma sample_weak_multi_value :
  multi_value sample_weak_multi default_chunk_size
  = Multi.mk 50 ["zeros"; "ones_or_pattern"] (round (8 / 9) 4).
Proof.
  unfold multi_value.
  replace (len sample_weak_multi <? default_chunk_size * 4)%Z with false
    by (vm_compute; reflexivity).
  cbv zeta. rewrite sample_weak_multi_entropies.
  assert (Hv : variance_of [0; 0; 2] = 8 / 9).
  { unfold variance_of, mean_of, len. cbn [map List.length].
    rewrite !sum_cons, sum_nil. simpl. lra. }
  rewrite Hv. f_equal.
  - unfold variance_confidence. float_cases; lra.
  - rewrite fold_append_phase_map. cbn [map].
    rewrite (phase_label_zeros (e := 0)) by lra.
    rewrite (phase_label_middle (e := 2)) by lra.
    reflexivity.
Qed.

Lemma sample_weak_multi_facts :
  fill_value sample_weak_multi x00 < 99
  /\ fill_value sample_weak_multi xff < 99
  /\ Chi.is_random (chi_value sample_weak_multi) = false
  /\ Repeating.found (repeating_value sample_weak_multi) = false.
Proof.
  assert (Hne : sample_weak_multi <> []) by discriminate.
  split; [| split; [| split]].
  - apply Rle_lt_trans with (IZR 50); [| lra].
    apply fill_value_le; [exact Hne | vm_compute; discriminate].
  - apply Rle_lt_trans with (IZR 25); [| lra].
    apply fill_value_le; [exact Hne | vm_compute; discriminate].
  - apply (@chi_not_random sample_weak_multi 0);
      [vm_compute; discriminate | lia | vm_compute; discriminate].
  - apply (@constant_prefix_not_found sample_weak_multi x00);
      [vm_compute; discriminate | vm_compute; reflexivity
      | vm_compute; reflexivity].
Qed.

Lemma multi_pass_pattern_unknown_algorithm_witness :
  exists r,
    analyze_region sample_weak_multi 0 = Ok r
    /\ Multi.confidence (Record_.multi_pass r) = 50
    /\ Record_.pattern_type r = "multi_pass"
    /\ Record_.algorithm r = "unknown"
    /\ Record_.confidence r = 0.
Proof.
  destruct (analyze_region_returns sample_weak_multi 0) as [r Hr].
  exists r. split; [exact Hr |].
  destruct (analyze_region_fields _ _ Hr)
    as [He [Hz [Ho [_ [Hcr [Hrep [Hmp _]]]]]]].
  destruct sample_weak_multi_facts as [Hz' [Ho' [Hchi Hfound]]].
  assert (Hconf : Multi.confidence (Record_.multi_pass r) = 50)
    by (rewrite Hmp, sample_weak_multi_value; reflexivity).
  split; [exact Hconf |].
  apply (multi_pass_pattern_unknown_algorithm _ _ Hr).
  - rewrite Hz. exact Hz'.
  - rewrite Ho. exact Ho'.
  - rewrite Hcr, Hchi. intros [_ H]. discriminate H.
  - rewrite Hrep. exact Hfound.
  - rewrite Hconf. lra.
Defined.

Lemma sample_ten_zones_entropies :
  chunk_entropies sample_ten_zones default_chunk_size
  = [0; 0; 8; 0; 0; 8; 0; 0; 8].
Proof.
  assert (Hs : sub_chunks sample_ten_zones default_chunk_size
               = [zone_zero; zone_one; zone_random;
                  zone_zero; zone_one; zone_random;
                  zone_zero; zone_one; zone_random])
    by (vm_compute; reflexivity).
  unfold chunk_entropies. rewrite Hs. cbn [map].
  now rewrite entropy_zone_zero, entropy_zone_one, entropy_zone_random.
Qed.

Lemma sample_ten_zones_value :
  multi_value sample_ten_zones default_chunk_size
  = Multi.mk 90 ["zeros"; "random"; "zeros"; "random"; "zeros"; "random"]
             (round (128 / 9) 4).
Proof.
  unfold multi_value.
  replace (len sample_ten_zones <? default_chunk_size * 4)%Z with false
    by (vm_compute; reflexivity).
  cbv zeta. rewrite sample_ten_zones_entropies.
  assert (Hv : variance_of [0; 0; 8; 0; 0; 8; 0; 0; 8] = 128 / 9).
  { unfold variance_of, mean_of, len. cbn [map List.length].
    rewrite !sum_cons, sum_nil. simpl. lra. }
  rewrite Hv. f_equal.
  - unfold variance_confidence. float_cases; lra.
  - rewrite fold_append_phase_map. cbn [map].
    rewrite (phase_label_zeros (e := 0)) by lra.
    rewrite (phase_label_random (e := 8)) by lra.
    reflexivity.
Qed.

Lemma sample_ten_zones_facts :
  fill_value sample_ten_zones x00 < 99
  /\ fill_value sample_ten_zones xff < 99
  /\ Chi.is_random (chi_value sample_ten_zones) = false
  /\ Repeating.found (repeating_value sample_ten_zones) = false.
Proof.
  assert (Hne : sample_ten_zones <> []) by discriminate.
  split; [| split; [| split]].
  - apply Rle_lt_trans with (IZR 41); [| lra].
    apply fill_value_le; [exact Hne | vm_compute; discriminate].
  - apply Rle_lt_trans with (IZR 31); [| lra].
    apply fill_value_le; [exact Hne | vm_compute; discriminate].
  - apply (@chi_not_random sample_ten_zones 0);
      [vm_compute; discriminate | lia | vm_compute; discriminate].
  - apply (@constant_prefix_not_found sample_ten_zones x00);
      [vm_compute; discriminate | vm_compute; reflexivity
      | vm_compute; reflexivity].
Qed.

(** C1. The rule for [gutmann_35pass] needs four distinct phase labels,
    but [detect_multi_pass] emits at most three, so [analyze_region] never
    returns [gutmann_35pass]; on ten alternating zones of zero-fill,
    one-fill and random content the multi-pass confidence is 90.0, the
    distinct labels are "zeros" and "random", and the result is
    [dod_5220_7pass] with confidence 90.0. *)
Theorem gutmann_rule_unreachable :
  (forall (data : bytes) (offset : Z),
      exists r,
        analyze_region data offset = Ok r
        /\ (len (set (Multi.phases (Record_.multi_pass r))) <= 3)%Z
        /\ Record_.algorithm r <> "gutmann_35pass")
  /\ exists r,
      analyze_region sample_ten_zones 0 = Ok r
      /\ Multi.confidence (Record_.multi_pass r) = 90
      /\ set (Multi.phases (Record_.multi_pass r)) = ["zeros"; "random"]
      /\ Record_.pattern_type r = "multi_pass"
      /\ Record_.algorithm r = "dod_5220_7pass"
      /\ Record_.confidence r = 90.
Proof.
  split; [exact analyze_region_not_gutmann |].
  destruct (analyze_region_returns sample_ten_zones 0) as [r Hr].
  exists r. split; [exact Hr |].
  destruct (analyze_region_fields _ _ Hr)
    as [_ [_ [_ [_ [_ [_ [Hmp [Hpt Hcl]]]]]]]].
  destruct sample_ten_zones_facts as [Hz [Ho [Hchi Hfound]]].
  rewrite sample_ten_zones_value in Hmp, Hpt, Hcl.
  rewrite Hmp. cbn [Multi.confidence Multi.phases].
  split; [reflexivity |]. split; [vm_compute; reflexivity |].
  assert (Hvar : 3.5 < round (128 / 9) 4).
  { apply Rlt_le_trans with (IZR 4); [lra |].
    rewrite <- (round_IZR 4 4). apply round_le. lra. }
  unfold pattern_type_of in Hpt.
  unfold classify_wiping_algorithm in Hcl.
  rewrite Hchi, Hfound, andb_false_r in Hpt, Hcl.
  cbn [Multi.confidence Multi.phases Multi.entropy_variance] in Hpt, Hcl.
  replace (set ["zeros"; "random"; "zeros"; "random"; "zeros"; "random"])
    with ["zeros"; "random"] in Hcl by (vm_compute; reflexivity).
  cbn [mem existsb String.eqb Ascii.eqb Bool.eqb orb andb len List.length
       Z.of_nat Pos.of_succ_nat Pos.succ Z.leb Z.compare Pos.compare
       Pos.compare_cont] in Hcl.
  revert Hpt Hcl.
  float_case (geb (fill_value sample_ten_zones x00) 99); [lra |].
  float_case (geb (fill_value sample_ten_zones xff) 99); [lra |].
  float_case (geb 90 70); [| lra].
  float_case (geb 90 50); [| lra].
  float_case (gtb (round (128 / 9) 4) 3.5); [| lra].
  intros Hpt [= <- _ <-]. auto.
Qed.

(** * Further properties of the analyzer *)

Lemma round_near (x : R) (n : nat) :
  round x n - / (2 * 10 ^ n) <= x <= round x n + / (2 * 10 ^ n).
Proof.
  unfold round. pose proof (pow10_pos n) as Hp.
  pose proof (round_half_even_near (x * 10 ^ n)) as [Hlo Hhi].
  set (z := IZR (round_half_even (x * 10 ^ n))) in *.
  split; apply Rmult_le_reg_r with (10 ^ n); try assumption.
  - replace ((z / 10 ^ n - / (2 * 10 ^ n)) * 10 ^ n) with (z - 1 / 2)
      by (field; lra).
    exact Hlo.
  - replace ((z / 10 ^ n + / (2 * 10 ^ n)) * 10 ^ n) with (z + 1 / 2)
      by (field; lra).
    exact Hhi.
Qed.

Lemma len_cons {A : Type} (a : A) (l : list A) : len (a :: l) = (1 + len l)%Z.
Proof. unfold len. simpl List.length. lia. Qed.

Lemma count_two_le (data : bytes) (a b : Byte.byte) :
  a <> b -> (count data a + count data b <= len data)%Z.
Proof.
  intros Hab. induction data as [| x data IH].
  - rewrite !count_nil. unfold len. simpl. lia.
  - rewrite !count_cons, len_cons.
    destruct (Byte.eqb a x) eqn:Ea, (Byte.eqb b x) eqn:Eb; try lia.
    apply Byte.byte_dec_bl in Ea, Eb. congruence.
Qed.

Lemma fill_value_raw (data : bytes) (b : Byte.byte) :
  data <> [] ->
  fill_value data b = round (IZR (count data b) / IZR (len data) * 100) 2.
Proof. intros H. destruct data; [contradiction | reflexivity]. Qed.

(** ** Zero-fill and one-fill confidences *)

(** X1. The zero-fill and one-fill confidences are percentages in
    [0, 100], and no region reaches 99.0 on both: the first two rules of the
    classifier never compete. *)
Theorem fill_confidences_exclusive (data : bytes) :
  exists zero_conf one_conf,
    detect_zero_pattern data = Ok zero_conf
    /\ detect_one_pattern data = Ok one_conf
    /\ 0 <= zero_conf <= 100
    /\ 0 <= one_conf <= 100
    /\ ~ (zero_conf >= 99 /\ one_conf >= 99).
Proof.
  exists (fill_value data x00), (fill_value data xff).
  split; [apply detect_zero_pattern_value |].
  split; [apply detect_one_pattern_value |].
  split; [apply fill_value_range |].
  split; [apply fill_value_range |].
  intros [Hz Ho].
  destruct data as [| a data]; [simpl in Hz; lra |].
  set (d := a :: data) in *.
  assert (Hne : d <> []) by discriminate.
  rewrite (fill_value_raw x00 Hne) in Hz. rewrite (fill_value_raw xff Hne) in Ho.
  assert (HL : 0 < IZR (len d)) by (apply IZR_lt, len_pos_cons).
  pose proof (count_two_le d (a := x00) (b := xff) ltac:(discriminate)) as Hc.
  apply IZR_le in Hc. rewrite plus_IZR in Hc.
  pose proof (round_near (IZR (count d x00) / IZR (len d) * 100) 2) as [Hz' _].
  pose proof (round_near (IZR (count d xff) / IZR (len d) * 100) 2) as [Ho' _].
  assert (Hsum : IZR (count d x00) / IZR (len d) * 100
                 + IZR (count d xff) / IZR (len d) * 100 <= 100).
  { apply Rmult_le_reg_r with (IZR (len d)); [assumption |].
    replace ((IZR (count d x00) / IZR (len d) * 100
              + IZR (count d xff) / IZR (len d) * 100) * IZR (len d))
      with ((IZR (count d x00) + IZR (count d xff)) * 100) by (field; lra).
    lra. }
  simpl in Hz', Ho'. lra.
Qed.

(** ** Regions of one byte value *)

Lemma count_repeat_other (a b : Byte.byte) (n : nat) :
  a <> b -> count (repeat a n) b = 0%Z.
Proof.
  intros Hab. induction n as [| n IH]; [reflexivity |].
  cbn [repeat]. rewrite count_cons, IH.
  destruct (Byte.eqb b a) eqn:E; [| reflexivity].
  apply Byte.byte_dec_bl in E. congruence.
Qed.

Lemma fill_value_none (a b : Byte.byte) (n : nat) :
  a <> b -> fill_value (repeat a n) b = 0.
Proof.
  intros Hab. destruct n as [| n]; [reflexivity |].
  rewrite fill_value_raw by discriminate.
  rewrite count_repeat_other by assumption.
  replace (0 / IZR (len (repeat a (S n))) * 100) with 0
    by (unfold Rdiv; ring).
  apply (round_IZR 0).
Qed.

(** X2. A non-empty region of zero bytes, of any length from one byte up,
    is reported as a zero-fill with confidence 100.0, and a non-empty region
    of 0xFF bytes as a one-fill with confidence 100.0; in both the entropy
    is 0.0. *)
Theorem analyze_region_fills (n : nat) (offset : Z) :
  (0 < n)%nat ->
  (exists r,
      analyze_region (repeat x00 n) offset = Ok r
      /\ Record_.pattern_type r = "zero_fill"
      /\ Record_.algorithm r = "simple_zero"
      /\ Record_.algorithm_label r = "Zero-fill (0x00)"
      /\ Record_.confidence r = 100
      /\ Record_.entropy r = 0
      /\ Record_.size r = Z.of_nat n
      /\ Record_.offset r = offset)
  /\ (exists r,
         analyze_region (repeat xff n) offset = Ok r
         /\ Record_.pattern_type r = "one_fill"
         /\ Record_.algorithm r = "simple_one"
         /\ Record_.algorithm_label r = "One-fill (0xFF)"
         /\ Record_.confidence r = 100
         /\ Record_.entropy r = 0
         /\ Record_.size r = Z.of_nat n
         /\ Record_.offset r = offset).
Proof.
  intros Hn. split.
  - rewrite analyze_region_unfold. cbv zeta.
    rewrite (fill_value_all x00 Hn), entropy_value_constant.
    unfold classify_wiping_algorithm, pattern_type_of.
    float_case (geb 100 99); [| lra]. cbn [bind].
    eexists. split; [reflexivity |]. cbn.
    unfold len. rewrite repeat_length. repeat split; reflexivity.
  - rewrite analyze_region_unfold. cbv zeta.
    rewrite (fill_value_all xff Hn), entropy_value_constant.
    rewrite fill_value_none by discriminate.
    unfold classify_wiping_algorithm, pattern_type_of.
    float_case (geb 0 99); [lra |].
    float_case (geb 100 99); [| lra]. cbn [bind].
    eexists. split; [reflexivity |]. cbn.
    unfold len. rewrite repeat_length. repeat split; reflexivity.
Qed.

Lemma analyze_region_fills_witness :
  (0 < 1)%nat
  /\ exists r,
      analyze_region [x00] 0 = Ok r
      /\ Record_.pattern_type r = "zero_fill"
      /\ Record_.confidence r = 100.
Proof.
  assert (H : (0 < 1)%nat) by lia.
  split; [exact H |].
  destruct (proj1 (analyze_region_fills 0 H)) as [r [Hr [Hp [_ [_ [Hc _]]]]]].
  exists r. auto.
Defined.

(** ** The classification and the pattern type, case by case *)

(** The outcomes of the two cascades of [analyze_region], side by side. *)
Lemma classify_cases entropy zero_conf one_conf chi multi repeating algo :
  classify_wiping_algorithm entropy zero_conf one_conf chi multi repeating
  = Ok algo ->
  let pattern_type :=
    pattern_type_of entropy zero_conf one_conf chi multi repeating in
  (99 <= zero_conf
   /\ Algo.algorithm algo = "simple_zero" /\ Algo.confidence algo = zero_conf
   /\ pattern_type = "zero_fill")
  \/ (99 <= one_conf
      /\ Algo.algorithm algo = "simple_one" /\ Algo.confidence algo = one_conf
      /\ pattern_type = "one_fill")
  \/ (7.5 <= entropy
      /\ Algo.algorithm algo = "random_only"
      /\ Algo.confidence algo = round (entropy / 8 * 100) 1
      /\ pattern_type = "random")
  \/ (Repeating.found repeating = true
      /\ Algo.algorithm algo = "alternating_pattern"
      /\ Algo.confidence algo = Repeating.confidence repeating
      /\ pattern_type = "repeating")
  \/ (70 <= Multi.confidence multi
      /\ (Algo.algorithm algo = "dod_5220_7pass"
          \/ Algo.algorithm algo = "dod_5220_3pass")
      /\ Algo.confidence algo = Multi.confidence multi
      /\ pattern_type = "multi_pass")
  \/ ((4 <= len (set (Multi.phases multi)))%Z
      /\ Algo.algorithm algo = "gutmann_35pass")
  \/ (algo = unknown_algo
      /\ ((50 <= Multi.confidence multi /\ pattern_type = "multi_pass")
          \/ (Multi.confidence multi < 50 /\ pattern_type = "unknown"))).
Proof.
  intros Hc. cbv zeta.
  unfold classify_wiping_algorithm in Hc. unfold pattern_type_of.
  float_case (geb zero_conf 99).
  { injection Hc as <-. left. cbn. auto. }
  float_case (geb one_conf 99).
  { injection Hc as <-. right; left. cbn. auto. }
  destruct (geb entropy 7.5 && Chi.is_random chi) eqn:E3.
  { apply andb_prop in E3. destruct E3 as [E3 _]. apply geb_true in E3.
    rewrite div_ok in Hc by lra. cbn [bind] in Hc. injection Hc as <-.
    right; right; left. cbn. auto. }
  destruct (Repeating.found repeating) eqn:E4.
  { destruct (Repeating.pattern repeating); cbn [bind] in Hc;
      [| discriminate].
    injection Hc as <-. right; right; right; left. cbn. auto. }
  float_case (geb (Multi.confidence multi) 70).
  - assert (Hmp : geb (Multi.confidence multi) 50 = true)
      by (apply geb_true; lra).
    rewrite Hmp.
    destruct (mem "zeros" _ && mem "random" _ && _).
    { right; right; right; right; left.
      destruct (mem "ones" _ || gtb _ 3.5); injection Hc as <-; cbn; auto. }
    destruct (4 <=? len (set (Multi.phases multi)))%Z eqn:E6.
    { apply Z.leb_le in E6. injection Hc as <-.
      right; right; right; right; right; left. cbn. auto. }
    injection Hc as <-. do 6 right. split; [reflexivity |]. left. split; [lra | reflexivity].
  - injection Hc as <-. do 6 right. split; [reflexivity |].
    float_case (geb (Multi.confidence multi) 50); [left | right];
      (split; [lra | reflexivity]).
Qed.

Lemma multi_value_confidence_cases (data : bytes) (cs : Z) :
  let c := Multi.confidence (multi_value data cs) in
  c = 0 \/ c = 10 \/ c = 50 \/ c = 75 \/ c = 90.
Proof.
  cbv zeta. unfold multi_value. destruct (len data <? cs * 4)%Z; cbn.
  - now left.
  - right. destruct (variance_confidence_cases
                       (variance_of (chunk_entropies data cs)))
      as [-> | [-> | [-> | ->]]]; auto.
Qed.

(** *** Bounds on the match fraction *)

Lemma Zsum_map_unit {A : Type} (f : A -> Z) (l : list A) :
  (forall x, (0 <= f x <= 1)%Z) ->
  (0 <= Zsum (map f l) <= Z.of_nat (List.length l))%Z.
Proof.
  intros H. induction l as [| a l IH]; simpl; [lia |].
  fold (Zsum (map f l)). specialize (H a). lia.
Qed.

Lemma matches_count_range (data : bytes) (p : Z) :
  (0 <= p)%Z -> (0 <= matches_count data p <= len data)%Z.
Proof.
  intros Hp. unfold matches_count. rewrite fold_left_Zadd, Z.add_0_l.
  pose proof (@Zsum_map_unit Z (position_matches data p)
                (range2 p (len data))) as H.
  assert (Hlen : (Z.of_nat (List.length (range2 p (len data))) <= len data)%Z).
  { unfold range2. rewrite length_map, length_seq.
    pose proof (len_nonneg data). lia. }
  assert (Hunit : forall i, (0 <= position_matches data p i <= 1)%Z).
  { intros i. unfold position_matches. destruct (Byte.eqb _ _); lia. }
  specialize (H Hunit). lia.
Qed.

Lemma score_range (data : bytes) (p : Z) :
  data <> [] -> (0 <= p)%Z -> 0 <= score data p <= 1.
Proof.
  intros Hne Hp. unfold score.
  pose proof (matches_count_range data Hp) as [H0 H1].
  apply IZR_le in H0, H1.
  assert (HL : 0 < IZR (len data)).
  { apply IZR_lt. destruct data; [contradiction | apply len_pos_cons]. }
  split.
  - apply Rmult_le_pos; [assumption | left; now apply Rinv_0_lt_compat].
  - apply Rmult_le_reg_r with (IZR (len data)); [assumption |].
    unfold Rdiv. rewrite Rmult_assoc, Rinv_l by lra. lra.
Qed.

Lemma best_range (data : bytes) : data <> [] -> 0 <= snd (best data) <= 1.
Proof.
  intros Hne.
  pose proof (scan_invariant data (candidates data)) as [_ Hbest].
  fold (best data) in Hbest.
  destruct (best data) as [[p |] bs]; cbn [fst snd] in *.
  - destruct Hbest as [-> [_ [pre [post [Hsplit _]]]]].
    assert (Hin : In p (candidates data)) by (rewrite Hsplit; apply in_elt).
    apply In_range2 in Hin. apply score_range; [assumption | lia].
  - subst. lra.
Qed.

Lemma hex_length (data : bytes) :
  String.length (hex data) = (2 * List.length data)%nat.
Proof.
  induction data as [| b data IH]; simpl; [reflexivity |].
  rewrite IH. lia.
Qed.

Lemma round_le_IZR (x : R) (k : Z) (n : nat) : x <= IZR k -> round x n <= IZR k.
Proof. intros H. rewrite <- (round_IZR k n). now apply round_le. Qed.

Lemma round_ge_IZR (x : R) (k : Z) (n : nat) : IZR k <= x -> IZR k <= round x n.
Proof. intros H. rewrite <- (round_IZR k n). now apply round_le. Qed.

Lemma repeating_value_invariant (data : bytes) :
  let r := repeating_value data in
  0 <= Repeating.confidence r <= 100
  /\ (Repeating.found r = true ->
      95 <= Repeating.confidence r
      /\ exists p h,
          Repeating.period r = Some p /\ (1 <= p <= 64)%Z
          /\ Repeating.pattern r = Some h
          /\ Z.of_nat (String.length h) = (2 * p)%Z)
  /\ (Repeating.found r = false ->
      Repeating.period r = None /\ Repeating.pattern r = None
      /\ Repeating.confidence r <= 95).
Proof.
  cbv zeta.
  unfold repeating_value.
  destruct (len data <? 128)%Z eqn:E.
  { cbn. split; [lra |]. split; [discriminate |]. intros _.
    repeat split; lra. }
  apply Z.ltb_ge in E.
  assert (Hne : data <> []) by (intros ->; unfold len in E; simpl in E; lia).
  pose proof (best_range Hne) as Hbs.
  pose proof (scan_invariant data (candidates data)) as [_ Hbest].
  fold (best data) in Hbest.
  destruct (best data) as [[p |] bs]; cbn [fst snd] in *.
  - assert (Hconf : 0 <= round (bs * 100) 2 <= 100).
    { split; [apply (@round_ge_IZR _ 0 2) | apply (@round_le_IZR _ 100 2)]; lra. }
    destruct Hbest as [_ [_ [pre [post [Hsplit _]]]]].
    assert (Hin : In p (candidates data)) by (rewrite Hsplit; apply in_elt).
    apply In_range2 in Hin.
    float_case (geb bs 0.95);
      cbn [Repeating.found Repeating.period Repeating.pattern
           Repeating.confidence].
    + split; [assumption |]. split; [| discriminate]. intros _.
      split.
      * apply (@round_ge_IZR _ 95 2). lra.
      * exists p, (hex (slice_to data p)).
        repeat split; try lia.
        rewrite hex_length, slice_to_firstn by lia.
        rewrite firstn_length_le; [lia |].
        unfold len in *.
        assert (Z.of_nat (List.length data) / 4
                <= Z.of_nat (List.length data))%Z
          by (apply Z.div_le_upper_bound; lia).
        lia.
    + split; [assumption |]. split; [discriminate |]. intros _.
      repeat split. apply (@round_le_IZR _ 95 2). lra.
  - subst bs. cbn. rewrite Rmult_0_l, (round_IZR 0).
    split; [lra |]. split; [discriminate |]. intros _. repeat split; lra.
Qed.


(** ** The result of the repeating-pattern detector *)

(** X3. In every result of [detect_repeating_pattern] the confidence is a
    percentage. When [found] holds the period is between 1 and 64, the
    pattern is the hex string of that many bytes (two digits each) and the
    confidence is at least 95.0; otherwise period and pattern are [None]
    and the confidence is at most 95.0. *)
Theorem detect_repeating_pattern_result (data : bytes) :
  exists r,
    detect_repeating_pattern data = Ok r
    /\ 0 <= Repeating.confidence r <= 100
    /\ (Repeating.found r = true ->
        95 <= Repeating.confidence r
        /\ exists p h,
            Repeating.period r = Some p /\ (1 <= p <= 64)%Z
            /\ Repeating.pattern r = Some h
            /\ Z.of_nat (String.length h) = (2 * p)%Z)
    /\ (Repeating.found r = false ->
        Repeating.period r = None /\ Repeating.pattern r = None
        /\ Repeating.confidence r <= 95).
Proof.
  exists (repeating_value data).
  split; [apply detect_repeating_pattern_value |].
  apply repeating_value_invariant.
Qed.

Lemma sample_aa55_found :
  Repeating.found (repeating_value sample_aa55) = true.
Proof.
  unfold repeating_value.
  replace (len sample_aa55 <? 128)%Z with false by (vm_compute; reflexivity).
  rewrite best_of_best_count by (intros H; vm_compute in H; discriminate H).
  replace (best_count sample_aa55) with (Some 2%Z, 198%Z)
    by (vm_compute; reflexivity).
  replace (len sample_aa55) with 200%Z by (vm_compute; reflexivity).
  cbn [fst snd].
  float_case (geb (IZR 198 / IZR 200) 0.95); [reflexivity | lra].
Qed.

Lemma detect_repeating_pattern_result_witness :
  exists r,
    detect_repeating_pattern sample_aa55 = Ok r
    /\ 95 <= Repeating.confidence r <= 100.
Proof.
  destruct (detect_repeating_pattern_result sample_aa55)
    as [r [Hr [Hrange [Hfound _]]]].
  exists r. split; [exact Hr |].
  rewrite detect_repeating_pattern_value in Hr. injection Hr as Hr.
  split; [| apply Hrange].
  apply Hfound. rewrite <- Hr. exact sample_aa55_found.
Defined.

(** ** The record of a region *)

Lemma analyze_region_cases (data : bytes) (offset : Z) (r : Record_.t) :
  analyze_region data offset = Ok r ->
  Record_.size r = len data
  /\ Record_.offset r = offset
  /\ exists algo,
      classify_wiping_algorithm (entropy_value data) (fill_value data x00)
        (fill_value data xff) (chi_value data)
        (multi_value data default_chunk_size) (repeating_value data)
      = Ok algo
      /\ Record_.algorithm r = Algo.algorithm algo
      /\ Record_.confidence r = Algo.confidence algo
      /\ Record_.pattern_type r
         = pattern_type_of (entropy_value data) (fill_value data x00)
             (fill_value data xff) (chi_value data)
             (multi_value data default_chunk_size) (repeating_value data).
Proof.
  rewrite analyze_region_unfold. cbv zeta.
  destruct (classify_wiping_algorithm _ _ _ _ _ _) as [algo | e];
    cbn [bind]; [| discriminate].
  intros [= <-]. cbn. repeat split. exists algo. auto.
Qed.

Lemma multi_value_phase_count (data : bytes) :
  ~ (4 <= len (set (Multi.phases (multi_value data default_chunk_size))))%Z.
Proof.
  pose proof (set_size_emitted (multi_value_labels data default_chunk_size)).
  lia.
Qed.

Ltac agree_cases :=
  repeat split; intros; try discriminate; try reflexivity; auto;
  repeat match goal with H : _ \/ _ |- _ => destruct H end;
  try discriminate.

(** X4. In every record of [analyze_region] the coarse pattern type and the
    algorithm agree: zero_fill goes with simple_zero, one_fill with
    simple_one, random with random_only, repeating with alternating_pattern;
    a DoD algorithm has pattern type multi_pass; pattern type unknown has
    algorithm unknown; and multi_pass comes with a DoD algorithm or with
    unknown. The record carries the offset it was given and the length of
    the region. *)
Theorem record_pattern_and_algorithm_agree
  (data : bytes) (offset : Z) (r : Record_.t) :
  analyze_region data offset = Ok r ->
  Record_.size r = len data
  /\ Record_.offset r = offset
  /\ (Record_.pattern_type r = "zero_fill"
      <-> Record_.algorithm r = "simple_zero")
  /\ (Record_.pattern_type r = "one_fill"
      <-> Record_.algorithm r = "simple_one")
  /\ (Record_.pattern_type r = "random"
      <-> Record_.algorithm r = "random_only")
  /\ (Record_.pattern_type r = "repeating"
      <-> Record_.algorithm r = "alternating_pattern")
  /\ (Record_.algorithm r = "dod_5220_7pass"
      \/ Record_.algorithm r = "dod_5220_3pass" ->
      Record_.pattern_type r = "multi_pass")
  /\ (Record_.pattern_type r = "multi_pass" ->
      Record_.algorithm r = "dod_5220_7pass"
      \/ Record_.algorithm r = "dod_5220_3pass"
      \/ Record_.algorithm r = "unknown")
  /\ (Record_.pattern_type r = "unknown" -> Record_.algorithm r = "unknown").
Proof.
  intros Hr.
  destruct (analyze_region_cases _ _ Hr)
    as [Hsize [Hoff [algo [Hc [Halg [_ Hpt]]]]]].
  split; [exact Hsize |]. split; [exact Hoff |].
  rewrite Halg, Hpt.
  pose proof (multi_value_phase_count data) as H4.
  destruct (classify_cases _ _ _ _ _ _ Hc)
    as [[_ [-> [_ ->]]] | [[_ [-> [_ ->]]] | [[_ [-> [_ ->]]]
       | [[_ [-> [_ ->]]] | [[_ [Hdod [_ ->]]] | [[Hfour _]
       | [-> [[_ ->] | [_ ->]]]]]]]]].
  1-4: agree_cases.
  - destruct Hdod as [-> | ->]; agree_cases.
  - contradiction.
  - cbn. agree_cases.
  - cbn. agree_cases.
Qed.

Lemma record_pattern_and_algorithm_agree_witness :
  exists r,
    analyze_region sample_weak_multi 64 = Ok r
    /\ Record_.size r = 2048%Z
    /\ Record_.offset r = 64%Z
    /\ (Record_.pattern_type r = "unknown" -> Record_.algorithm r = "unknown").
Proof.
  destruct (analyze_region_returns sample_weak_multi 64) as [r Hr].
  exists r. split; [exact Hr |].
  destruct (record_pattern_and_algorithm_agree _ _ Hr)
    as [Hs [Ho [_ [_ [_ [_ [_ [_ Hu]]]]]]]].
  split; [rewrite Hs; vm_compute; reflexivity |]. auto.
Defined.

(** X5. The confidence of every record is a percentage; it is 0.0 exactly
    when the algorithm is unknown, and every named algorithm comes with a
    confidence of at least 75.0. *)
Theorem record_confidence_range (data : bytes) (offset : Z) (r : Record_.t) :
  analyze_region data offset = Ok r ->
  0 <= Record_.confidence r <= 100
  /\ (Record_.algorithm r = "unknown" <-> Record_.confidence r = 0)
  /\ (Record_.algorithm r <> "unknown" -> 75 <= Record_.confidence r).
Proof.
  intros Hr.
  destruct (analyze_region_cases _ _ Hr) as [_ [_ [algo [Hc [Halg [Hconf _]]]]]].
  rewrite Halg, Hconf.
  pose proof (multi_value_phase_count data) as H4.
  pose proof (fill_value_range data x00) as Hz.
  pose proof (fill_value_range data xff) as Ho.
  pose proof (entropy_value_range data) as He.
  pose proof (repeating_value_invariant data) as [Hrc [Hrf _]].
  pose proof (multi_value_confidence_cases data default_chunk_size) as Hm.
  cbv zeta in Hm, Hrc, Hrf.
  destruct (classify_cases _ _ _ _ _ _ Hc)
    as [[Hg [-> [-> _]]] | [[Hg [-> [-> _]]] | [[Hg [-> [-> _]]]
       | [[Hg [-> [-> _]]] | [[Hg [Hdod [-> _]]] | [[Hfour _]
       | [-> _]]]]]]].
  - repeat split; try lra; intros; try discriminate; try lra.
  - repeat split; try lra; intros; try discriminate; try lra.
  - assert (Hlo : 93 <= round (entropy_value data / 8 * 100) 1)
      by (apply (@round_ge_IZR _ 93 1); lra).
    assert (Hhi : round (entropy_value data / 8 * 100) 1 <= 100)
      by (apply (@round_le_IZR _ 100 1); lra).
    repeat split; try lra; intros; try discriminate; try lra.
  - destruct (Hrf Hg) as [H95 _].
    repeat split; try lra; intros; try discriminate; try lra.
  - assert (Hmc : 75 <= Multi.confidence (multi_value data default_chunk_size)
                  <= 100)
      by (destruct Hm as [E | [E | [E | [E | E]]]]; rewrite E in *; lra).
    destruct Hdod as [-> | ->];
      repeat split; try lra; intros; try discriminate; try lra.
  - contradiction.
  - cbn. repeat split; try lra; intros; try reflexivity; congruence.
Qed.

Lemma record_confidence_range_witness :
  exists r,
    analyze_region sample_ten_zones 0 = Ok r
    /\ 75 <= Record_.confidence r <= 100.
Proof.
  destruct (analyze_region_returns sample_ten_zones 0) as [r Hr].
  exists r. split; [exact Hr |].
  destruct (record_confidence_range _ _ Hr) as [[_ Hhi] [_ Hnamed]].
  split; [| exact Hhi]. apply Hnamed.
  destruct (analyze_region_not_gutmann sample_ten_zones 0) as [r' [Hr' _]].
  destruct (analyze_region_cases _ _ Hr) as [_ [_ [algo [Hc [Halg _]]]]].
  rewrite Halg.
  destruct sample_ten_zones_facts as [Hz [Ho [Hchi Hfound]]].
  unfold classify_wiping_algorithm in Hc.
  rewrite sample_ten_zones_value, Hchi, Hfound, andb_false_r in Hc.
  cbn [Multi.confidence Multi.phases Multi.entropy_variance] in Hc.
  replace (set ["zeros"; "random"; "zeros"; "random"; "zeros"; "random"])
    with ["zeros"; "random"] in Hc by (vm_compute; reflexivity).
  cbn [mem existsb String.eqb Ascii.eqb Bool.eqb orb andb len List.length
       Z.of_nat Pos.of_succ_nat Pos.succ Z.leb Z.compare Pos.compare
       Pos.compare_cont] in Hc.
  revert Hc.
  float_case (geb (fill_value sample_ten_zones x00) 99); [lra |].
  float_case (geb (fill_value sample_ten_zones xff) 99); [lra |].
  float_case (geb 90 70); [| lra].
  destruct (gtb _ 3.5); intros [= <-]; discriminate.
Defined.

(** ** The result of the multi-pass heuristic *)

Lemma no_adjacent_repeat_snoc (l : list string) (x : string) :
  no_adjacent_repeat l -> (l = [] \/ last l EmptyString <> x) ->
  no_adjacent_repeat (l ++ [x]).
Proof.
  induction l as [| a l IH]; intros Hl Hlast; [exact I |].
  destruct l as [| b l].
  - cbn. split; [| exact I]. destruct Hlast as [H | H]; [discriminate | exact H].
  - destruct Hl as [Hab Hl]. cbn [app no_adjacent_repeat].
    split; [exact Hab |]. apply IH; [exact Hl |].
    right. destruct Hlast as [H | H]; [discriminate | exact H].
Qed.

Lemma append_label_no_repeat (phases : list string) (label : string) :
  no_adjacent_repeat phases -> no_adjacent_repeat (append_label phases label).
Proof.
  intros H. unfold append_label. destruct phases as [| a l]; [exact I |].
  destruct (String.eqb (last (a :: l) EmptyString) label) eqn:E; [exact H |].
  apply no_adjacent_repeat_snoc; [exact H |].
  right. now apply String.eqb_neq.
Qed.

Lemma fold_append_label_no_repeat (labels phases : list string) :
  no_adjacent_repeat phases ->
  no_adjacent_repeat (fold_left append_label labels phases).
Proof.
  revert phases. induction labels as [| x labels IH]; intros phases H; simpl.
  - exact H.
  - apply IH, append_label_no_repeat, H.
Qed.

Lemma append_label_length (phases : list string) (label : string) :
  (List.length phases <= List.length (append_label phases label)
   <= S (List.length phases))%nat
  /\ append_label phases label <> [].
Proof.
  unfold append_label. destruct phases as [| a l].
  - cbn. split; [lia | discriminate].
  - destruct (String.eqb _ _).
    + split; [lia | discriminate].
    + rewrite length_app. cbn. split; [lia | discriminate].
Qed.

Lemma fold_append_label_length (labels phases : list string) :
  (List.length (fold_left append_label labels phases)
   <= List.length phases + List.length labels)%nat
  /\ (labels <> [] \/ phases <> [] ->
      fold_left append_label labels phases <> []).
Proof.
  revert phases. induction labels as [| x labels IH]; intros phases; simpl.
  - split; [lia |]. intros [H | H]; [contradiction | exact H].
  - destruct (IH (append_label phases x)) as [IH1 IH2].
    destruct (append_label_length phases x) as [Hl Hne].
    split; [lia |]. intros _. apply IH2. now right.
Qed.

(** The sum of squared deviations, expanded. *)
Lemma sum_sq_dev (m : R) (es : list R) :
  sum (map (fun e => (e - m) ^ 2) es)
  = sum (map (fun e => e ^ 2) es) - 2 * m * sum es
    + INR (List.length es) * m ^ 2.
Proof.
  induction es as [| e es IH].
  - simpl. rewrite !sum_nil. lra.
  - cbn [map List.length]. rewrite !sum_cons, IH, S_INR. lra.
Qed.

Lemma variance_of_range (es : list R) :
  es <> [] -> Forall (fun e => 0 <= e <= 8) es ->
  0 <= variance_of es <= 16.
Proof.
  intros Hne Hes. unfold variance_of.
  set (m := mean_of es).
  assert (Hn : 0 < IZR (len es)).
  { apply IZR_lt. destruct es; [contradiction | apply len_pos_cons]. }
  assert (Hlen : IZR (len es) = INR (List.length es))
    by (unfold len; now rewrite <- INR_IZR_INZ).
  assert (Hsum : sum es = IZR (len es) * m)
    by (unfold m, mean_of; field; lra).
  split.
  - apply Rmult_le_pos; [| left; now apply Rinv_0_lt_compat].
    apply sum_nonneg, Forall_forall. intros x Hx.
    apply in_map_iff in Hx. destruct Hx as [e [<- _]]. apply pow2_ge_0.
  - assert (Hsq : sum (map (fun e => e ^ 2) es) <= sum (map (fun e => 8 * e) es)).
    { apply sum_map_le. intros e He. rewrite Forall_forall in Hes.
      specialize (Hes e He). nra. }
    assert (H8 : sum (map (fun e => 8 * e) es) = 8 * sum es).
    { clear. induction es as [| e es IH]; simpl.
      - rewrite sum_nil. lra.
      - rewrite !sum_cons, IH. lra. }
    rewrite sum_sq_dev, <- Hlen, Hsum.
    apply Rmult_le_reg_r with (IZR (len es)); [assumption |].
    unfold Rdiv. rewrite Rmult_assoc, Rinv_l, Rmult_1_r by lra.
    rewrite H8, Hsum in Hsq.
    assert (0 <= (m - 4) ^ 2) by apply pow2_ge_0.
    nra.
Qed.

(** X6. For a positive sub-chunk size the result of [detect_multi_pass]
    has a confidence among 0.0, 10.0, 50.0, 75.0, 90.0, which is 0.0 exactly
    on a region shorter than four sub-chunks; its phase list has no two
    equal neighbours, at most one entry per sampled sub-chunk, and is empty
    exactly on a short region; its entropy variance lies in [0, 16]. *)
Theorem detect_multi_pass_result (data : bytes) (chunk_size : Z) :
  (0 < chunk_size)%Z ->
  exists m,
    detect_multi_pass data chunk_size = Ok m
    /\ (Multi.confidence m = 0 \/ Multi.confidence m = 10
        \/ Multi.confidence m = 50 \/ Multi.confidence m = 75
        \/ Multi.confidence m = 90)
    /\ (Multi.confidence m = 0 <-> (len data < chunk_size * 4)%Z)
    /\ no_adjacent_repeat (Multi.phases m)
    /\ (List.length (Multi.phases m) <= chunk_count data chunk_size)%nat
    /\ (Multi.phases m = [] <-> (len data < chunk_size * 4)%Z)
    /\ 0 <= Multi.entropy_variance m <= 16.
Proof.
  intros Hcs. exists (multi_value data chunk_size).
  split; [now apply detect_multi_pass_value |].
  split; [apply multi_value_confidence_cases |].
  unfold multi_value.
  destruct (len data <? chunk_size * 4)%Z eqn:E.
  { apply Z.ltb_lt in E. cbn.
    repeat split; intros; try assumption; try reflexivity; try lia; lra. }
  apply Z.ltb_ge in E. cbv zeta.
  cbn [Multi.confidence Multi.phases Multi.entropy_variance].
  set (es := chunk_entropies data chunk_size).
  assert (Hlen : List.length es = chunk_count data chunk_size).
  { unfold es, chunk_entropies, sub_chunks, chunk_starts.
    now rewrite !length_map, length_seq. }
  pose proof (chunk_count_ge_3 data Hcs E) as H3.
  assert (Hne : es <> []) by (intros H; rewrite H in Hlen; simpl in Hlen; lia).
  assert (Hes : Forall (fun e => 0 <= e <= 8) es).
  { unfold es, chunk_entropies. apply Forall_forall. intros e He.
    apply in_map_iff in He. destruct He as [c [<- _]].
    apply entropy_value_range. }
  pose proof (variance_of_range Hne Hes) as [Hv0 Hv16].
  clearbody es. rewrite fold_append_phase_map.
  destruct (fold_append_label_length (map phase_label es) []) as [Hl Hnonempty].
  rewrite length_map in Hl.
  split.
  { split; [| lia]. intros H.
    destruct (variance_confidence_cases (variance_of es))
      as [H' | [H' | [H' | H']]]; rewrite H' in H; lra. }
  split; [apply fold_append_label_no_repeat; exact I |].
  split; [unfold float in *; simpl plus in Hl; lia |].
  split.
  { split; [| lia]. intros H. exfalso. revert H. apply Hnonempty. left.
    destruct es; [contradiction | discriminate]. }
  split; [apply (@round_ge_IZR _ 0 4) | apply (@round_le_IZR _ 16 4)];
    assumption.
Qed.

Lemma detect_multi_pass_result_witness :
  (0 < 512)%Z
  /\ exists m,
      detect_multi_pass sample_ten_zones 512 = Ok m
      /\ no_adjacent_repeat (Multi.phases m)
      /\ 0 <= Multi.entropy_variance m <= 16.
Proof.
  assert (H : (0 < 512)%Z) by lia.
  split; [exact H |].
  destruct (detect_multi_pass_result sample_ten_zones H)
    as [m [Hm [_ [_ [Hrep [_ [_ Hvar]]]]]]].
  exists m. auto.
Defined.

(** ** The chi-square statistic *)

Lemma chi2_value_nonneg (data : bytes) :
  (256 <= len data)%Z -> 0 <= chi2_value data.
Proof.
  intros Hlen. apply IZR_le in Hlen. unfold chi2_value.
  apply sum_nonneg, Forall_forall. intros t Ht.
  apply in_map_iff in Ht. destruct Ht as [b [<- _]]. unfold chi2_term.
  apply Rmult_le_pos; [apply pow2_ge_0 |].
  left. apply Rinv_0_lt_compat. lra.
Qed.

(** X7. On 256 bytes or more [chi_square_test] returns a non-negative
    statistic and never the "too short" bucket, and its two verdicts agree:
    [is_random] is true exactly for the three "uniform" p-value buckets and
    false exactly for the two "non-uniform" ones. *)
Theorem chi_square_test_verdicts_agree (data : bytes) :
  (256 <= len data)%Z ->
  exists c,
    chi_square_test data = Ok c
    /\ 0 <= Chi.chi_square c
    /\ Chi.p_estimate c <> "n/a (too short)"
    /\ (Chi.is_random c = true
        <-> Chi.p_estimate c = ">0.20 (strongly uniform)"
            \/ Chi.p_estimate c = ">0.10 (likely uniform)"
            \/ Chi.p_estimate c = ">0.05 (possibly uniform)")
    /\ (Chi.is_random c = false
        <-> Chi.p_estimate c = "<0.05 (non-uniform)"
            \/ Chi.p_estimate c = "<0.01 (strongly non-uniform)").
Proof.
  intros Hlen. exists (chi_value data).
  split; [apply chi_square_test_value |].
  unfold chi_value.
  destruct (len data <? 256)%Z eqn:E; [apply Z.ltb_lt in E; lia |].
  cbn [Chi.chi_square Chi.is_random Chi.p_estimate].
  split; [apply (@round_ge_IZR _ 0 2), chi2_value_nonneg, Hlen |].
  unfold p_bucket.
  float_case (ltb (chi2_value data) 270);
    [ float_case (ltb (chi2_value data) 310); [| lra] |
      float_case (ltb (chi2_value data) 293);
      [ float_case (ltb (chi2_value data) 310); [| lra] |
        float_case (ltb (chi2_value data) 310);
        [| float_case (ltb (chi2_value data) 350) ] ] ];
    agree_cases.
Qed.

Lemma chi_square_test_verdicts_agree_witness :
  (256 <= len zone_random)%Z
  /\ exists c, chi_square_test zone_random = Ok c /\ 0 <= Chi.chi_square c.
Proof.
  assert (H : (256 <= len zone_random)%Z) by (vm_compute; discriminate).
  split; [exact H |].
  destruct (chi_square_test_verdicts_agree zone_random H) as [c [Hc [H0 _]]].
  exists c. auto.
Defined.

(** *** The statistic in closed form *)

Lemma Zsum_map_add {A : Type} (f g : A -> Z) (l : list A) :
  Zsum (map (fun x => (f x + g x)%Z) l) = (Zsum (map f l) + Zsum (map g l))%Z.
Proof.
  induction l as [| a l IH]; simpl; [reflexivity |].
  fold (Zsum (map (fun x => (f x + g x)%Z) l)).
  fold (Zsum (map f l)). fold (Zsum (map g l)). lia.
Qed.

Lemma one_index_per_byte (a : Byte.byte) :
  Zsum (map (fun b => if Byte.eqb (byte_of_int b) a then 1%Z else 0%Z)
            (range2 0 256)) = 1%Z.
Proof. destruct a; vm_compute; reflexivity. Qed.

Lemma Zsum_byte_counts (data : bytes) : Zsum (byte_counts data) = len data.
Proof.
  unfold byte_counts. induction data as [| a data IH].
  - unfold len. simpl List.length. 
    rewrite (map_ext _ (fun _ => 0%Z)) by (intros; apply count_nil).
    induction (range2 0 256); simpl; [reflexivity | assumption].
  - rewrite (map_ext _ (fun b => ((if Byte.eqb (byte_of_int b) a then 1 else 0)
                                  + count data (byte_of_int b))%Z))
      by (intros; apply count_cons).
    rewrite Zsum_map_add, IH, one_index_per_byte, len_cons. reflexivity.
Qed.

Lemma byte_counts_nonneg (data : bytes) :
  Forall (fun c => (0 <= c)%Z) (byte_counts data).
Proof.
  apply Forall_forall. intros c Hc. apply in_map_iff in Hc.
  destruct Hc as [b [<- _]]. apply count_nonneg.
Qed.

Lemma In_byte_counts (data : bytes) (a : Byte.byte) :
  In (count data a) (byte_counts data).
Proof.
  unfold byte_counts. apply in_map_iff.
  exists (Z.of_N (Byte.to_N a)). split.
  - unfold byte_of_int. now rewrite N2Z.id, Byte.of_to_N.
  - apply In_range2. pose proof (Byte.to_N_bounded a). lia.
Qed.

Lemma Zsum_nonneg (cs : list Z) :
  Forall (fun c => (0 <= c)%Z) cs -> (0 <= Zsum cs)%Z.
Proof. induction 1; simpl; [lia |]. fold (Zsum l). lia. Qed.

Lemma Zsum_squares_le (cs : list Z) :
  Forall (fun c => (0 <= c)%Z) cs ->
  (Zsum (map (fun c => (c * c)%Z) cs) <= Zsum cs * Zsum cs)%Z.
Proof.
  induction 1 as [| c cs Hc Hcs IH]; simpl; [lia |].
  fold (Zsum (map (fun c => (c * c)%Z) cs)). fold (Zsum cs).
  pose proof (Zsum_nonneg Hcs). nia.
Qed.

Lemma Zsum_squares_ge (cs : list Z) (c : Z) :
  In c cs -> (c * c <= Zsum (map (fun c => (c * c)%Z) cs))%Z.
Proof.
  induction cs as [| x cs IH]; intros Hin; [destruct Hin |].
  simpl. fold (Zsum (map (fun c => (c * c)%Z) cs)).
  assert (0 <= Zsum (map (fun c => (c * c)%Z) cs))%Z
    by (apply Zsum_map_nonneg; intros; nia).
  destruct Hin as [-> | Hin]; [nia | specialize (IH Hin); nia].
Qed.

Lemma sum_map_IZR (cs : list Z) : sum (map IZR cs) = IZR (Zsum cs).
Proof.
  induction cs as [| c cs IH]; simpl.
  - now rewrite sum_nil.
  - rewrite sum_cons, IH. fold (Zsum cs). now rewrite plus_IZR.
Qed.

Lemma sum_map_div {A : Type} (g : A -> R) (d : R) (l : list A) :
  sum (map (fun x => g x / d) l) = sum (map g l) / d.
Proof.
  induction l as [| a l IH]; simpl.
  - rewrite sum_nil. unfold Rdiv. ring.
  - rewrite !sum_cons, IH. unfold Rdiv. ring.
Qed.

(** [chi2 = 256 * (sum of squared counts) / len - len]. *)
Lemma chi2_value_closed_form (data : bytes) :
  data <> [] ->
  chi2_value data
  = 256 * IZR (Zsum (map (fun c => (c * c)%Z) (byte_counts data)))
    / IZR (len data) - IZR (len data).
Proof.
  intros Hne.
  assert (HL : 0 < IZR (len data)).
  { apply IZR_lt. destruct data; [contradiction | apply len_pos_cons]. }
  unfold chi2_value, chi2_term. rewrite sum_map_div.
  set (E := IZR (len data) / 256).
  assert (Hmap : map (fun b => (IZR (count data (byte_of_int b)) - E) ^ 2)
                     (range2 0 256)
                 = map (fun e => (e - E) ^ 2) (map IZR (byte_counts data))).
  { unfold byte_counts. now rewrite !map_map. }
  rewrite Hmap, sum_sq_dev, sum_map_IZR, Zsum_byte_counts.
  assert (Hsq : sum (map (fun e => e ^ 2) (map IZR (byte_counts data)))
                = IZR (Zsum (map (fun c => (c * c)%Z) (byte_counts data)))).
  { rewrite <- sum_map_IZR, !map_map. f_equal. apply map_ext.
    intros c. rewrite mult_IZR. ring. }
  rewrite Hsq.
  assert (Hn : INR (List.length (map IZR (byte_counts data))) = 256).
  { unfold byte_counts, range2. rewrite !length_map, length_seq.
    rewrite INR_IZR_INZ. reflexivity. }
  rewrite Hn. unfold E. field. lra.
Qed.

Lemma chi2_value_le (data : bytes) :
  data <> [] -> chi2_value data <= 255 * IZR (len data).
Proof.
  intros Hne.
  assert (HL : 0 < IZR (len data)).
  { apply IZR_lt. destruct data; [contradiction | apply len_pos_cons]. }
  rewrite chi2_value_closed_form by assumption.
  pose proof (Zsum_squares_le (byte_counts_nonneg data)) as Hsq.
  rewrite Zsum_byte_counts in Hsq. apply IZR_le in Hsq.
  rewrite mult_IZR in Hsq.
  set (S2 := IZR (Zsum (map (fun c => (c * c)%Z) (byte_counts data)))) in *.
  assert (H : 256 * S2 / IZR (len data) <= 256 * IZR (len data)).
  { apply Rmult_le_reg_r with (IZR (len data)); [assumption |].
    unfold Rdiv. rewrite Rmult_assoc, Rinv_l, Rmult_1_r by lra. nra. }
  lra.
Qed.

Lemma count_repeat_same (a : Byte.byte) (n : nat) :
  count (repeat a n) a = Z.of_nat n.
Proof.
  induction n as [| n IH]; [reflexivity |].
  cbn [repeat]. rewrite count_cons, byte_eqb_refl, IH. lia.
Qed.

Lemma chi2_value_constant (a : Byte.byte) (n : nat) :
  (0 < n)%nat -> chi2_value (repeat a n) = IZR (255 * Z.of_nat n).
Proof.
  intros Hn.
  assert (Hne : repeat a n <> []) by (destruct n; [lia | discriminate]).
  assert (Hlen : len (repeat a n) = Z.of_nat n)
    by (unfold len; now rewrite repeat_length).
  rewrite chi2_value_closed_form by assumption.
  pose proof (Zsum_squares_le (byte_counts_nonneg (repeat a n))) as Hle.
  pose proof (Zsum_squares_ge _ _ (In_byte_counts (repeat a n) a)) as Hge.
  rewrite Zsum_byte_counts, Hlen in Hle. rewrite count_repeat_same in Hge.
  assert (Heq : Zsum (map (fun c => (c * c)%Z) (byte_counts (repeat a n)))
                = (Z.of_nat n * Z.of_nat n)%Z) by lia.
  rewrite Heq, Hlen, !mult_IZR.
  assert (0 < IZR (Z.of_nat n)) by (apply IZR_lt; lia).
  field. lra.
Qed.

Lemma Zsum_map_const {A : Type} (c : Z) (l : list A) :
  Zsum (map (fun _ => c) l) = (Z.of_nat (List.length l) * c)%Z.
Proof.
  induction l as [| x l IH]; [reflexivity |].
  cbn [map List.length]. unfold Zsum in *. cbn [fold_right]. rewrite IH. lia.
Qed.

Lemma uniform_len (data : bytes) (c : Z) :
  (forall b, count data b = c) -> len data = (256 * c)%Z.
Proof.
  intros Hcount. rewrite <- Zsum_byte_counts. unfold byte_counts.
  rewrite (map_ext _ (fun _ => c)) by (intros; apply Hcount).
  rewrite Zsum_map_const. reflexivity.
Qed.

Lemma chi2_value_uniform (data : bytes) (c : Z) :
  (0 < c)%Z -> (forall b, count data b = c) -> chi2_value data = 0.
Proof.
  intros Hc Hcount.
  assert (Hbc : byte_counts data = map (fun _ => c) (range2 0 256)).
  { unfold byte_counts. apply map_ext. intros b. apply Hcount. }
  pose proof (uniform_len data Hcount) as Hlen.
  assert (Hne : data <> []).
  { intros ->. change (len (@nil Byte.byte)) with 0%Z in Hlen. lia. }
  rewrite chi2_value_closed_form by assumption.
  rewrite Hbc, map_map, Hlen.
  rewrite Zsum_map_const.
  replace (Z.of_nat (List.length (range2 0 256))) with 256%Z
    by (vm_compute; reflexivity).
  rewrite !mult_IZR. assert (0 < IZR c) by now apply IZR_lt.
  field. lra.
Qed.

(** X8. On 256 bytes or more the chi-square statistic lies between 0 and
    255 times the length. A region of one repeated byte value reaches the
    upper end and is never judged random; a region in which every byte
    value occurs equally often has statistic 0.0 and is judged random with
    the ">0.20" bucket. *)
Theorem chi_square_test_extremes :
  (forall data : bytes,
      (256 <= len data)%Z ->
      exists c,
        chi_square_test data = Ok c
        /\ 0 <= Chi.chi_square c <= 255 * IZR (len data))
  /\ (forall (a : Byte.byte) (n : nat),
         (256 <= n)%nat ->
         chi_square_test (repeat a n)
         = Ok (Chi.mk (IZR (255 * Z.of_nat n)) false
                      "<0.01 (strongly non-uniform)"))
  /\ (forall (data : bytes) (c : Z),
         (0 < c)%Z -> (forall b, count data b = c) ->
         chi_square_test data
         = Ok (Chi.mk 0 true ">0.20 (strongly uniform)")).
Proof.
  split; [| split].
  - intros data Hlen. exists (chi_value data).
    split; [apply chi_square_test_value |].
    unfold chi_value.
    destruct (len data <? 256)%Z eqn:E; [apply Z.ltb_lt in E; lia |].
    cbn [Chi.chi_square].
    assert (Hne : data <> [])
      by (intros ->; unfold len in Hlen; simpl in Hlen; lia).
    split; [apply (@round_ge_IZR _ 0 2), chi2_value_nonneg, Hlen |].
    rewrite <- mult_IZR. apply round_le_IZR. rewrite mult_IZR.
    now apply chi2_value_le.
  - intros a n Hn. rewrite chi_square_test_value. unfold chi_value.
    assert (Hlen : len (repeat a n) = Z.of_nat n)
      by (unfold len; now rewrite repeat_length).
    rewrite Hlen.
    destruct (Z.of_nat n <? 256)%Z eqn:E; [apply Z.ltb_lt in E; lia |].
    rewrite chi2_value_constant by lia.
    assert (Hbig : 350 <= IZR (255 * Z.of_nat n)).
    { apply (IZR_le 350). lia. }
    f_equal. f_equal.
    + apply round_IZR.
    + apply ltb_false. lra.
    + unfold p_bucket. float_cases; try lra; reflexivity.
  - intros data c Hc Hcount. rewrite chi_square_test_value. unfold chi_value.
    assert (Hlen : (256 <= len data)%Z).
    { pose proof (uniform_len data Hcount). lia. }
    destruct (len data <? 256)%Z eqn:E; [apply Z.ltb_lt in E; lia |].
    rewrite (chi2_value_uniform data Hc Hcount).
    f_equal. f_equal.
    + apply (round_IZR 0).
    + apply ltb_true. lra.
    + unfold p_bucket. float_cases; try lra; reflexivity.
Qed.

Lemma count_zone_random (b : Byte.byte) : count zone_random b = 2%Z.
Proof. destruct b; vm_compute; reflexivity. Qed.

Lemma chi_square_test_extremes_witness :
  chi_square_test (repeat x00 256)
  = Ok (Chi.mk (IZR (255 * 256)) false "<0.01 (strongly non-uniform)")
  /\ chi_square_test zone_random
     = Ok (Chi.mk 0 true ">0.20 (strongly uniform)")
  /\ exists c, chi_square_test sample_weak_multi = Ok c
               /\ 0 <= Chi.chi_square c <= 255 * 2048.
Proof.
  destruct chi_square_test_extremes as [Hrange [Hconst Hunif]].
  split; [apply (Hconst x00 256%nat); lia |].
  split; [apply (Hunif zone_random 2%Z); [lia | exact count_zone_random] |].
  destruct (Hrange sample_weak_multi) as [c [Hc Hb]];
    [vm_compute; discriminate |].
  exists c. split; [exact Hc |].
  replace (len sample_weak_multi) with 2048%Z in Hb by (vm_compute; reflexivity).
  exact Hb.
Defined.

(** ** Uniform regions *)

Lemma sorted_NoDup (l : list Z) : StronglySorted Z.lt l -> NoDup l.
Proof.
  induction 1 as [| a l _ IH Hall]; constructor; [| exact IH].
  intros Hin. rewrite Forall_forall in Hall. specialize (Hall a Hin). lia.
Qed.

Lemma NoDup_all_bytes : NoDup all_bytes.
Proof.
  apply (NoDup_map_inv (fun b => Z.of_N (Byte.to_N b))).
  replace (map (fun b => Z.of_N (Byte.to_N b)) all_bytes) with (range2 0 256)
    by (vm_compute; reflexivity).
  apply sorted_NoDup, range2_sorted.
Qed.

Lemma get_In_keys (m : list (Byte.byte * Z)) (k : Byte.byte) :
  get m k 0 <> 0%Z -> In k (map fst m).
Proof.
  induction m as [| [k' c] m IH]; simpl; intros H; [contradiction |].
  destruct (Byte.eqb k' k) eqn:E.
  - left. now apply Byte.byte_dec_bl.
  - right. now apply IH.
Qed.

Lemma values_Counter_uniform (data : bytes) (c : Z) :
  (0 < c)%Z -> (forall b, count data b = c) ->
  values (Counter data) = repeat c 256.
Proof.
  intros Hc Hcount.
  assert (Hlen : List.length (Counter data) = 256%nat).
  { apply Nat.le_antisymm.
    - pose proof (Counter_size data) as H. unfold values in H.
      now rewrite length_map in H.
    - rewrite <- (length_map fst).
      change 256%nat with (List.length all_bytes).
      apply NoDup_incl_length; [apply NoDup_all_bytes |].
      intros b _. apply get_In_keys. rewrite get_Counter, Hcount. lia. }
  unfold values.
  rewrite (map_ext_in _ (fun _ => c)).
  - rewrite <- Hlen. clear. induction (Counter data); simpl; congruence.
  - intros [k v] Hin. apply Counter_entry in Hin. cbn. now rewrite Hin.
Qed.

(** X9. A region in which every one of the 256 byte values occurs equally
    often is analysed as random: entropy 8.0, chi-square 0.0, pattern type
    "random", algorithm "random_only", confidence 100.0. *)
Theorem analyze_region_uniform (data : bytes) (c : Z) (offset : Z) :
  (0 < c)%Z -> (forall b, count data b = c) ->
  exists r,
    analyze_region data offset = Ok r
    /\ Record_.entropy r = 8
    /\ Record_.chi_square r = 0
    /\ Record_.chi_is_random r = true
    /\ Record_.pattern_type r = "random"
    /\ Record_.algorithm r = "random_only"
    /\ Record_.confidence r = 100.
Proof.
  intros Hc Hcount.
  pose proof (uniform_len data Hcount) as Hlen.
  assert (Hne : data <> []).
  { intros ->. change (len (@nil Byte.byte)) with 0%Z in Hlen. lia. }
  assert (He : entropy_value data = 8).
  { rewrite (@entropy_value_uniform data c 8);
      [simpl; lra | assumption | now apply values_Counter_uniform]. }
  assert (Hchi : chi_value data = Chi.mk 0 true ">0.20 (strongly uniform)").
  { unfold chi_value.
    destruct (len data <? 256)%Z eqn:E; [apply Z.ltb_lt in E; lia |].
    rewrite (chi2_value_uniform data Hc Hcount). f_equal.
    - apply (round_IZR 0).
    - apply ltb_true. lra.
    - unfold p_bucket. float_cases; try lra; reflexivity. }
  assert (Hfill : forall b, fill_value data b < 99).
  { intros b. apply Rle_lt_trans with (IZR 1); [| lra].
    apply fill_value_le; [assumption |]. rewrite Hcount, Hlen. lia. }
  rewrite analyze_region_unfold. cbv zeta. rewrite He, Hchi.
  unfold classify_wiping_algorithm, pattern_type_of.
  pose proof (Hfill x00). pose proof (Hfill xff).
  float_case (geb (fill_value data x00) 99); [lra |].
  float_case (geb (fill_value data xff) 99); [lra |].
  float_case (geb 8 7.5); [| lra].
  cbn [andb Chi.is_random]. rewrite div_ok by lra. cbn [bind].
  eexists. split; [reflexivity |]. cbn.
  repeat split.
  replace (8 / 8 * 100) with 100 by lra. apply (round_IZR 100).
Qed.

Lemma analyze_region_uniform_witness :
  exists r,
    analyze_region zone_random 0 = Ok r
    /\ Record_.pattern_type r = "random"
    /\ Record_.confidence r = 100.
Proof.
  destruct (@analyze_region_uniform zone_random 2 0)
    as [r [Hr [_ [_ [_ [Hp [_ Hc]]]]]]];
    [lia | exact count_zone_random |].
  exists r. auto.
Defined.

(** ** Periodic regions *)

Lemma range2_length (a b : Z) :
  Z.of_nat (List.length (range2 a b)) = Z.max 0 (b - a).
Proof. unfold range2. rewrite length_map, length_seq. lia. Qed.

Lemma matches_count_le (data : bytes) (p : Z) :
  (0 <= p <= len data)%Z -> (matches_count data p <= len data - p)%Z.
Proof.
  intros Hp. unfold matches_count. rewrite fold_left_Zadd, Z.add_0_l.
  pose proof (@Zsum_map_unit Z (position_matches data p)
                (range2 p (len data))) as H.
  rewrite range2_length in H.
  assert (Hunit : forall i, (0 <= position_matches data p i <= 1)%Z).
  { intros i. unfold position_matches. destruct (Byte.eqb _ _); lia. }
  specialize (H Hunit). lia.
Qed.

Lemma matches_count_periodic (data : bytes) (p : Z) :
  (0 <= p <= len data)%Z -> periodic data p ->
  matches_count data p = (len data - p)%Z.
Proof.
  intros Hp Hper. unfold matches_count. rewrite fold_left_Zadd, Z.add_0_l.
  rewrite (map_ext_in _ (fun _ => 1%Z)).
  - rewrite Zsum_map_const, range2_length. lia.
  - intros i Hi. apply In_range2 in Hi. unfold position_matches.
    rewrite (Hper i Hi). now rewrite byte_eqb_refl.
Qed.

Lemma score_le_of_count (data : bytes) (p : Z) (m : Z) :
  data <> [] -> (matches_count data p <= m)%Z ->
  score data p <= IZR m / IZR (len data).
Proof.
  intros Hne Hm. unfold score.
  assert (HL : 0 < IZR (len data)).
  { apply IZR_lt. destruct data; [contradiction | apply len_pos_cons]. }
  apply Rmult_le_compat_r; [left; now apply Rinv_0_lt_compat |].
  now apply IZR_le.
Qed.

(** What the detector finds on a region that repeats its first [p] bytes. *)
Lemma periodic_found (data : bytes) (p : Z) :
  (1 <= p <= 64)%Z -> (128 <= len data)%Z -> (20 * p <= len data)%Z ->
  periodic data p ->
  Repeating.found (repeating_value data) = true
  /\ exists q, Repeating.period (repeating_value data) = Some q
               /\ (1 <= q <= p)%Z
               /\ IZR (len data - p) / IZR (len data) <= score data q.
Proof.
  intros Hp Hlen H20 Hper.
  assert (Hne : data <> [])
    by (intros ->; change (len (@nil Byte.byte)) with 0%Z in Hlen; lia).
  assert (HL : 0 < IZR (len data)) by (apply IZR_lt; lia).
  assert (Hcand : In p (candidates data)).
  { apply In_range2.
    assert (p + 1 <= len data / 4)%Z by (apply Z.div_le_lower_bound; lia).
    lia. }
  assert (Hsp : score data p = IZR (len data - p) / IZR (len data)).
  { unfold score. now rewrite matches_count_periodic by (assumption || lia). }
  assert (H95 : 0.95 <= score data p).
  { rewrite Hsp. apply Rmult_le_reg_r with (IZR (len data)); [assumption |].
    unfold Rdiv. rewrite Rmult_assoc, Rinv_l, Rmult_1_r by lra.
    rewrite minus_IZR. apply IZR_le in H20. rewrite mult_IZR in H20. lra. }
  unfold repeating_value.
  destruct (len data <? 128)%Z eqn:E; [apply Z.ltb_lt in E; lia |].
  pose proof (scan_invariant data (candidates data)) as [Hmax Hbest].
  fold (best data) in Hmax, Hbest.
  destruct (best data) as [[q |] bs]; cbn [fst snd] in *.
  - destruct Hbest as [-> [_ [pre [post [Hsplit Hpre]]]]].
    specialize (Hmax p Hcand).
    float_case (geb (score data q) 0.95); [| lra].
    cbn [Repeating.found Repeating.period].
    split; [reflexivity |]. exists q.
    assert (Hq : In q (candidates data)) by (rewrite Hsplit; apply in_elt).
    pose proof Hq as Hqr. apply In_range2 in Hqr.
    split; [reflexivity |]. split; [| now rewrite <- Hsp].
    split; [lia |].
    destruct (Z_le_gt_dec q p) as [Hle | Hgt]; [exact Hle | exfalso].
    assert (Hpq : score data p < score data q).
    { apply Hpre. eapply sorted_before; eauto using range2_sorted. lia. }
    assert (Hdiv : (len data / 4 <= len data)%Z)
      by (apply Z.div_le_upper_bound; lia).
    assert (Hq0 : (0 <= q <= len data)%Z) by lia.
    pose proof (@score_le_of_count data q (len data - q) Hne
                  (@matches_count_le data q Hq0)) as Hsq.
    assert (IZR (len data - q) / IZR (len data)
            < IZR (len data - p) / IZR (len data)).
    { apply Rmult_lt_compat_r; [now apply Rinv_0_lt_compat |].
      apply IZR_lt. lia. }
    lra.
  - subst bs. specialize (Hmax p Hcand). lra.
Qed.

(** X10. A region of at least 128 bytes that repeats its first [p] bytes
    throughout, with [1 <= p <= 64] and [20 * p <= len], is always found by
    [detect_repeating_pattern]; the period reported is at most [p] and
    matches at least [(len - p) / len] of the region. *)
Theorem detect_repeating_pattern_periodic (data : bytes) (p : Z) :
  (1 <= p <= 64)%Z -> (128 <= len data)%Z -> (20 * p <= len data)%Z ->
  periodic data p ->
  exists r,
    detect_repeating_pattern data = Ok r
    /\ Repeating.found r = true
    /\ exists q, Repeating.period r = Some q
                 /\ (1 <= q <= p)%Z
                 /\ IZR (len data - p) / IZR (len data) <= score data q.
Proof.
  intros Hp Hlen H20 Hper. exists (repeating_value data).
  split; [apply detect_repeating_pattern_value |].
  now apply periodic_found.
Qed.

Lemma periodic_constant (b : Byte.byte) (n : nat) : periodic (repeat b n) 1.
Proof.
  intros i Hi. unfold byte_at.
  unfold len in Hi. rewrite repeat_length in Hi.
  rewrite !(nth_indep _ x00 b) by (rewrite repeat_length; rewrite ?Z.mod_1_r; lia).
  now rewrite !nth_repeat.
Qed.

Lemma detect_repeating_pattern_periodic_witness :
  exists r,
    detect_repeating_pattern (repeat x41 200) = Ok r
    /\ Repeating.found r = true
    /\ Repeating.period r = Some 1%Z.
Proof.
  destruct (@detect_repeating_pattern_periodic (repeat x41 200) 1)
    as [r [Hr [Hf [q [Hq [Hrange _]]]]]].
  - lia.
  - vm_compute. discriminate.
  - vm_compute. discriminate.
  - apply periodic_constant.
  - exists r. split; [exact Hr |]. split; [exact Hf |].
    rewrite Hq. f_equal. lia.
Defined.

Lemma count_pos_In_inv (data : bytes) (b : Byte.byte) :
  (0 < count data b)%Z -> In b data.
Proof.
  induction data as [| a data IH]; [rewrite count_nil; lia |].
  rewrite count_cons. destruct (Byte.eqb b a) eqn:E.
  - intros _. left. symmetry. now apply Byte.byte_dec_bl.
  - intros H. right. apply IH. lia.
Qed.

Lemma Counter_keys_in (data : bytes) (k : Byte.byte) :
  In k (map fst (Counter data)) -> In k data.
Proof.
  intros Hin. apply in_map_iff in Hin. destruct Hin as [[k' c] [Hk Hin]].
  cbn in Hk. subst k'.
  pose proof (Counter_entry _ _ _ Hin) as Hc.
  assert (1 <= c)%Z.
  { apply Counter_values_pos with data. unfold values.
    apply in_map_iff. now exists (k, c). }
  apply count_pos_In_inv. lia.
Qed.

Lemma periodic_values (data : bytes) (p : Z) (x : Byte.byte) :
  (1 <= p)%Z -> periodic data p -> In x data ->
  In x (firstn (Z.to_nat p) data).
Proof.
  intros Hp Hper Hin.
  destruct (In_nth _ _ x00 Hin) as [i [Hi Hx]].
  assert (Hunit : forall j, (0 <= j < p)%Z -> (j < len data)%Z ->
                            In (byte_at data j) (firstn (Z.to_nat p) data)).
  { intros j Hj Hjl. unfold byte_at.
    rewrite <- (firstn_skipn (Z.to_nat p) data) at 1.
    rewrite app_nth1 by (rewrite length_firstn; unfold len in Hjl; lia).
    apply nth_In. rewrite length_firstn. unfold len in Hjl. lia. }
  destruct (Z_lt_ge_dec (Z.of_nat i) p) as [Hlt | Hge].
  - specialize (Hunit (Z.of_nat i) ltac:(lia) ltac:(unfold len; lia)).
    unfold byte_at in Hunit. now rewrite Nat2Z.id, Hx in Hunit.
  - assert (Hi' : (p <= Z.of_nat i < len data)%Z) by (unfold len; lia).
    pose proof (Hper _ Hi') as Heq. unfold byte_at at 1 in Heq.
    rewrite Nat2Z.id, Hx in Heq. rewrite Heq.
    pose proof (Z.mod_pos_bound (Z.of_nat i) p ltac:(lia)).
    apply Hunit; lia.
Qed.

Lemma log2R_64 : log2R 64 = 6.
Proof.
  unfold log2R. replace 64 with (2 ^ 6) by lra.
  rewrite ln_pow by lra. pose proof ln2_pos. simpl INR. field. lra.
Qed.

Lemma periodic_entropy (data : bytes) (p : Z) :
  (1 <= p <= 64)%Z -> periodic data p -> entropy_value data <= 6.
Proof.
  intros Hp Hper. destruct data as [| a data]; [simpl; lra |].
  set (d := a :: data) in *.
  assert (Hne : d <> []) by discriminate.
  change (entropy_value d) with (round (shannon d) 4).
  apply (@round_le_IZR _ 6 4).
  assert (Hpos : Forall (fun c => (1 <= c)%Z) (values (Counter d))).
  { apply Forall_forall. intros c. apply Counter_values_pos. }
  assert (Hsum : Zsum (values (Counter d)) = len d)
    by apply values_Counter_sum.
  assert (Hcs : values (Counter d) <> []).
  { intros E. rewrite E in Hsum. simpl in Hsum.
    pose proof (len_pos_cons a data). fold d in H. lia. }
  unfold shannon.
  eapply Rle_trans; [now apply entropy_sum_le_log2 |].
  rewrite <- log2R_64. unfold log2R.
  apply Rmult_le_compat_r; [left; apply Rinv_0_lt_compat, ln2_pos |].
  apply ln_mono; [eapply counts_k_pos; eassumption |].
  assert (Hk : (List.length (values (Counter d)) <= 64)%nat).
  { unfold values. rewrite length_map, <- (length_map fst).
    apply Nat.le_trans with (List.length (firstn (Z.to_nat p) d)).
    - apply NoDup_incl_length; [apply Counter_wf |].
      intros k Hk. apply periodic_values; [lia | assumption |].
      now apply Counter_keys_in.
    - rewrite length_firstn. lia. }
  apply le_INR in Hk. rewrite (INR_IZR_INZ 64) in Hk. exact Hk.
Qed.

(** X11. A region of at least 128 bytes that repeats its first [p] bytes
    ([1 <= p <= 64], [20 * p <= len]) has entropy at most 6.0, so the
    random rule cannot claim it: unless it is a zero-fill or a one-fill, it
    is analysed as pattern type "repeating", algorithm
    "alternating_pattern", with a confidence of at least 95.0. *)
Theorem analyze_region_periodic (data : bytes) (p : Z) (offset : Z) :
  (1 <= p <= 64)%Z -> (128 <= len data)%Z -> (20 * p <= len data)%Z ->
  periodic data p ->
  exists r,
    analyze_region data offset = Ok r
    /\ Record_.entropy r <= 6
    /\ Repeating.found (Record_.repeating r) = true
    /\ (Record_.zero_confidence r < 99 -> Record_.one_confidence r < 99 ->
        Record_.pattern_type r = "repeating"
        /\ Record_.algorithm r = "alternating_pattern"
        /\ 95 <= Record_.confidence r <= 100).
Proof.
  intros Hp Hlen H20 Hper.
  destruct (analyze_region_returns data offset) as [r Hr].
  exists r. split; [exact Hr |].
  destruct (analyze_region_fields _ _ Hr)
    as [He [Hz [Ho [_ [_ [Hrep [_ _]]]]]]].
  destruct (analyze_region_cases _ _ Hr) as [_ [_ [algo [Hc [Halg [Hconf Hpt]]]]]].
  pose proof (periodic_entropy Hp Hper) as He6.
  destruct (periodic_found Hp Hlen H20 Hper) as [Hfound _].
  split; [rewrite He; exact He6 |].
  split; [rewrite Hrep; exact Hfound |].
  intros Hz99 Ho99. rewrite Hz in Hz99. rewrite Ho in Ho99.
  rewrite Hpt, Halg, Hconf.
  pose proof (repeating_value_invariant data) as [Hrc [Hrf _]].
  cbv zeta in Hrc, Hrf. destruct (Hrf Hfound) as [H95 _].
  pose proof (multi_value_phase_count data) as H4.
  destruct (classify_cases _ _ _ _ _ _ Hc)
    as [[Hg _] | [[Hg _] | [[Hg _]
       | [[_ [-> [-> ->]]] | [[_ [_ [_ Hp5]]] | [[Hfour _]
       | [_ [[_ Hp7] | [_ Hp7]]]]]]]]]; try lra; try contradiction.
  - repeat split; lra.
  - exfalso. revert Hp5. unfold pattern_type_of. rewrite Hfound.
    float_cases; try lra; destruct (Chi.is_random _); cbn; discriminate.
  - exfalso. revert Hp7. unfold pattern_type_of. rewrite Hfound.
    float_cases; try lra; destruct (Chi.is_random _); cbn; discriminate.
  - exfalso. revert Hp7. unfold pattern_type_of. rewrite Hfound.
    float_cases; try lra; destruct (Chi.is_random _); cbn; discriminate.
Qed.

Lemma analyze_region_periodic_witness :
  exists r,
    analyze_region (repeat x41 200) 0 = Ok r
    /\ Record_.pattern_type r = "repeating"
    /\ Record_.algorithm r = "alternating_pattern".
Proof.
  destruct (@analyze_region_periodic (repeat x41 200) 1 0)
    as [r [Hr [_ [_ Hrep]]]].
  - lia.
  - vm_compute. discriminate.
  - vm_compute. discriminate.
  - apply periodic_constant.
  - exists r. split; [exact Hr |].
    destruct (analyze_region_fields _ _ Hr) as [_ [Hz [Ho _]]].
    destruct Hrep as [Hp [Ha _]]; auto.
    + rewrite Hz, fill_value_none by discriminate. lra.
    + rewrite Ho, fill_value_none by discriminate. lra.
Defined.

(** * The scanner *)

Import Scanner.

(** ** The chunks of a file *)

Lemma scan_chunks_nil (fuel : nat) (cs off : Z) : scan_chunks fuel [] cs off = [].
Proof.
  destruct fuel as [| fuel]; [reflexivity |]. simpl. unfold read_value.
  destruct (cs <? 0)%Z; [reflexivity |]. now rewrite firstn_nil.
Qed.

Lemma read_value_positive (rest : bytes) (cs : Z) :
  (0 < cs)%Z ->
  read_value rest cs = (firstn (Z.to_nat cs) rest, skipn (Z.to_nat cs) rest).
Proof.
  intros H. unfold read_value. destruct (cs <? 0)%Z eqn:E; [| reflexivity].
  apply Z.ltb_lt in E. lia.
Qed.

(** One turn of the loop on a non-empty rest. *)
Lemma scan_chunks_step (fuel : nat) (rest : bytes) (cs off : Z) :
  (0 < cs)%Z -> rest <> [] ->
  scan_chunks (S fuel) rest cs off
  = (off, firstn (Z.to_nat cs) rest)
    :: scan_chunks fuel (skipn (Z.to_nat cs) rest) cs
         (off + len (firstn (Z.to_nat cs) rest)).
Proof.
  intros Hcs Hne. cbn [scan_chunks]. rewrite read_value_positive by assumption.
  destruct rest as [| b rest]; [contradiction |].
  destruct (Z.to_nat cs) as [| n] eqn:E; [lia |]. reflexivity.
Qed.


(** Where the chunks of the loop lie in the rest of the file. *)
Lemma scan_chunks_entries (fuel : nat) (rest : bytes) (cs off o : Z) (c : bytes) :
  (0 < cs)%Z -> (List.length rest < fuel)%nat ->
  In (o, c) (scan_chunks fuel rest cs off) ->
  exists k : nat,
    o = (off + Z.of_nat k * cs)%Z
    /\ c = firstn (Z.to_nat cs) (skipn (k * Z.to_nat cs) rest)
    /\ c <> []
    /\ (Z.of_nat k * cs < len rest)%Z.
Proof.
  intros Hcs. revert rest off.
  induction fuel as [| fuel IH]; intros rest off Hfuel Hin; [lia |].
  destruct rest as [| b rest]; [rewrite scan_chunks_nil in Hin; destruct Hin |].
  rewrite scan_chunks_step in Hin by (assumption || discriminate).
  destruct Hin as [[= <- <-] | Hin].
  - exists 0%nat. cbn [Nat.mul skipn].
    split; [lia |]. split; [reflexivity |]. split.
    + destruct (Z.to_nat cs) eqn:E; [lia | discriminate].
    + rewrite len_cons. pose proof (len_nonneg rest). lia.
  - set (d := b :: rest) in *.
    destruct (le_lt_dec (List.length d) (Z.to_nat cs)) as [Hshort | Hlong].
    + rewrite skipn_all2 in Hin by assumption.
      rewrite scan_chunks_nil in Hin. destruct Hin.
    + assert (Hfull : len (firstn (Z.to_nat cs) d) = cs).
      { unfold len. rewrite length_firstn. lia. }
      rewrite Hfull in Hin.
      apply IH in Hin; [| rewrite length_skipn; simpl List.length in *; lia].
      destruct Hin as [k [-> [-> [Hne Hk]]]].
      exists (S k). repeat split; try assumption.
      * lia.
      * rewrite skipn_skipn. do 2 f_equal. lia.
      * unfold len in *. rewrite length_skipn in Hk. lia.
Qed.


(** What [scan_file] returns, by the chunk size. *)
Lemma read_ok (rest : bytes) (n : Z) :
  (-1 <= n)%Z -> read rest n = Ok (read_value rest n).
Proof.
  intros Hn. unfold read, read_value.
  destruct (n <? -1)%Z eqn:E; [apply Z.ltb_lt in E; lia |].
  now destruct (n <? 0)%Z.
Qed.

Lemma scan_loop_value (fuel : nat) (rest : bytes) (cs off : Z) :
  (-1 <= cs)%Z ->
  scan_loop fuel rest cs off = Ok (scan_chunks fuel rest cs off).
Proof.
  intros Hcs. revert rest off.
  induction fuel as [| fuel IH]; intros rest off; [reflexivity |].
  cbn [scan_loop scan_chunks]. rewrite read_ok by exact Hcs. cbn [bind].
  destruct (read_value rest cs) as [chunk rest'].
  destruct chunk as [| b chunk]; [reflexivity |].
  rewrite IH. reflexivity.
Qed.

Lemma scan_file_value (file : File.t) (content : bytes) (cs : Z) :
  File.content file = Some content -> (-1 <= cs)%Z ->
  scan_file file cs = Ok (file_chunks content cs).
Proof.
  intros Hfile Hcs. unfold scan_file. rewrite Hfile.
  now apply scan_loop_value.
Qed.

Lemma scan_file_invalid (file : File.t) (content : bytes) (cs : Z) :
  File.content file = Some content -> (cs < -1)%Z ->
  scan_file file cs = Raise ValueError.
Proof.
  intros Hfile Hcs. unfold scan_file. rewrite Hfile.
  cbn [scan_loop]. unfold read.
  destruct (cs <? -1)%Z eqn:E; [reflexivity |].
  apply Z.ltb_ge in E. lia.
Qed.

Lemma scan_file_unreadable (file : File.t) (cs : Z) :
  File.content file = None -> scan_file file cs = Ok [].
Proof. intros Hfile. unfold scan_file. now rewrite Hfile. Qed.





(** * The scan of an image *)

Import Detector.

(** The loop of [scan_image], from any list of results so far. *)
Lemma scan_image_fold (min_confidence : float) (chunks : list (Z * bytes))
  (acc : list Record_.t) :
  exists records,
    Forall2 (fun oc r => analyze_region (snd oc) (fst oc) = Ok r)
            chunks records
    /\ foldM (fun results oc =>
                let '(offset, chunk) := oc in
                r <- analyze_region chunk offset ;;
                if reported min_confidence r then Ok (results ++ [r])
                else Ok results) chunks acc
       = Ok (acc ++ filter (reported min_confidence) records).
Proof.
  revert acc. induction chunks as [| [o c] chunks IH]; intros acc.
  - exists []. split; [constructor |]. cbn. now rewrite app_nil_r.
  - destruct (analyze_region_returns c o) as [r Hr].
    cbn [foldM]. rewrite Hr. cbn [bind].
    destruct (reported min_confidence r) eqn:E.
    + destruct (IH (acc ++ [r])) as [records [HF Hfold]].
      exists (r :: records). split; [constructor; assumption |].
      cbn [bind]. rewrite Hfold. cbn [filter]. rewrite E.
      now rewrite <- app_assoc.
    + destruct (IH acc) as [records [HF Hfold]].
      exists (r :: records). split; [constructor; assumption |].
      cbn [bind]. rewrite Hfold. cbn [filter]. now rewrite E.
Qed.

Lemma scan_image_unfold (file : File.t) (cs : Z) (mc : float)
  (chunks : list (Z * bytes)) :
  (cs <> 0)%Z -> scan_file file cs = Ok chunks ->
  scan_image file cs mc
  = foldM (fun results oc =>
             let '(offset, chunk) := oc in
             r <- analyze_region chunk offset ;;
             if reported mc r then Ok (results ++ [r]) else Ok results)
          chunks [].
Proof.
  intros Hcs Hscan. unfold scan_image. rewrite Hscan.
  unfold floordiv. apply Z.eqb_neq in Hcs. rewrite Hcs.
  destruct (File.st_size file) as [size |];
    [destruct (size =? 0)%Z |]; reflexivity.
Qed.




(** Whether a record passes the filter, read off its algorithm. *)
Lemma reported_iff_named (data : bytes) (offset : Z) (r : Record_.t)
  (mc : float) :
  analyze_region data offset = Ok r -> 0 < mc <= 75 ->
  (reported mc r = true <-> Record_.algorithm r <> "unknown").
Proof.
  intros Hr Hmc.
  destruct (analyze_region_cases _ _ Hr)
    as [_ [_ [algo [Hc [Halg [Hconf Hpt]]]]]].
  unfold reported. rewrite Halg, Hconf, Hpt.
  pose proof (multi_value_phase_count data) as H4.
  pose proof (fill_value_range data x00) as Hz.
  pose proof (fill_value_range data xff) as Ho.
  pose proof (entropy_value_range data) as He.
  pose proof (repeating_value_invariant data) as [_ [Hrf _]].
  pose proof (multi_value_confidence_cases data default_chunk_size) as Hm.
  cbv zeta in Hm, Hrf.
  assert (Hyes : forall c p a : _,
             mc <= c -> p <> "unknown" -> a <> "unknown" ->
             (negb (String.eqb p "unknown") && geb c mc = true
              <-> a <> "unknown")).
  { intros c p a Hcm Hp Ha. split; [intros _; exact Ha | intros _].
    apply String.eqb_neq in Hp. rewrite Hp. cbn.
    apply geb_true. exact Hcm. }
  destruct (classify_cases _ _ _ _ _ _ Hc)
    as [[Hg [-> [-> ->]]] | [[Hg [-> [-> ->]]] | [[Hg [-> [-> ->]]]
       | [[Hg [-> [-> ->]]] | [[Hg [Hdod [-> ->]]] | [[Hfour _]
       | [-> _]]]]]]].
  - apply Hyes; [lra | discriminate | discriminate].
  - apply Hyes; [lra | discriminate | discriminate].
  - apply Hyes; [| discriminate | discriminate].
    apply Rle_trans with 93; [lra |]. apply (@round_ge_IZR _ 93 1). lra.
  - destruct (Hrf Hg) as [H95 _].
    apply Hyes; [lra | discriminate | discriminate].
  - assert (75 <= Multi.confidence (multi_value data default_chunk_size))
      by (destruct Hm as [E | [E | [E | [E | E]]]]; rewrite E in *; lra).
    destruct Hdod as [-> | ->];
      (apply Hyes; [lra | discriminate | discriminate]).
  - contradiction.
  - cbn [unknown_algo Algo.algorithm Algo.confidence].
    split; [| intros H; now destruct H].
    intros H. apply andb_prop in H. destruct H as [_ H].
    apply geb_true in H. lra.
Qed.

(** X15. With a threshold in (0, 75], as the default 40.0 is, a record of
    [analyze_region] passes the filter of [scan_image] exactly when its
    algorithm is not "unknown": a region with pattern type "multi_pass" but
    algorithm "unknown" (confidence 0.0) is never reported, and raising the
    threshold within that range changes nothing. *)
Theorem reported_iff_algorithm_known
  (data : bytes) (offset : Z) (r : Record_.t) (min_confidence : float) :
  analyze_region data offset = Ok r ->
  0 < min_confidence <= 75 ->
  (negb (String.eqb (Record_.pattern_type r) "unknown")
   && geb (Record_.confidence r) min_confidence = true
   <-> Record_.algorithm r <> "unknown")
  /\ (Record_.pattern_type r = "multi_pass" ->
      Record_.algorithm r = "unknown" ->
      negb (String.eqb (Record_.pattern_type r) "unknown")
      && geb (Record_.confidence r) min_confidence = false).
Proof.
  intros Hr Hmc.
  pose proof (reported_iff_named _ _ Hr Hmc) as Hiff.
  unfold reported in Hiff. split; [exact Hiff |].
  intros _ Hunk. apply Bool.not_true_is_false. intros E.
  apply Hiff in E. contradiction.
Qed.

Lemma reported_iff_algorithm_known_witness :
  exists r,
    analyze_region sample_weak_multi 0 = Ok r
    /\ Record_.pattern_type r = "multi_pass"
    /\ negb (String.eqb (Record_.pattern_type r) "unknown")
       && geb (Record_.confidence r) MIN_CONFIDENCE = false.
Proof.
  destruct (analyze_region_returns sample_weak_multi 0) as [r Hr].
  exists r. split; [exact Hr |].
  assert (Hmc : 0 < MIN_CONFIDENCE <= 75) by (unfold MIN_CONFIDENCE; lra).
  destruct (reported_iff_algorithm_known _ _ Hr Hmc) as [_ Hdrop].
  destruct (analyze_region_fields _ _ Hr)
    as [He [Hz [Ho [_ [Hcr [Hrep [Hmp [Hpt Hcl]]]]]]]].
  destruct sample_weak_multi_facts as [Hz' [Ho' [Hchi Hfound]]].
  assert (Hpattern : Record_.pattern_type r = "multi_pass").
  { rewrite Hpt. unfold pattern_type_of.
    rewrite Hchi, Hfound, andb_false_r, sample_weak_multi_value.
    cbn [Multi.confidence].
    float_case (geb (fill_value sample_weak_multi x00) 99); [lra |].
    float_case (geb (fill_value sample_weak_multi xff) 99); [lra |].
    float_case (geb 50 50); [reflexivity | lra]. }
  split; [exact Hpattern |]. apply Hdrop; [exact Hpattern |].
  rewrite classify_unknown in Hcl;
    try assumption; try (rewrite Hchi; apply andb_false_r).
  - now injection Hcl as <- _ _.
  - rewrite sample_weak_multi_value. cbn. lra.
Defined.

(** * The report *)

Import Reporter.

Lemma foldM_scan_reported (mc : float) (chunks : list (Z * bytes))
  (acc results : list Record_.t) :
  Forall (fun r => reported mc r = true) acc ->
  foldM (fun results oc =>
           let '(offset, chunk) := oc in
           r <- analyze_region chunk offset ;;
           if reported mc r then Ok (results ++ [r]) else Ok results)
        chunks acc = Ok results ->
  Forall (fun r => reported mc r = true) results.
Proof.
  revert acc. induction chunks as [| [o c] chunks IH]; intros acc Hacc.
  - cbn. intros [= <-]. exact Hacc.
  - cbn [foldM]. destruct (analyze_region c o) as [r | e]; cbn [bind];
      [| discriminate].
    destruct (reported mc r) eqn:E; cbn [bind].
    + apply IH. apply Forall_app. split; [exact Hacc |].
      constructor; [exact E | constructor].
    + apply IH. exact Hacc.
Qed.

Lemma scan_image_reported (file : File.t) (cs : Z) (mc : float)
  (results : list Record_.t) :
  scan_image file cs mc = Ok results ->
  Forall (fun r => reported mc r = true) results.
Proof.
  unfold scan_image.
  destruct (_ : result Z) as [n | e]; cbn [bind]; [| discriminate].
  destruct (scan_file file cs) as [chunks | e]; cbn [bind]; [| discriminate].
  apply foldM_scan_reported. constructor.
Qed.

Lemma scan_image_returns (file : File.t) (cs : Z) (mc : float) :
  (cs <> 0)%Z -> (-1 <= cs)%Z ->
  exists results, scan_image file cs mc = Ok results.
Proof.
  intros Hcs Hmin.
  assert (Hchunks : exists chunks, scan_file file cs = Ok chunks).
  { destruct (File.content file) as [content |] eqn:Hfile.
    - exists (file_chunks content cs). now apply scan_file_value.
    - exists []. now apply scan_file_unreadable. }
  destruct Hchunks as [chunks Hscan].
  rewrite (scan_image_unfold _ _ Hcs Hscan).
  destruct (scan_image_fold mc chunks []) as [records [_ Hfold]].
  eexists. exact Hfold.
Qed.

(** X16. In the JSON report built from the results of [scan_image] the
    field [regions_analyzed] equals [detections_found]: both are the number
    of detections, since every result already has a pattern type other than
    "unknown"; chunks analysed without a detection are not counted. *)
Theorem json_report_counts (file : File.t) (chunk_size : Z)
  (min_confidence : float) (results : list Record_.t) (target now : string) :
  scan_image file chunk_size min_confidence = Ok results ->
  let report := json_report results target now in
  Report.regions_analyzed report = len results
  /\ Report.detections_found report = Report.regions_analyzed report
  /\ Report.detections report = results
  /\ Forall (fun r => Record_.pattern_type r <> "unknown"
                      /\ Record_.confidence r >= min_confidence) results.
Proof.
  intros Hscan report. apply scan_image_reported in Hscan.
  unfold report, json_report. cbn.
  split; [reflexivity |].
  assert (Hall : Forall (fun r => Record_.pattern_type r <> "unknown"
                                  /\ Record_.confidence r >= min_confidence)
                        results).
  { eapply Forall_impl; [| exact Hscan]. intros r Hr. cbv beta in Hr.
    unfold reported in Hr. apply andb_prop in Hr. destruct Hr as [Hp Hc].
    split.
    - apply String.eqb_neq. now apply negb_true_iff.
    - apply geb_true in Hc. lra. }
  split; [| split; [reflexivity | exact Hall]].
  f_equal. clear - Hall. induction Hall as [| r l [Hp _] _ IH]; [reflexivity |].
  cbn [filter]. apply String.eqb_neq in Hp. rewrite Hp. cbn. now f_equal.
Qed.

Lemma json_report_counts_witness :
  exists results,
    scan_image (regular_file zone_zero) 4096 40 = Ok results
    /\ Report.detections_found
         (json_report results "zero_fill.bin" "2024-01-01 00:00:00")
       = Report.regions_analyzed
           (json_report results "zero_fill.bin" "2024-01-01 00:00:00").
Proof.
  assert (Hcs : (4096 <> 0)%Z) by lia.
  assert (Hmin : (-1 <= 4096)%Z) by lia.
  destruct (scan_image_returns (regular_file zone_zero) 40 Hcs Hmin)
    as [results Hscan].
  exists results. split; [exact Hscan |].
  apply (json_report_counts _ _ _ "zero_fill.bin" "2024-01-01 00:00:00" Hscan).
Defined.

(** * The slack of a file *)

Import Scanner.

(** What [_file_slack_data] returns on a regular readable file, for a
    positive cluster size, as a suffix of the content. *)
Lemma file_slack_data_value (content : bytes) (cluster_size : Z) :
  (0 < cluster_size)%Z ->
  let file_size := len content in
  let slack_bytes := (cluster_size - file_size mod cluster_size)%Z in
  let n := if (file_size mod cluster_size =? 0)%Z then 0%Z
           else Z.min slack_bytes file_size in
  _file_slack_data (regular_file content) cluster_size
  = Ok (skipn (Z.to_nat (file_size - n)) content).
Proof.
  intros Hcs file_size slack_bytes n.
  unfold _file_slack_data, regular_file. cbn [File.st_size File.content].
  fold file_size.
  assert (Hfs : (0 <= file_size)%Z) by apply len_nonneg.
  pose proof (Z.mod_pos_bound file_size cluster_size Hcs) as Hmod.
  destruct (file_size =? 0)%Z eqn:E0.
  { apply Z.eqb_eq in E0. unfold n. rewrite E0. cbn.
    unfold file_size, len in E0. destruct content; [reflexivity | discriminate]. }
  apply Z.eqb_neq in E0.
  unfold modulo. destruct (cluster_size =? 0)%Z eqn:Ec;
    [apply Z.eqb_eq in Ec; lia |]. cbn [bind]. fold slack_bytes.
  destruct (slack_bytes =? cluster_size)%Z eqn:Es.
  { apply Z.eqb_eq in Es. unfold n.
    assert (Hm0 : (file_size mod cluster_size = 0)%Z) by (unfold slack_bytes in Es; lia).
    rewrite Hm0. cbn. rewrite Z.sub_0_r. unfold file_size, len.
    rewrite Nat2Z.id, skipn_all. reflexivity. }
  apply Z.eqb_neq in Es.
  assert (Hm : (file_size mod cluster_size <> 0)%Z) by (unfold slack_bytes in Es; lia).
  unfold n. destruct (file_size mod cluster_size =? 0)%Z eqn:Em;
    [apply Z.eqb_eq in Em; contradiction |].
  f_equal. unfold seek_read.
  set (a := Z.max 0 (file_size - cluster_size)).
  set (data := skipn (Z.to_nat a) content).
  assert (Hdata : len data = Z.min file_size cluster_size).
  { unfold data, len. rewrite length_skipn. unfold file_size, len in *. lia. }
  unfold slice, clamp.
  destruct (- slack_bytes <? 0)%Z eqn:E1;
    [| apply Z.ltb_ge in E1; unfold slack_bytes in E1; lia].
  destruct (len data <? 0)%Z eqn:E2;
    [apply Z.ltb_lt in E2; pose proof (len_nonneg data); lia |].
  rewrite Z.min_id.
  set (lo := Z.max (- slack_bytes + len data) 0).
  rewrite firstn_all2
    by (rewrite length_skipn; unfold len in *; lia).
  unfold data. rewrite skipn_skipn. f_equal.
  unfold lo. rewrite Hdata. unfold a, slack_bytes in *. lia.
Qed.

(** X17. The bytes [_file_slack_data] returns for a regular readable file
    and a positive cluster size are bytes of the file itself: the last
    [min(slack_bytes, file_size)] bytes of its content, where [slack_bytes]
    is the distance from the end of the file to the next cluster boundary.
    The result is empty exactly when the size is a multiple of the cluster
    size. Cluster size 0 raises [ZeroDivisionError] on every path whose
    size is known and not 0, whether it can be opened or not; a path whose
    size cannot be asked or is 0 gives the empty result, and so does, for a
    cluster size other than 0, a path that cannot be opened. *)
Theorem file_slack_data_is_file_tail (file : File.t) (content : bytes)
  (cluster_size : Z) :
  ((0 < cluster_size)%Z ->
   let file_size := len content in
   let slack_bytes := (cluster_size - file_size mod cluster_size)%Z in
   exists front tail,
     _file_slack_data (regular_file content) cluster_size = Ok tail
     /\ content = front ++ tail
     /\ ((file_size mod cluster_size = 0)%Z -> tail = [])
     /\ ((file_size mod cluster_size <> 0)%Z ->
         len tail = Z.min slack_bytes file_size /\ (0 < len tail)%Z))
  /\ (forall size,
         File.st_size file = Some size -> size <> 0%Z ->
         _file_slack_data file 0 = Raise ZeroDivisionError)
  /\ (File.st_size file = None \/ File.st_size file = Some 0%Z ->
      _file_slack_data file cluster_size = Ok [])
  /\ (File.content file = None -> (cluster_size <> 0)%Z ->
      _file_slack_data file cluster_size = Ok []).
Proof.
  split; [| split; [| split]].
  - intros Hcs file_size slack_bytes.
    pose proof (file_slack_data_value content Hcs) as Hv. cbv zeta in Hv.
    fold file_size in Hv. fold slack_bytes in Hv.
    assert (Hfs : (0 <= file_size)%Z) by apply len_nonneg.
    pose proof (Z.mod_pos_bound file_size cluster_size Hcs) as Hmod.
    eexists. eexists. split; [exact Hv |].
    split; [symmetry; apply firstn_skipn |].
    split.
    + intros Hm. rewrite Hm. cbn. rewrite Z.sub_0_r.
      unfold file_size, len. rewrite Nat2Z.id. apply skipn_all.
    + intros Hm. apply Z.eqb_neq in Hm. rewrite Hm. apply Z.eqb_neq in Hm.
      assert (Hpos : (file_size <> 0)%Z).
      { intros H0. rewrite H0 in Hm. now rewrite Z.mod_0_l in Hm by lia. }
      assert (Hlen : len (skipn (Z.to_nat (file_size - Z.min slack_bytes file_size))
                                content)
                     = Z.min slack_bytes file_size).
      { unfold len at 1. rewrite length_skipn.
        assert (Hsl : (0 < slack_bytes)%Z) by (unfold slack_bytes; lia).
        assert (Hl : Z.of_nat (List.length content) = file_size) by reflexivity.
        clearbody slack_bytes file_size. clear Hv. lia. }
      rewrite Hlen. split; [reflexivity |]. unfold slack_bytes. lia.
  - intros size Hsize Hne. unfold _file_slack_data. rewrite Hsize.
    apply Z.eqb_neq in Hne. rewrite Hne. reflexivity.
  - intros [Hsize | Hsize]; unfold _file_slack_data; rewrite Hsize;
      reflexivity.
  - intros Hfile Hcs. unfold _file_slack_data. rewrite Hfile.
    destruct (File.st_size file) as [size |]; [| reflexivity].
    destruct (size =? 0)%Z; [reflexivity |].
    unfold modulo. apply Z.eqb_neq in Hcs. rewrite Hcs. cbn [bind].
    now destruct (cluster_size - size mod cluster_size =? cluster_size)%Z.
Qed.

Lemma file_slack_data_is_file_tail_witness :
  (0 < 4)%Z
  /\ exists front tail,
      _file_slack_data (regular_file [x61; x62; x63; x64; x65; x66]) 4
      = Ok tail
      /\ [x61; x62; x63; x64; x65; x66] = front ++ tail
      /\ tail = [x65; x66].
Proof.
  assert (H : (0 < 4)%Z) by lia.
  split; [exact H |].
  destruct (proj1 (file_slack_data_is_file_tail
                     (regular_file [x61; x62; x63; x64; x65; x66])
                     [x61; x62; x63; x64; x65; x66] 4) H)
    as [front [tail [Hv [Hcat _]]]].
  exists front, tail. split; [exact Hv |]. split; [exact Hcat |].
  vm_compute in Hv. now injection Hv as <-.
Defined.

(** * Regions too short for a detector *)

(** The pattern types left to a region, by the detectors its length
    switches off. *)
Lemma short_region_pattern (data : bytes) :
  let pt := pattern_type_of (entropy_value data) (fill_value data x00)
              (fill_value data xff) (chi_value data)
              (multi_value data default_chunk_size) (repeating_value data) in
  ((len data < 256)%Z -> pt <> "random")
  /\ ((len data < 128)%Z -> pt <> "repeating")
  /\ ((len data < 2048)%Z -> pt <> "multi_pass").
Proof.
  cbv zeta. unfold pattern_type_of, chi_value, repeating_value, multi_value,
    default_chunk_size.
  split; [| split]; intros Hlen.
  - destruct (len data <? 256)%Z eqn:E; [| apply Z.ltb_ge in E; lia].
    cbn [Chi.is_random]. rewrite andb_false_r.
    float_cases; try discriminate;
      destruct (Repeating.found _); try discriminate;
      float_cases; discriminate.
  - destruct (len data <? 128)%Z eqn:E; [| apply Z.ltb_ge in E; lia].
    cbn [Repeating.found].
    float_cases; try discriminate;
      destruct (_ && _); try discriminate; float_cases; discriminate.
  - destruct (len data <? 512 * 4)%Z eqn:E; [| apply Z.ltb_ge in E; lia].
    cbn [Multi.confidence].
    float_case (geb 0 50); [lra |].
    float_cases; try discriminate;
      destruct (_ && _); try discriminate;
      destruct (Repeating.found _); discriminate.
Qed.

(** X18. What [analyze_region] never reports on a short region: below 256
    bytes never "random" / "random_only", below 128 bytes never "repeating"
    / "alternating_pattern", below 2048 bytes never "multi_pass" nor a DoD
    algorithm. A region shorter than 128 bytes is therefore a zero-fill, a
    one-fill or unknown. *)
Theorem analyze_region_short (data : bytes) (offset : Z) (r : Record_.t) :
  analyze_region data offset = Ok r ->
  ((len data < 256)%Z ->
   Record_.pattern_type r <> "random"
   /\ Record_.algorithm r <> "random_only"
   /\ Record_.chi_is_random r = false)
  /\ ((len data < 128)%Z ->
      Record_.pattern_type r <> "repeating"
      /\ Record_.algorithm r <> "alternating_pattern"
      /\ Repeating.found (Record_.repeating r) = false)
  /\ ((len data < 2048)%Z ->
      Record_.pattern_type r <> "multi_pass"
      /\ Record_.algorithm r <> "dod_5220_3pass"
      /\ Record_.algorithm r <> "dod_5220_7pass"
      /\ Multi.phases (Record_.multi_pass r) = [])
  /\ ((len data < 128)%Z ->
      (Record_.pattern_type r = "zero_fill"
       /\ Record_.algorithm r = "simple_zero")
      \/ (Record_.pattern_type r = "one_fill"
          /\ Record_.algorithm r = "simple_one")
      \/ (Record_.pattern_type r = "unknown"
          /\ Record_.algorithm r = "unknown"
          /\ Record_.confidence r = 0)).
Proof.
  intros Hr.
  destruct (analyze_region_fields _ _ Hr)
    as [_ [_ [_ [_ [Hcr [Hrep [Hmp _]]]]]]].
  destruct (analyze_region_cases _ _ Hr)
    as [_ [_ [algo [Hc [Halg [Hconf Hpt]]]]]].
  pose proof (short_region_pattern data) as [Hran [Hper Hmul]].
  cbv zeta in Hran, Hper, Hmul. rewrite <- Hpt in Hran, Hper, Hmul.
  pose proof (multi_value_phase_count data) as H4.
  pose proof (classify_cases _ _ _ _ _ _ Hc) as Hcases. cbv zeta in Hcases.
  rewrite <- Hpt, <- Halg, <- Hconf in Hcases.
  assert (Hpt_alg :
            (Record_.algorithm r = "random_only"
             -> Record_.pattern_type r = "random")
            /\ (Record_.algorithm r = "alternating_pattern"
                -> Record_.pattern_type r = "repeating")
            /\ (Record_.algorithm r = "dod_5220_3pass"
                \/ Record_.algorithm r = "dod_5220_7pass"
                -> Record_.pattern_type r = "multi_pass")).
  { destruct Hcases
      as [[_ [Ha [_ Hp]]] | [[_ [Ha [_ Hp]]] | [[_ [Ha [_ Hp]]]
         | [[_ [Ha [_ Hp]]] | [[_ [Ha [_ Hp]]] | [[Hfour _]
         | [Ha _]]]]]]];
      try contradiction;
      try (rewrite Ha; repeat split; intros H;
           try discriminate H; try exact Hp;
           destruct H as [H | H]; discriminate H).
    - repeat split; intros H; try exact Hp;
        destruct Ha as [Ha | Ha]; rewrite Ha in H; try discriminate H;
        destruct H as [H | H]; discriminate H.
    - rewrite Halg, Ha. cbn. repeat split; intros H;
        try discriminate H; destruct H as [H | H]; discriminate H. }
  destruct Hpt_alg as [Hra [Hal Hdod]].
  split; [| split; [| split]]; intros Hlen.
  - split; [now apply Hran |]. split; [intros H; now apply Hran, Hra |].
    rewrite Hcr. unfold chi_value.
    destruct (len data <? 256)%Z eqn:E; [reflexivity |].
    apply Z.ltb_ge in E. lia.
  - split; [now apply Hper |]. split; [intros H; now apply Hper, Hal |].
    rewrite Hrep. unfold repeating_value.
    destruct (len data <? 128)%Z eqn:E; [reflexivity |].
    apply Z.ltb_ge in E. lia.
  - split; [now apply Hmul |].
    split; [intros H; apply Hmul; [exact Hlen | apply Hdod; now left] |].
    split; [intros H; apply Hmul; [exact Hlen | apply Hdod; now right] |].
    rewrite Hmp. unfold multi_value, default_chunk_size.
    destruct (len data <? 512 * 4)%Z eqn:E; [reflexivity |].
    apply Z.ltb_ge in E. lia.
  - assert (H256 : (len data < 256)%Z) by lia.
    assert (H2048 : (len data < 2048)%Z) by lia.
    specialize (Hran H256). specialize (Hper Hlen). specialize (Hmul H2048).
    destruct Hcases
      as [[_ [Ha [_ Hp]]] | [[_ [Ha [_ Hp]]] | [[_ [Ha [_ Hp]]]
         | [[_ [Ha [_ Hp]]] | [[_ [Ha [_ Hp]]] | [[Hfour _]
         | [Ha [[_ Hp] | [_ Hp]]]]]]]]];
      try contradiction.
    + left. auto.
    + right; left. auto.
    + right; right. rewrite Halg, Hconf, Ha. cbn. auto.
Qed.

Lemma analyze_region_short_witness :
  exists r,
    analyze_region [x41; x42; x41; x42] 0 = Ok r
    /\ Record_.pattern_type r = "unknown"
    /\ Record_.algorithm r = "unknown".
Proof.
  destruct (analyze_region_returns [x41; x42; x41; x42] 0) as [r Hr].
  exists r. split; [exact Hr |].
  destruct (analyze_region_short _ _ Hr) as [_ [_ [_ Hshort]]].
  destruct (analyze_region_fields _ _ Hr) as [_ [_ [_ [_ [_ [_ [_ [Hpt _]]]]]]]].
  assert (Hz : fill_value [x41; x42; x41; x42] x00 = 0).
  { rewrite fill_value_raw by discriminate.
    replace (IZR (count [x41; x42; x41; x42] x00)
             / IZR (len [x41; x42; x41; x42]) * 100) with 0
      by (vm_compute count; vm_compute len; unfold Rdiv; ring).
    apply (round_IZR 0). }
  assert (Ho : fill_value [x41; x42; x41; x42] xff = 0).
  { rewrite fill_value_raw by discriminate.
    replace (IZR (count [x41; x42; x41; x42] xff)
             / IZR (len [x41; x42; x41; x42]) * 100) with 0
      by (vm_compute count; vm_compute len; unfold Rdiv; ring).
    apply (round_IZR 0). }
  unfold pattern_type_of in Hpt. rewrite Hz, Ho in Hpt.
  float_case (geb 0 99); [lra |].
  destruct (Hshort ltac:(vm_compute; reflexivity))
    as [[Hp _] | [[Hp _] | [Hp [Ha _]]]].
  - rewrite Hp in Hpt.
    destruct (_ && _) in Hpt; try discriminate Hpt;
      destruct (Repeating.found _) in Hpt; try discriminate Hpt;
      destruct (geb _ 50) in Hpt; discriminate Hpt.
  - rewrite Hp in Hpt.
    destruct (_ && _) in Hpt; try discriminate Hpt;
      destruct (Repeating.found _) in Hpt; try discriminate Hpt;
      destruct (geb _ 50) in Hpt; discriminate Hpt.
  - auto.
Defined.

(** * Allocated clusters *)

Lemma startswith_app (chunk magic : bytes) :
  startswith chunk magic = true <-> exists rest, chunk = magic ++ rest.
Proof.
  revert chunk. induction magic as [| m magic IH]; intros chunk.
  - split; [intros _; now exists chunk | now destruct chunk].
  - destruct chunk as [| c chunk]; cbn [startswith].
    + split; [discriminate | intros [rest H]; discriminate H].
    + rewrite andb_true_iff, IH. split.
      * intros [Hc [rest ->]]. apply Byte.byte_dec_bl in Hc. subst c.
        now exists rest.
      * intros [rest [= -> ->]]. split; [apply byte_eqb_refl |].
        now exists rest.
Qed.

Lemma startswith_firstn (chunk magic : bytes) (n : nat) :
  (List.length magic <= n)%nat ->
  startswith (firstn n chunk) magic = startswith chunk magic.
Proof.
  revert chunk n. induction magic as [| m magic IH]; intros chunk n Hn.
  - now destruct chunk, n.
  - destruct n as [| n]; [simpl in Hn; lia |].
    destruct chunk as [| c chunk]; [reflexivity |].
    cbn [firstn startswith]. rewrite IH by (simpl in Hn; lia). reflexivity.
Qed.

(** X19. [_looks_allocated] holds exactly of the chunks that begin with one
    of the eight signatures, so the first four bytes decide it. A chunk
    filled with a single byte value (a zero-fill, a one-fill) and an empty
    chunk never look allocated, whereas a chunk that begins with a
    signature does whatever follows it. *)
Theorem looks_allocated_prefix (chunk : bytes) :
  (_looks_allocated chunk = true
   <-> exists magic rest, In magic _ALLOC_MAGIC /\ chunk = magic ++ rest)
  /\ _looks_allocated (firstn 4 chunk) = _looks_allocated chunk
  /\ (forall b n, _looks_allocated (repeat b n) = false).
Proof.
  split; [| split].
  - unfold _looks_allocated. rewrite existsb_exists. split.
    + intros [magic [Hin Hs]]. apply startswith_app in Hs.
      destruct Hs as [rest ->]. now exists magic, rest.
    + intros [magic [rest [Hin ->]]]. exists magic. split; [exact Hin |].
      apply startswith_app. now exists rest.
  - unfold _looks_allocated, _ALLOC_MAGIC. cbn [existsb].
    rewrite !startswith_firstn by (cbn; lia). reflexivity.
  - intros b n. unfold _looks_allocated, _ALLOC_MAGIC. cbn [existsb].
    destruct n as [| [| n]]; [reflexivity | |].
    + cbn [repeat startswith]. now rewrite !andb_false_r.
    + cbn [repeat startswith].
      destruct b; reflexivity.
Qed.

Lemma In_firstn_skipn {A : Type} (n : nat) (l : list A) (x : A) :
  In x (firstn n l) \/ In x (skipn n l) -> In x l.
Proof.
  intros H. rewrite <- (firstn_skipn n l). apply in_or_app. exact H.
Qed.

(** The bytes of a chunk are bytes of the file, whatever the chunk size. *)
Lemma scan_chunks_chunk_bytes (fuel : nat) (rest : bytes) (cs off o : Z)
  (c : bytes) :
  In (o, c) (scan_chunks fuel rest cs off) -> incl c rest.
Proof.
  revert rest off. induction fuel as [| fuel IH]; intros rest off Hin;
    [destruct Hin |].
  cbn [scan_chunks] in Hin.
  assert (Hread : incl (fst (read_value rest cs)) rest
                  /\ incl (snd (read_value rest cs)) rest).
  { unfold read_value. destruct (cs <? 0)%Z; cbn [fst snd].
    - split; [apply incl_refl | intros x []].
    - split; intros x Hx; apply (In_firstn_skipn (Z.to_nat cs)); auto. }
  destruct (read_value rest cs) as [chunk rest']. cbn [fst snd] in Hread.
  destruct Hread as [Hc Hr].
  destruct chunk as [| b chunk]; [destruct Hin |].
  destruct Hin as [[= <- <-] | Hin]; [exact Hc |].
  apply IH in Hin. intros x Hx. apply Hr, Hin, Hx.
Qed.

Lemma scan_file_fill_chunks (b : Byte.byte) (n : nat) (cs o : Z) (c : bytes) :
  In (o, c) (file_chunks (repeat b n) cs) ->
  c = repeat b (List.length c).
Proof.
  intros Hin. apply scan_chunks_chunk_bytes in Hin.
  apply Forall_eq_repeat, Forall_forall. intros x Hx.
  symmetry. apply (repeat_spec n). apply Hin, Hx.
Qed.

Lemma looks_allocated_fill (b : Byte.byte) (n : nat) :
  _looks_allocated (repeat b n) = false.
Proof.
  unfold _looks_allocated, _ALLOC_MAGIC. cbn [existsb].
  destruct n as [| [| n]]; [reflexivity | |].
  - cbn [repeat startswith]. now rewrite !andb_false_r.
  - cbn [repeat startswith]. destruct b; reflexivity.
Qed.

Lemma looks_allocated_signature (magic rest : bytes) (n : nat) :
  In magic _ALLOC_MAGIC -> (4 <= n)%nat ->
  _looks_allocated (firstn n (magic ++ rest)) = true.
Proof.
  intros Hin Hn. unfold _looks_allocated. apply existsb_exists.
  exists magic. split; [exact Hin |].
  rewrite startswith_firstn.
  - apply startswith_app. now exists rest.
  - unfold _ALLOC_MAGIC in Hin. cbn [In] in Hin.
    repeat (destruct Hin as [<- | Hin]; [cbn; lia |]). destruct Hin.
Qed.

(** X20. [scan_unallocated_image] skips nothing of an image filled with a
    single byte value (a zero-fill, a one-fill): it yields the chunks of
    [scan_file], for every chunk size. Of an image that begins with one of
    the eight file signatures, read with a chunk size of at least 4, the
    chunk at offset 0 is never yielded. *)
Theorem scan_unallocated_image_skips (file : File.t) (chunk_size : Z) :
  (forall b n,
      File.content file = Some (repeat b n) ->
      scan_unallocated_image file chunk_size = scan_file file chunk_size)
  /\ (forall magic rest,
         In magic _ALLOC_MAGIC -> (4 <= chunk_size)%Z ->
         File.content file = Some (magic ++ rest) ->
         exists chunks,
           scan_unallocated_image file chunk_size = Ok chunks
           /\ forall chunk, ~ In (0%Z, chunk) chunks).
Proof.
  split.
  - intros b n Hfile. unfold scan_unallocated_image.
    destruct (Z_lt_ge_dec chunk_size (-1)) as [Hbad | Hok].
    + now rewrite (scan_file_invalid _ Hfile Hbad).
    + rewrite (scan_file_value _ Hfile) by lia. cbn [bind]. f_equal.
      apply forallb_filter_id, forallb_forall. intros [o c] Hin. cbn [snd].
      rewrite (scan_file_fill_chunks _ _ _ _ _ Hin).
      now rewrite looks_allocated_fill.
  - intros magic rest Hmagic Hcs Hfile. unfold scan_unallocated_image.
    rewrite (scan_file_value _ Hfile) by lia. cbn [bind].
    eexists. split; [reflexivity |].
    intros chunk Hin. apply filter_In in Hin.
    destruct Hin as [Hin Hno]. cbn [snd] in Hno.
    unfold file_chunks in Hin.
    apply scan_chunks_entries in Hin; [| lia | lia].
    destruct Hin as [k [Hk [-> _]]].
    assert (k = 0%nat) by nia. subst k. cbn [Nat.mul skipn] in Hno.
    rewrite looks_allocated_signature in Hno by (assumption || lia).
    discriminate Hno.
Qed.

Lemma scan_unallocated_image_skips_witness :
  In [x4d; x5a] _ALLOC_MAGIC /\ (4 <= 4)%Z
  /\ exists chunks,
      scan_unallocated_image
        (regular_file ([x4d; x5a] ++ [x00; x00; x00; x00; x00; x00])) 4
      = Ok chunks
      /\ ~ In (0%Z, [x4d; x5a; x00; x00]) chunks.
Proof.
  assert (Hm : In [x4d; x5a] _ALLOC_MAGIC) by (cbn; tauto).
  assert (Hc : (4 <= 4)%Z) by lia.
  split; [exact Hm |]. split; [exact Hc |].
  destruct (proj2 (scan_unallocated_image_skips
                     (regular_file
                        ([x4d; x5a] ++ [x00; x00; x00; x00; x00; x00])) 4)
              [x4d; x5a] [x00; x00; x00; x00; x00; x00] Hm Hc eq_refl)
    as [chunks [Hscan Hno]].
  exists chunks. split; [exact Hscan | apply Hno].
Defined.

(** * Scans of the generated images *)

Import Samples.

(** ** How many chunks, where, and how long *)






(** ** The loop of [scan_image] when the outcome of every chunk is known *)

Section Selected.

Variable mc : float.
Variable sel : Z * bytes -> bool.
Variable Q : Z * bytes -> Record_.t -> Prop.



End Selected.





(** ** Zero-fill and one-fill images *)



Section FillImage.

Variable mc : float.
Variable b : Byte.byte.
Variable P : Record_.t -> Prop.

Hypothesis analyze_fill :
  forall (n : nat) (offset : Z), (0 < n)%nat ->
    exists r,
      analyze_region (repeat b n) offset = Ok r
      /\ reported mc r = true
      /\ Record_.offset r = offset
      /\ Record_.size r = Z.of_nat n
      /\ P r.


End FillImage.



(** ** Images that repeat a unit *)





Section UnitImage.

Variable unit : bytes.
Hypothesis unit_nonempty : unit <> [].










End UnitImage.

Section UnitScan.

Variable unit : bytes.
Hypothesis unit_nonempty : unit <> [].
Hypothesis unit_short : (20 * len unit <= 128)%Z.
Hypothesis unit_no_zero : ~ In x00 unit.
Hypothesis unit_no_one : ~ In xff unit.

Variables size cs : Z.
Variable mc : float.
Hypothesis size_nonneg : (0 <= size)%Z.
Hypothesis cs_pos : (0 < cs)%Z.
Hypothesis mc_le : mc <= 95.



End UnitScan.


